(** * ComposTy: the SQL statement composer, embedded and verified

    Shallow embedding of the TypeScript sources of ComposTy:

    - the CTE-graph composer (the builder with [dependsOn] views, the
      [$order_by] / [$rev_order_by] macros and [paginateData]), in
      [Module CteGraph];
    - the earlier builder of [src/sql.ts], in [Module SqlTs].

    Conventions of the embedding.

    - A JavaScript string is a [string]: a sequence of code units below 256.
    - A [number] is an IEEE 754 binary64 value, [JSNumber.t]: the values of
      [spec_float] that are valid at precision 53 and maximal exponent 1024,
      with the arithmetic and the comparisons of the library's
      specification of the standard.  NaN, the infinities and the two zeros
      are numbers like the others.
    - An object whose key order matters ([Fields], [dependsOn]) is the list
      of its entries in own-property enumeration order, the order of
      [Object.keys] / [Object.entries] / [for .. in].
    - The named-parameter object is a plain object: its own properties are a
      [gmap string JSValue] and its prototype is [Object.prototype].
    - A field that TypeScript declares [string] is a [string]; an optional
      field is an [option].  The [typeof x !== "string"] and
      [typeof x !== "number"] tests of the validator are therefore constant
      and are written as [false] where the source has them.
    - A view ([SQLQueryView]) is an object in the heap and [dependsOn] holds
      references to views, so that two entries can hold the same view and a
      view can be reached from itself.
    - [throw] is the [Throw] outcome of [Result].  The recursion of
      [expandQueryView] is bounded by the room left on the call stack
      ([stack], counted in nested calls): a call that finds no room throws
      the engine's [RangeError], whose message is V8's.  The [catch] block
      of [buildComplexSQL] re-throws a [SQLBuildError] unchanged and wraps
      every other error. *)

From Stdlib Require Import ZArith Ascii String List Lia DecimalString SpecFloat.
From stdpp Require Import gmap strings.
Import ListNotations.

Open Scope string_scope.
Open Scope list_scope.

#[local] Arguments String.append !s1 s2 : simpl nomatch.

(** ** JavaScript numbers *)

Module JSNumber.

(** A number: a binary64 value. *)
Definition t : Type := spec_float.

Definition NaN : t := S754_nan.

(** The number an integer literal stands for: the integer, rounded to the
    nearest binary64 value. *)
Definition ofZ (z : Z) : t := binary_normalize 53 1024 z 0 false.

(** [x * y] and [x + y]. *)
Definition mul (x y : t) : t := SFmul 53 1024 x y.
Definition add (x y : t) : t := SFadd 53 1024 x y.

(** [x < y] and [x <= y]: [false] when one of the two is NaN. *)
Definition ltb (x y : t) : bool := SFltb x y.
Definition leb (x y : t) : bool := SFleb x y.

Definition isNaN (x : t) : bool :=
  match x with
  | S754_nan => true
  | _ => false
  end.

(** A number is truthy unless it is [+0], [-0] or NaN. *)
Definition truthy (x : t) : bool :=
  match x with
  | S754_zero _ | S754_nan => false
  | S754_infinity _ | S754_finite _ _ _ => true
  end.

(** *** [Number.prototype.toString]

    For a finite [x > 0] the digits are those of the integer [s] with the
    fewest digits such that [s * 10^p] rounds to [x] for some [p]; of two
    such integers the one nearer to [x] is taken.  Here [x = m * 2^e], and
    the values that round to [x] lie between [lower] and [upper], counted
    in quarters of the gap [2^e] between [x] and the next number; the bounds
    themselves round to [x] when [m] is even. *)
Section Shortest.
Variables (m : positive) (e : Z).

Definition lower : Z :=
  if ((Z.pos m =? 2 ^ 52) && (-1074 <? e))%bool%Z then (4 * Z.pos m - 1)%Z
  else (4 * Z.pos m - 2)%Z.

Definition upper : Z := (4 * Z.pos m + 2)%Z.

(** [s * 10^p] against [a] quarters: [s * scaleS p] against
    [a * scaleA p]. *)
Definition scaleS (p : Z) : Z := (10 ^ Z.max p 0 * 2 ^ Z.max (2 - e) 0)%Z.
Definition scaleA (p : Z) : Z := (2 ^ Z.max (e - 2) 0 * 10 ^ Z.max (- p) 0)%Z.

(** [s * 10^p] rounds to [x]. *)
Definition inside (p s : Z) : bool :=
  let L := (s * scaleS p)%Z in
  let lo := (lower * scaleA p)%Z in
  let hi := (upper * scaleA p)%Z in
  if Z.even (Z.pos m) then ((lo <=? L) && (L <=? hi))%bool%Z
  else ((lo <? L) && (L <? hi))%bool%Z.

(** The integer [s] nearest to [x / 10^p] such that [s * 10^p] rounds to
    [x], if there is one: it is the integer just below or just above. *)
Definition candidate (p : Z) : option Z :=
  let num := (4 * Z.pos m * scaleA p)%Z in
  let den := scaleS p in
  let f := (num / den)%Z in
  let r := (num mod den)%Z in
  let c := if (r =? 0)%Z then f else (f + 1)%Z in
  match ((1 <=? f)%Z && inside p f)%bool, inside p c with
  | true, true =>
      match (2 * r ?= den)%Z with
      | Lt => Some f
      | Gt => Some c
      | Eq => Some (if Z.even f then f else c)
      end
  | true, false => Some f
  | false, true => Some c
  | false, false => None
  end.

(** The largest [p] that has a candidate gives the fewest digits. *)
Fixpoint search (tries : nat) (p : Z) : Z * Z :=
  match tries with
  | O => (0, p)%Z
  | S tries' =>
      match candidate p with
      | Some s => (s, p)
      | None => search tries' (p - 1)%Z
      end
  end.

(** The search starts above the decimal exponent of [x], which the binary
    one bounds, and needs no more than 17 digits. *)
Definition shortest : Z * Z :=
  search 25 ((Z.log2 (Z.pos m) + 1 + e) * 30103 / 100000 + 2)%Z.

End Shortest.

Fixpoint zeros (n : nat) : string :=
  match n with
  | O => EmptyString
  | S n' => String "0" (zeros n')
  end.

Definition digits (z : Z) : string :=
  NilZero.string_of_uint (N.to_uint (Z.to_N z)).

(** The notation of the digits [s] with the decimal point after the [n]-th
    digit ([n = p +] the number of digits). *)
Definition positiveToString (m : positive) (e : Z) : string :=
  let (s, p) := shortest m e in
  let ds := digits s in
  let k := Z.of_nat (String.length ds) in
  let n := (p + k)%Z in
  if ((k <=? n) && (n <=? 21))%bool%Z then
    String.append ds (zeros (Z.to_nat (n - k)))
  else if ((0 <? n) && (n <=? 21))%bool%Z then
    String.append (String.substring 0 (Z.to_nat n) ds)
      (String "." (String.substring (Z.to_nat n) (Z.to_nat (k - n)) ds))
  else if ((-6 <? n) && (n <=? 0))%bool%Z then
    String "0" (String "." (String.append (zeros (Z.to_nat (- n))) ds))
  else
    let exponent :=
      String "e" (String (if (n - 1 <? 0)%Z then "-" else "+")
                    (digits (Z.abs (n - 1)))) in
    if (k =? 1)%Z then String.append ds exponent
    else String.append (String.substring 0 1 ds)
           (String "." (String.append
                          (String.substring 1 (Z.to_nat (k - 1)) ds)
                          exponent)).

(** [String(x)], as in a template literal. *)
Definition toString (x : t) : string :=
  match x with
  | S754_nan => "NaN"
  | S754_zero _ => "0"
  | S754_infinity s => if s then "-Infinity" else "Infinity"
  | S754_finite s m e =>
      if s then String "-" (positiveToString m e) else positiveToString m e
  end.

End JSNumber.

#[local] Arguments JSNumber.ofZ : simpl never.
#[local] Arguments JSNumber.mul : simpl never.
#[local] Arguments JSNumber.add : simpl never.
#[local] Arguments JSNumber.ltb : simpl never.
#[local] Arguments JSNumber.leb : simpl never.
#[local] Arguments JSNumber.toString : simpl never.

(** ** JavaScript strings *)

Module JS.

Definition inRange (lo hi c : ascii) : bool :=
  ((lo <=? c)%char && (c <=? hi)%char)%bool.

Definition isLower (c : ascii) : bool := inRange "a" "z" c.
Definition isUpper (c : ascii) : bool := inRange "A" "Z" c.
Definition isDigit (c : ascii) : bool := inRange "0" "9" c.

(** The character class [[a-zA-Z_]]. *)
Definition isIdentStart (c : ascii) : bool :=
  (isLower c || isUpper c || (c =? "_")%char)%bool.

(** The character class [[a-zA-Z0-9_]]. *)
Definition isIdentChar (c : ascii) : bool :=
  (isLower c || isUpper c || isDigit c || (c =? "_")%char)%bool.

(** White space of [String.prototype.trim] among the code units below 256:
    TAB, LF, VT, FF, CR, SPACE and NO-BREAK SPACE. *)
Definition isWhiteSpace (c : ascii) : bool :=
  let n := N_of_ascii c in
  ((9 <=? n)%N && (n <=? 13)%N || (n =? 32)%N || (n =? 160)%N)%bool.

Definition isEmpty (s : string) : bool :=
  match s with EmptyString => true | String _ _ => false end.

(** A string is truthy when it is not empty. *)
Definition truthy (s : string) : bool := negb (isEmpty s).

(** An optional string is truthy when it is present and not empty. *)
Definition truthyOpt (o : option string) : bool :=
  match o with Some s => truthy s | None => false end.

Fixpoint trimStart (s : string) : string :=
  match s with
  | EmptyString => EmptyString
  | String c rest => if isWhiteSpace c then trimStart rest else s
  end.

Fixpoint trimEnd (s : string) : string :=
  match s with
  | EmptyString => EmptyString
  | String c rest =>
      let rest' := trimEnd rest in
      if (isWhiteSpace c && isEmpty rest')%bool then EmptyString
      else String c rest'
  end.

Definition trim (s : string) : string := trimEnd (trimStart s).

(** [s.replace(/[^a-zA-Z0-9_]/g, "")]. *)
Fixpoint keepIdentChars (s : string) : string :=
  match s with
  | EmptyString => EmptyString
  | String c rest =>
      if isIdentChar c then String c (keepIdentChars rest)
      else keepIdentChars rest
  end.

(** [Array.prototype.join]. *)
Definition join (sep : string) (parts : list string) : string :=
  String.concat sep parts.

(** The longest prefix made of identifier characters. *)
Fixpoint takeIdent (s : string) : string :=
  match s with
  | EmptyString => EmptyString
  | String c rest =>
      if isIdentChar c then String c (takeIdent rest) else EmptyString
  end.

Definition startsIdent (s : string) : bool :=
  match s with
  | EmptyString => false
  | String c _ => isIdentStart c
  end.

(** A text is cut by a global [replace] into the matches of the regular
    expression and the characters between them. *)
Inductive Piece : Type :=
  | Lit (c : ascii)
  | Tok (name : string).

(** The matches of the global regular expression made of the sigil, one
    character of [[a-zA-Z_]] and the longest run of [[a-zA-Z0-9_]], leftmost
    first: at a position outside a match, the sigil followed by an
    identifier start opens a match that takes every identifier character
    after it ([skip] counts the characters of the current match still to
    pass). *)
Fixpoint scanTokens (sigil : ascii) (skip : nat) (s : string) : list Piece :=
  match s with
  | EmptyString => []
  | String c rest =>
      match skip with
      | S k => scanTokens sigil k rest
      | O =>
          if ((c =? sigil)%char && startsIdent rest)%bool
          then Tok (takeIdent rest)
                 :: scanTokens sigil (String.length (takeIdent rest)) rest
          else Lit c :: scanTokens sigil 0 rest
      end
  end.

Definition toUpper (c : ascii) : ascii :=
  if isLower c then ascii_of_N (N_of_ascii c - 32) else c.

(** [pat] (given in upper case) matches at the start of [s], letter case
    ignored: the [i] flag on ASCII letters. *)
Fixpoint matchesIgnoreCase (pat s : string) : bool :=
  match pat, s with
  | EmptyString, _ => true
  | String _ _, EmptyString => false
  | String p pat', String c s' =>
      ((toUpper c =? p)%char && matchesIgnoreCase pat' s')%bool
  end.

Definition prefix (n : nat) (s : string) : string := String.substring 0 n s.

(** Values of type [unknown]: the cases a parameter list is made of, and
    the members a plain object inherits from [Object.prototype]. *)
Inductive JSValue : Type :=
  | VUndefined
  | VNull
  | VBool (b : bool)
  | VNumber (n : JSNumber.t)
  | VString (s : string)
  | VInherited (property : string).

(** The property names of [Object.prototype]. *)
Definition objectPrototype : list string :=
  [ "constructor"; "__defineGetter__"; "__defineSetter__"; "hasOwnProperty";
    "__lookupGetter__"; "__lookupSetter__"; "isPrototypeOf";
    "propertyIsEnumerable"; "toString"; "valueOf"; "__proto__";
    "toLocaleString" ].

Definition inherited (name : string) : bool :=
  existsb (String.eqb name) objectPrototype.

(** [name in obj] for a plain object with own properties [obj]. *)
Definition hasProperty (name : string) (obj : gmap string JSValue) : bool :=
  match obj !! name with
  | Some _ => true
  | None => inherited name
  end.

(** [obj[name]] for a plain object with own properties [obj]. *)
Definition getProperty (name : string) (obj : gmap string JSValue) : JSValue :=
  match obj !! name with
  | Some v => v
  | None => if inherited name then VInherited name else VUndefined
  end.

(** *** Objects with ordered keys *)

(** A key is an array index when it is the canonical decimal form of an
    integer below 2^32 - 1; such keys are enumerated first, in ascending
    order, and the other keys after them in insertion order. *)
Definition arrayIndex (k : string) : option N :=
  match NilZero.uint_of_string k with
  | Some u =>
      let n := N.of_uint u in
      if ((NilZero.string_of_uint (N.to_uint n) =? k)%string
          && (n <? 4294967295)%N)%bool
      then Some n else None
  | None => None
  end.

Definition hasKey {V} (k : string) (o : list (string * V)) : bool :=
  existsb (fun e => (fst e =? k)%string) o.

Fixpoint replaceValue {V} (k : string) (v : V) (o : list (string * V))
  : list (string * V) :=
  match o with
  | [] => []
  | (k', v') :: rest =>
      if (k' =? k)%string then (k', v) :: rest
      else (k', v') :: replaceValue k v rest
  end.

Fixpoint insertIndex {V} (n : N) (k : string) (v : V) (o : list (string * V))
  : list (string * V) :=
  match o with
  | [] => [(k, v)]
  | (k', v') :: rest =>
      match arrayIndex k' with
      | Some n' =>
          if (n' <? n)%N then (k', v') :: insertIndex n k v rest
          else (k, v) :: o
      | None => (k, v) :: o
      end
  end.

(** [o[k] = v] on an ordinary object: an existing key keeps its place and
    takes the new value, a new key is placed by the enumeration order. *)
Definition setProperty {V} (o : list (string * V)) (e : string * V)
  : list (string * V) :=
  let (k, v) := e in
  if hasKey k o then replaceValue k v o
  else match arrayIndex k with
       | Some n => insertIndex n k v o
       | None => o ++ [(k, v)]
       end.

(** The object literal [{ ...a, ...b }]. *)
Definition spread {V} (a b : list (string * V)) : list (string * V) :=
  fold_left setProperty (a ++ b) [].

End JS.

Import JS.

(** ** Outcomes *)

(** The exceptions: the two classes the sources throw, and the
    [RangeError] of the engine when the call stack is full. *)
Inductive Exn : Type :=
  | SQLBuildError (message : string)
  | Error (message : string)
  | RangeError (message : string).

(** [error.message]. *)
Definition message (error : Exn) : string :=
  match error with
  | SQLBuildError m | Error m | RangeError m => m
  end.

Inductive Result (A : Type) : Type :=
  | Ok (a : A)
  | Throw (e : Exn).
Arguments Ok {A} a.
Arguments Throw {A} e.

(** The [catch (error)] block of [buildComplexSQL]: every exception is an
    instance of [Error], so that the message of the wrapped one is kept. *)
Definition catchBlock {A} (attempt : Result A) : Result A :=
  match attempt with
  | Ok a => Ok a
  | Throw (SQLBuildError m) => Throw (SQLBuildError m)
  | Throw error =>
      Throw (SQLBuildError ("Failed to build SQL query: " +:+ message error))
  end.

(** A loop that pushes the elements of [f x] for each [x] in turn, and
    [flatMap]: the first call that throws ends it. *)
Fixpoint flatMapResult {A B} (f : A -> Result (list B)) (xs : list A)
  : Result (list B) :=
  match xs with
  | [] => Ok []
  | x :: rest =>
      match f x with
      | Throw e => Throw e
      | Ok ys =>
          match flatMapResult f rest with
          | Throw e => Throw e
          | Ok zs => Ok (ys ++ zs)
          end
      end
  end.

(** ** Data model *)

Definition Fields : Type := list (string * string).

Module View.
(** A reference to a view object. *)
Definition Ref : Type := nat.

(** [SQLQueryView]: a named fragment and the views it depends on. *)
Record SQLQueryView : Type :=
  mk { name : string;
       query : string;
       dependsOn : option (list (string * Ref)) }.
End View.
Abbreviation SQLQueryView := View.SQLQueryView.

(** The view objects of the heap. *)
Definition Heap : Type := View.Ref -> SQLQueryView.

Module Sub.
(** [WithSubquerySQL]. *)
Record WithSubquerySQL : Type :=
  mk { name : string;
       alias : string;
       query : string;
       params : option (gmap string JSValue);
       joinType : string;
       joinOn : string;
       fields : Fields;
       dependsOn : option (list (string * View.Ref)) }.
End Sub.
Abbreviation WithSubquerySQL := Sub.WithSubquerySQL.

Module Query.
(** [SQLQuery]; the field [where] is [where_]. *)
Record SQLQuery : Type :=
  mk { sourceTable : option string;
       sourceQuery : option string;
       alias : string;
       fields : Fields;
       where_ : option string;
       withSubqueries : option (list WithSubquerySQL) }.
End Query.
Abbreviation SQLQuery := Query.SQLQuery.

Module Opt.
(** [BuildComplexSQLParams]; the field [where] is [where_]. *)
Record BuildComplexSQLParams : Type :=
  mk { where_ : option string;
       params : option (gmap string JSValue);
       page : option JSNumber.t;
       page_size : option JSNumber.t;
       order_by : option (list string) }.
End Opt.
Abbreviation BuildComplexSQLParams := Opt.BuildComplexSQLParams.

Module Built.
(** The value of [buildComplexSQL]. *)
Record t : Type :=
  mk { query : string;
       params : list JSValue }.
End Built.

(** [options?.f]: the field of an optional [options]. *)
Definition optField {A} (f : BuildComplexSQLParams -> option A)
    (options : option BuildComplexSQLParams) : option A :=
  match options with
  | Some o => f o
  | None => None
  end.

(** ** The substitution passes *)

(** State of the two [replace] callbacks of [buildComplexSQL]: the array
    [paramsOut] and the set [seenParams]. *)
Record SubstState : Type :=
  { paramsOut : list JSValue;
    seenParams : gset string }.

(** A callback reads and updates the state, and may throw. *)
Definition Subst (A : Type) : Type := SubstState -> Result (A * SubstState).

Definition ret {A} (a : A) : Subst A := fun st => Ok (a, st).

Definition bind {A B} (m : Subst A) (k : A -> Subst B) : Subst B :=
  fun st =>
    match m st with
    | Ok (a, st') => k a st'
    | Throw e => Throw e
    end.

Definition throw {A} (e : Exn) : Subst A := fun _ => Throw e.

Definition push (v : JSValue) : Subst unit :=
  fun st => Ok (tt, {| paramsOut := paramsOut st ++ [v];
                       seenParams := seenParams st |}).

Definition markSeen (name : string) : Subst unit :=
  fun st => Ok (tt, {| paramsOut := paramsOut st;
                       seenParams := {[ name ]} ∪ seenParams st |}).

Definition wasSeen (name : string) : Subst bool :=
  fun st => Ok (bool_decide (name ∈ seenParams st), st).

Declare Scope subst_scope.
Delimit Scope subst_scope with subst.
Notation "'let*' x := m 'in' k" := (bind m (fun x => k))
  (at level 10, x name, m at level 100, k at level 200) : subst_scope.
Open Scope subst_scope.

(** The callback is run on the matches from left to right; what it returns
    takes the place of the match. *)
Fixpoint replacePieces (callback : string -> Subst string) (ps : list Piece)
  : Subst string :=
  match ps with
  | [] => ret EmptyString
  | Lit c :: rest =>
      let* out := replacePieces callback rest in
      ret (String c out)
  | Tok name :: rest =>
      let* r := callback name in
      let* out := replacePieces callback rest in
      ret (r +:+ out)
  end.

(** [text.replace(re, callback)] for the global regular expression [re] of
    [scanTokens]. *)
Definition replaceTokens (sigil : ascii) (callback : string -> Subst string)
    (text : string) : Subst string :=
  replacePieces callback (scanTokens sigil 0 text).

(** The callback of [orderByCondition.replace(/(ASC|DESC)/gi, ...)]. *)
Definition flipDirection (val : string) : string :=
  if (val =? "ASC")%string then "DESC"
  else if (val =? "DESC")%string then "ASC"
  else val.

(** [orderByCondition.replace(/(ASC|DESC)/gi, ...)]: at a position outside
    a match the alternatives are tried in order, letter case ignored. *)
Fixpoint flipScan (skip : nat) (s : string) : string :=
  match s with
  | EmptyString => EmptyString
  | String c rest =>
      match skip with
      | S k => flipScan k rest
      | O =>
          if matchesIgnoreCase "ASC" s
          then flipDirection (prefix 3 s) +:+ flipScan 2 rest
          else if matchesIgnoreCase "DESC" s
          then flipDirection (prefix 4 s) +:+ flipScan 3 rest
          else String c (flipScan 0 rest)
      end
  end.

Definition reverseOrder (orderByCondition : string) : string :=
  flipScan 0 orderByCondition.

(** The callback of the [$name] pass. *)
Definition macroCallback (orderByCondition : option string)
    (paramName : string) : Subst string :=
  if (paramName =? "order_by")%string then
    match orderByCondition with
    | Some ob =>
        if truthy ob then ret ob
        else throw (SQLBuildError "Missing order_by")
    | None => throw (SQLBuildError "Missing order_by")
    end
  else if (paramName =? "rev_order_by")%string then
    match orderByCondition with
    | Some ob =>
        if truthy ob then ret (reverseOrder ob)
        else throw (SQLBuildError "Missing order_by")
    | None => throw (SQLBuildError "Missing order_by")
    end
  else ret "".

(** The callback of the [?name] pass. *)
Definition placeholderCallback (params : gmap string JSValue)
    (paramName : string) : Subst string :=
  if negb (hasProperty paramName params) then
    throw (SQLBuildError ("Missing parameter: " +:+ paramName))
  else
    let* seen := wasSeen paramName in
    if (seen : bool) then
      let* _ := push (getProperty paramName params) in
      ret "?"
    else
      let* _ := markSeen paramName in
      let* _ := push (getProperty paramName params) in
      ret "?".

Definition macroPass (orderByCondition : option string) (text : string)
  : Subst string :=
  replaceTokens "$" (macroCallback orderByCondition) text.

Definition placeholderPass (params : gmap string JSValue) (text : string)
  : Subst string :=
  replaceTokens "?" (placeholderCallback params) text.

(** ** Clause builders shared by the two composers *)

Definition sanitizeIdentifier (identifier : string) : string :=
  keepIdentChars identifier.

Definition fieldColumn (e : string * string) : string :=
  let (field, expr) := e in
  trim expr +:+ " AS " +:+ sanitizeIdentifier field.

Definition subqueryCTE (subquery : WithSubquerySQL) : string :=
  sanitizeIdentifier (Sub.name subquery)
    +:+ " AS (" +:+ trim (Sub.query subquery) +:+ ")".

Definition joinLine (subquery : WithSubquerySQL) : string :=
  Sub.joinType subquery +:+ " " +:+ sanitizeIdentifier (Sub.name subquery)
    +:+ " AS " +:+ sanitizeIdentifier (Sub.alias subquery)
    +:+ " ON " +:+ Sub.joinOn subquery.

Definition buildJoinClauses (subqueries : list WithSubquerySQL) : string :=
  match subqueries with
  | [] => ""
  | _ => join (String "010" "") (map joinLine subqueries)
  end.

(** The loop of [validateInputs] over [query.withSubqueries]. *)
Fixpoint validateSubqueries (subqueries : list WithSubquerySQL) : Result unit :=
  match subqueries with
  | [] => Ok tt
  | subquery :: rest =>
      if (negb (truthy (Sub.name subquery))
          || negb (truthy (Sub.alias subquery))
          || negb (truthy (Sub.query subquery))
          || negb (truthy (Sub.joinType subquery))
          || negb (truthy (Sub.joinOn subquery)))%bool
      then Throw (SQLBuildError
                    "Invalid subquery configuration: missing required fields")
      else if negb (existsb (String.eqb (Sub.joinType subquery))
                      ["JOIN"; "LEFT JOIN"])
      then Throw (SQLBuildError
                    ("Invalid join type: " +:+ Sub.joinType subquery))
      else validateSubqueries rest
  end.

(** The checks after the source check, the same in both validators. *)
Definition validateRest (query : SQLQuery)
    (options : option BuildComplexSQLParams) : Result unit :=
  if (isEmpty (Query.alias query) || false)%bool then
    Throw (SQLBuildError "alias is required and must be a string")
  else if (false || (length (Query.fields query) =? 0)%nat)%bool then
    Throw (SQLBuildError "fields must contain at least one field definition")
  else if match optField Opt.page options with
          | Some page => (false || JSNumber.ltb page (JSNumber.ofZ 0))%bool
          | None => false
          end
  then Throw (SQLBuildError "page must be a positive number")
  else if match optField Opt.page_size options with
          | Some page_size =>
              (false || JSNumber.leb page_size (JSNumber.ofZ 0))%bool
          | None => false
          end
  then Throw (SQLBuildError "page_size must be a positive number")
  else match Query.withSubqueries query with
       | Some subqueries => validateSubqueries subqueries
       | None => Ok tt
       end.

(** [let fromClause] of [buildComplexSQL]. *)
Definition fromClause (query : SQLQuery) : Result string :=
  if truthyOpt (Query.sourceTable query) then
    Ok ("FROM " +:+ sanitizeIdentifier (default "" (Query.sourceTable query))
          +:+ " AS " +:+ sanitizeIdentifier (Query.alias query))
  else if truthyOpt (Query.sourceQuery query) then
    Ok ("FROM (" +:+ default "" (Query.sourceQuery query) +:+ ") AS "
          +:+ sanitizeIdentifier (Query.alias query))
  else Throw (SQLBuildError
                "Either sourceTable or sourceQuery must be provided").

(** [let whereClause] of [buildComplexSQL]. *)
Definition whereClause (query : SQLQuery)
    (options : option BuildComplexSQLParams) : string :=
  if (truthyOpt (Query.where_ query)
      || truthyOpt (optField Opt.where_ options))%bool
  then
    let conditions1 :=
      match Query.where_ query with
      | Some w => if truthy w then ["(" +:+ w +:+ ")"] else []
      | None => []
      end in
    let conditions2 :=
      match optField Opt.where_ options with
      | Some w =>
          if (truthy w && truthy (trim w))%bool then ["(" +:+ w +:+ ")"] else []
      | None => []
      end in
    "WHERE " +:+ join " AND " (conditions1 ++ conditions2)
  else "".

(** [const orderByCondition = options?.order_by?.join(", ")]. *)
Definition orderByCondition (options : option BuildComplexSQLParams)
  : option string :=
  match optField Opt.order_by options with
  | Some terms => Some (join ", " terms)
  | None => None
  end.

Definition orderByClause (options : option BuildComplexSQLParams) : string :=
  match optField Opt.order_by options with
  | Some terms =>
      if (length terms =? 0)%nat then ""
      else "ORDER BY " +:+ join ", " terms
  | None => ""
  end.

Definition limitClause (options : option BuildComplexSQLParams) : string :=
  match optField Opt.page_size options with
  | Some page_size =>
      if JSNumber.truthy page_size
      then "LIMIT " +:+ JSNumber.toString page_size
      else ""
  | None => ""
  end.

Definition offsetClause (options : option BuildComplexSQLParams) : string :=
  match optField Opt.page options, optField Opt.page_size options with
  | Some page, Some page_size =>
      "OFFSET " +:+ JSNumber.toString (JSNumber.mul page page_size)
  | _, _ => ""
  end.

(** [clauses.filter(Boolean).join(" ")]. *)
Definition joinClauses (clauses : list string) : string :=
  join " " (List.filter truthy clauses).

(** The two substitution passes of [if (options?.params) { ... }], run on
    the state of a fresh call. *)
Definition initialState : SubstState :=
  {| paramsOut := []; seenParams := ∅ |}.

Definition finish (run : Subst string) : Result Built.t :=
  match run initialState with
  | Ok (text, st) => Ok (Built.mk text (paramsOut st))
  | Throw e => Throw e
  end.

(** ** The CTE-graph composer *)

Module CteGraph.

Definition validateInputs (query : SQLQuery)
    (options : option BuildComplexSQLParams) : Result unit :=
  if (negb (truthyOpt (Query.sourceQuery query))
      && (negb (truthyOpt (Query.sourceTable query)) || false))%bool
  then Throw (SQLBuildError "sourceTable is required and must be a string")
  else if (negb (truthyOpt (Query.sourceTable query))
           && (negb (truthyOpt (Query.sourceQuery query)) || false))%bool
  then Throw (SQLBuildError "sourceQuery is required and must be a string")
  else validateRest query options.

(** [const depWithClauses]: the [dependsOn] objects of the subqueries,
    spread one after the other into one object. *)
Definition depWithClauses (subqueries : list WithSubquerySQL)
  : list (string * View.Ref) :=
  fold_left
    (fun acc subquery =>
       match Sub.dependsOn subquery with
       | Some dependsOn => spread acc dependsOn
       | None => acc
       end)
    subqueries [].

Definition viewCTE (queryView : SQLQueryView) : string :=
  trim (View.name queryView) +:+ " AS (" +:+ trim (View.query queryView) +:+ ")".

Section Engine.
Variable heap : Heap.

(** [const expandQueryView]: the views a view depends on, each expanded in
    turn, and then the view itself.  Every nested call takes one place of
    the [stack]. *)
Fixpoint expandQueryView (stack : nat) (queryView : View.Ref)
  : Result (list string) :=
  match stack with
  | O => Throw (RangeError "Maximum call stack size exceeded")
  | S below =>
      match flatMapResult (fun entry => expandQueryView below (snd entry))
              (default [] (View.dependsOn (heap queryView)))
      with
      | Throw e => Throw e
      | Ok result => Ok (result ++ [viewCTE (heap queryView)])
      end
  end.

(** The entries of the WITH clause: [[...withClauses, ...secondWithClauses]]. *)
Definition withEntries (stack : nat) (subqueries : list WithSubquerySQL)
  : Result (list string) :=
  match flatMapResult (fun entry => expandQueryView stack (snd entry))
          (depWithClauses subqueries)
  with
  | Throw e => Throw e
  | Ok withClauses => Ok (withClauses ++ map subqueryCTE subqueries)
  end.

Definition buildWithClause (stack : nat) (subqueries : list WithSubquerySQL)
  : Result string :=
  match subqueries with
  | [] => Ok ""
  | _ =>
      match withEntries stack subqueries with
      | Throw e => Throw e
      | Ok entries => Ok ("WITH " +:+ join ", " entries)
      end
  end.

(** [const withClause] of [buildComplexSQL]. *)
Definition withClause (stack : nat) (query : SQLQuery) : Result string :=
  match Query.withSubqueries query with
  | Some subqueries => buildWithClause stack subqueries
  | None => Ok ""
  end.

End Engine.

Definition subqueriesOf (query : SQLQuery) : list WithSubquerySQL :=
  default [] (Query.withSubqueries query).

(** [allFields] before the pagination columns are pushed. *)
Definition projectedFields (query : SQLQuery) : list string :=
  map fieldColumn (Query.fields query)
    ++ flat_map (fun subquery => map fieldColumn (Sub.fields subquery))
         (subqueriesOf query).

(** The condition of [if (options?.order_by && ...)] in
    [buildSelectClause]. *)
Definition wantsPagination (options : option BuildComplexSQLParams) : bool :=
  match optField Opt.order_by options with
  | Some terms =>
      ((1 <? length terms)%nat
       && match optField Opt.page_size options with
          | Some _ => true | None => false end
       && match optField Opt.page options with
          | Some _ => true | None => false end)%bool
  | None => false
  end.

Definition paginationColumns (query : SQLQuery) : list string :=
  [ "COUNT(" +:+ Query.alias query
      +:+ ".id) OVER (ORDER BY $rev_order_by) - 1 AS _sql_util_remaining";
    "COUNT(" +:+ Query.alias query
      +:+ ".id) OVER (ORDER BY $order_by) AS _sql_util_num" ].

Definition selectFields (query : SQLQuery)
    (options : option BuildComplexSQLParams) : list string :=
  if wantsPagination options
  then projectedFields query ++ paginationColumns query
  else projectedFields query.

Definition buildSelectClause (query : SQLQuery)
    (options : option BuildComplexSQLParams) : string :=
  "SELECT " +:+ join ", " (selectFields query options).

(** The clauses of [buildComplexSQL] before [filter(Boolean)]. *)
Definition clauses (withC : string) (query : SQLQuery)
    (options : option BuildComplexSQLParams) (fromC : string) : list string :=
  [ withC;
    buildSelectClause query options;
    fromC;
    match Query.withSubqueries query with
    | Some subqueries => buildJoinClauses subqueries
    | None => ""
    end;
    whereClause query options;
    orderByClause options;
    limitClause options;
    offsetClause options ].

(** [finalQuery] before the parameter substitution. *)
Definition assemble (heap : Heap) (stack : nat) (query : SQLQuery)
    (options : option BuildComplexSQLParams) : Result string :=
  match withClause heap stack query with
  | Throw e => Throw e
  | Ok withC =>
      match fromClause query with
      | Ok fromC => Ok (joinClauses (clauses withC query options fromC))
      | Throw e => Throw e
      end
  end.

(** The two [replace] calls under [if (options?.params)]. *)
Definition substitute (options : option BuildComplexSQLParams)
    (params : gmap string JSValue) (finalQuery : string) : Subst string :=
  let* expanded := macroPass (orderByCondition options) finalQuery in
  placeholderPass params expanded.

(** The [try] block of [buildComplexSQL]. *)
Definition tryBlock (heap : Heap) (stack : nat) (query : SQLQuery)
    (options : option BuildComplexSQLParams) : Result Built.t :=
  match validateInputs query options with
  | Throw e => Throw e
  | Ok _ =>
      match assemble heap stack query options with
      | Throw e => Throw e
      | Ok finalQuery =>
          match optField Opt.params options with
          | Some params =>
              finish (substitute options params finalQuery)
          | None => Ok (Built.mk finalQuery [])
          end
      end
  end.

Definition buildComplexSQL (heap : Heap) (stack : nat) (query : SQLQuery)
    (options : option BuildComplexSQLParams) : Result Built.t :=
  catchBlock (tryBlock heap stack query options).

(** *** [paginateData] *)

(** A row [T & Pagination]: [None] is a window-count field that the row
    does not have. *)
Record Row (T : Type) : Type :=
  { row : T;
    _sql_util_remaining : option JSNumber.t;
    _sql_util_num : option JSNumber.t }.
Arguments row {T} _.
Arguments _sql_util_remaining {T} _.
Arguments _sql_util_num {T} _.

Record Pagination : Type :=
  { page : JSNumber.t;
    limit : JSNumber.t;
    total : JSNumber.t;
    has_more : bool }.

Record Paginated (T : Type) : Type :=
  { data : list (Row T);
    pagination : Pagination }.
Arguments data {T} _.
Arguments pagination {T} _.

Definition paginateData {T} (d : list (Row T)) (page limit : option JSNumber.t)
  : Result (Paginated T) :=
  let page := default (JSNumber.ofZ 0) page in
  let limit := default (JSNumber.ofZ 10) limit in
  match d with
  | [] =>
      Ok {| data := [];
            pagination := {| page := page; limit := limit;
                             total := JSNumber.ofZ 0; has_more := false |} |}
  | first :: _ =>
      match _sql_util_remaining first, _sql_util_num first with
      | Some remaining, Some num =>
          Ok {| data := d;
                pagination :=
                  {| page := page; limit := limit;
                     total := JSNumber.add remaining num;
                     has_more :=
                       match _sql_util_remaining (List.last d first) with
                       | Some r => JSNumber.ltb (JSNumber.ofZ 0) r
                       | None => false
                       end |} |}
      | _, _ =>
          Throw (Error
                   "order_by, page, and page_size are required for pagination")
      end
  end.

End CteGraph.

(** ** The composer of [src/sql.ts] *)

Module SqlTs.

(** [WithSubquerySQL] has no [dependsOn] here: the field is not read. *)

Definition validateInputs (query : SQLQuery)
    (options : option BuildComplexSQLParams) : Result unit :=
  if ((negb (truthyOpt (Query.sourceQuery query)) || false)
      && (negb (truthyOpt (Query.sourceTable query)) || false))%bool
  then
    if negb (truthyOpt (Query.sourceTable query))
    then Throw (SQLBuildError "sourceQuery is required and must be a string")
    else Throw (SQLBuildError "sourceTable is required and must be a string")
  else validateRest query options.

Definition buildWithClause (subqueries : list WithSubquerySQL) : string :=
  match subqueries with
  | [] => ""
  | _ => "WITH " +:+ join ", " (map subqueryCTE subqueries)
  end.

Definition buildSelectClause (query : SQLQuery) : string :=
  "SELECT " +:+ join ", " (CteGraph.projectedFields query).

Definition clauses (query : SQLQuery)
    (options : option BuildComplexSQLParams) (fromC : string) : list string :=
  [ match Query.withSubqueries query with
    | Some subqueries => buildWithClause subqueries
    | None => ""
    end;
    buildSelectClause query;
    fromC;
    match Query.withSubqueries query with
    | Some subqueries => buildJoinClauses subqueries
    | None => ""
    end;
    whereClause query options;
    orderByClause options;
    limitClause options;
    offsetClause options ].

Definition assemble (query : SQLQuery)
    (options : option BuildComplexSQLParams) : Result string :=
  match fromClause query with
  | Ok fromC => Ok (joinClauses (clauses query options fromC))
  | Throw e => Throw e
  end.

(** The [try] block of [buildComplexSQL]. *)
Definition tryBlock (query : SQLQuery)
    (options : option BuildComplexSQLParams) : Result Built.t :=
  match validateInputs query options with
  | Throw e => Throw e
  | Ok _ =>
      match assemble query options with
      | Throw e => Throw e
      | Ok finalQuery =>
          match optField Opt.params options with
          | Some params =>
              finish (placeholderPass params finalQuery)
          | None => Ok (Built.mk finalQuery [])
          end
      end
  end.

Definition buildComplexSQL (query : SQLQuery)
    (options : option BuildComplexSQLParams) : Result Built.t :=
  catchBlock (tryBlock query options).

End SqlTs.
(** * Vocabulary of the properties *)

(** [s] is empty or starts outside an identifier: a match that ends just
    before [s] cannot be extended into it. *)
Definition atBoundary (s : string) : bool :=
  match s with
  | EmptyString => true
  | String c _ => negb (isIdentChar c)
  end.

(** [name] is a match of [[a-zA-Z_][a-zA-Z0-9_]*]. *)
Definition isIdentifier (name : string) : bool :=
  (startsIdent name && (takeIdent name =? name)%string)%bool.

(** No character of [s] is [sigil]. *)
Fixpoint freeOf (sigil : ascii) (s : string) : bool :=
  match s with
  | EmptyString => true
  | String c rest => (negb (c =? sigil)%char && freeOf sigil rest)%bool
  end.

Fixpoint literal (s : string) : list Piece :=
  match s with
  | EmptyString => []
  | String c rest => Lit c :: literal rest
  end.

(** The names of the matches, leftmost first. *)
Fixpoint tokenNames (ps : list Piece) : list string :=
  match ps with
  | [] => []
  | Lit _ :: rest => tokenNames rest
  | Tok name :: rest => name :: tokenNames rest
  end.

(** The names of the [?name] placeholders of a text, in order of
    occurrence. *)
Definition placeholderNames (text : string) : list string :=
  tokenNames (scanTokens "?" 0 text).

Fixpoint positionalPieces (ps : list Piece) : string :=
  match ps with
  | [] => ""
  | Lit c :: rest => String c (positionalPieces rest)
  | Tok _ :: rest => String "?" (positionalPieces rest)
  end.

(** The text with each [?name] placeholder turned into [?]. *)
Definition positional (text : string) : string :=
  positionalPieces (scanTokens "?" 0 text).

(** The text the [$name] pass makes of [text] when the order terms join to
    [ob]. *)
Definition macroText (ob : string) (text : string) : string :=
  match macroPass (Some ob) text initialState with
  | Ok (expanded, _) => expanded
  | Throw _ => ""
  end.

(** The text the [?name] pass of [CteGraph.buildComplexSQL] scans:
    [finalQuery] after the [$name] pass. *)
Definition expandedQuery (heap : Heap) (stack : nat) (query : SQLQuery)
    (options : option BuildComplexSQLParams) : Result string :=
  match CteGraph.assemble heap stack query options with
  | Ok finalQuery =>
      match macroPass (orderByCondition options) finalQuery initialState with
      | Ok (expanded, _) => Ok expanded
      | Throw e => Throw e
      end
  | Throw e => Throw e
  end.

(** [name] is one of the two macros. *)
Definition isMacro (name : string) : bool :=
  ((name =? "order_by") || (name =? "rev_order_by"))%string.

(** *** The validator, as the specification words it *)

Definition sourcePresent (query : SQLQuery) : bool :=
  (truthyOpt (Query.sourceTable query)
   || truthyOpt (Query.sourceQuery query))%bool.

Definition subqueryComplete (subquery : WithSubquerySQL) : bool :=
  (truthy (Sub.name subquery) && truthy (Sub.alias subquery)
   && truthy (Sub.query subquery) && truthy (Sub.joinType subquery)
   && truthy (Sub.joinOn subquery))%bool.

Definition joinKindAllowed (subquery : WithSubquerySQL) : bool :=
  ((Sub.joinType subquery =? "JOIN")
   || (Sub.joinType subquery =? "LEFT JOIN"))%string.

Definition subqueryViolations (subquery : WithSubquerySQL) : list string :=
  (if subqueryComplete subquery then []
   else ["Invalid subquery configuration: missing required fields"])
  ++ (if joinKindAllowed subquery then []
      else ["Invalid join type: " +:+ Sub.joinType subquery]).

(** The violated preconditions after the source check, in the order
    (b) alias, (c) fields, (d) page >= 0, (e) page_size > 0,
    (f) subqueries. *)
Definition laterViolations (query : SQLQuery)
    (options : option BuildComplexSQLParams) : list string :=
  (if truthy (Query.alias query) then []
   else ["alias is required and must be a string"])
  ++ (match Query.fields query with
      | [] => ["fields must contain at least one field definition"]
      | _ :: _ => []
      end)
  ++ (match optField Opt.page options with
      | Some page =>
          if JSNumber.leb (JSNumber.ofZ 0) page then []
          else ["page must be a positive number"]
      | None => []
      end)
  ++ (match optField Opt.page_size options with
      | Some page_size =>
          if JSNumber.ltb (JSNumber.ofZ 0) page_size then []
          else ["page_size must be a positive number"]
      | None => []
      end)
  ++ flat_map subqueryViolations (default [] (Query.withSubqueries query)).

(** A number that is given is not NaN. *)
Definition noNaN (x : option JSNumber.t) : bool :=
  match x with
  | Some n => negb (JSNumber.isNaN n)
  | None => true
  end.

(** Every violated precondition, (a) source presence first. *)
Definition violations (sourceMessage : string) (query : SQLQuery)
    (options : option BuildComplexSQLParams) : list string :=
  (if sourcePresent query then [] else [sourceMessage])
  ++ laterViolations query options.

(** Fail-fast: the first violation is thrown, none means success. *)
Definition firstViolation (found : list string) : Result unit :=
  match found with
  | [] => Ok tt
  | message :: _ => Throw (SQLBuildError message)
  end.

(** *** Pagination, as the specification words it *)

(** The invocation supplies more than one ordering term and both [page] and
    [page_size]. *)
Definition suppliesPagination (options : option BuildComplexSQLParams) : Prop :=
  exists o terms page page_size,
    options = Some o /\ Opt.order_by o = Some terms /\ 1 < length terms
    /\ Opt.page o = Some page /\ Opt.page_size o = Some page_size.

(** *** The parameter list, as the specification words it *)

(** [name] occurs this many times among the placeholders. *)
Definition occurrences (name : string) (names : list string) : nat :=
  length (List.filter (String.eqb name) names).

(** The entries of a parameter list at the positions of the occurrences of
    [name] among the placeholders [names]. *)
Definition entriesFor (name : string) (names : list string)
    (values : list JSValue) : list JSValue :=
  map snd (List.filter (fun e => (name =? fst e)%string) (combine names values)).

(** *** The text after the substitution passes *)

(** [S] separates two parts of a text for both passes: it is not empty,
    starts outside an identifier and has neither [$] nor [?]. *)
Definition isSeparator (S : string) : bool :=
  (negb (isEmpty S) && atBoundary S && freeOf "$" S && freeOf "?" S)%bool.

(** What [CteGraph.buildComplexSQL] does to [finalQuery] after it is
    assembled. *)
Definition graphPass (options : option BuildComplexSQLParams)
  : string -> Subst string :=
  match optField Opt.params options with
  | Some params => CteGraph.substitute options params
  | None => ret
  end.

(** What [SqlTs.buildComplexSQL] does to [finalQuery] after it is
    assembled. *)
Definition sqltsPass (options : option BuildComplexSQLParams)
  : string -> Subst string :=
  match optField Opt.params options with
  | Some params => placeholderPass params
  | None => ret
  end.

(** The clauses after the WHERE clause, as they stand in the text after
    it. *)
Definition trailingText (options : option BuildComplexSQLParams) : string :=
  match List.filter truthy
          [orderByClause options; limitClause options; offsetClause options]
  with
  | [] => ""
  | trailing => " " +:+ join " " trailing
  end.

(** Every character of [s] is white space. *)
Fixpoint onlyWhiteSpace (s : string) : bool :=
  match s with
  | EmptyString => true
  | String c rest => (isWhiteSpace c && onlyWhiteSpace rest)%bool
  end.

(** The LIMIT and OFFSET clauses as they stand at the end of the text, for
    a page size [page_size]: with a page the two clauses, without one the
    LIMIT clause alone. *)
Definition limitOffsetText (o : BuildComplexSQLParams)
    (page_size : JSNumber.t) : string :=
  match Opt.page o with
  | Some page =>
      " LIMIT " +:+ JSNumber.toString page_size
        +:+ " OFFSET " +:+ JSNumber.toString (JSNumber.mul page page_size)
  | None => " LIMIT " +:+ JSNumber.toString page_size
  end.

(** *** The WITH clause, view by view *)

(** The views a view depends on. *)
Definition dependencies (heap : Heap) (v : View.Ref)
  : list (string * View.Ref) :=
  default [] (View.dependsOn (heap v)).

(** The expansion of [v] fits in [stack] nested calls: the views below [v]
    are no more than [stack] deep. *)
Fixpoint fits (heap : Heap) (stack : nat) (v : View.Ref) : bool :=
  match stack with
  | O => false
  | S below =>
      forallb (fun entry => fits heap below (snd entry)) (dependencies heap v)
  end.

(** The views [expandQueryView] emits, in the order it emits them, when
    the expansion fits. *)
Fixpoint expandViews (heap : Heap) (stack : nat) (v : View.Ref)
  : list View.Ref :=
  match stack with
  | O => []
  | S below =>
      flat_map (fun entry => expandViews heap below (snd entry))
        (dependencies heap v) ++ [v]
  end.

(** The expansion of every merged dependency fits in [stack] nested
    calls. *)
Definition allFit (heap : Heap) (stack : nat)
    (subqueries : list WithSubquerySQL) : bool :=
  forallb (fun entry => fits heap stack (snd entry))
    (CteGraph.depWithClauses subqueries).

(** The dependency views the WITH clause emits, in order. *)
Definition emittedViews (heap : Heap) (stack : nat)
    (subqueries : list WithSubquerySQL) : list View.Ref :=
  flat_map (fun entry => expandViews heap stack (snd entry))
    (CteGraph.depWithClauses subqueries).

(** The name a view is emitted under. *)
Definition emittedName (queryView : SQLQueryView) : string :=
  trim (View.name queryView).

(** The entries of all the [dependsOn] objects, in declaration order. *)
Definition declaredEntries (subqueries : list WithSubquerySQL)
  : list (string * View.Ref) :=
  flat_map (fun subquery => default [] (Sub.dependsOn subquery)) subqueries.

Definition isNamedKey (k : string) : bool :=
  match arrayIndex k with Some _ => false | None => true end.

(** First-seen-wins: a key takes the place of its first occurrence. *)
Definition addFirstSeen (seen : list string) (k : string) : list string :=
  if existsb (String.eqb k) seen then seen else seen ++ [k].

Definition firstSeen (keys : list string) : list string :=
  fold_left addFirstSeen keys [].

(** The value under key [k] in an object. *)
Definition lookupKey {V} (k : string) (o : list (string * V)) : option V :=
  option_map snd (List.find (fun e => (fst e =? k)%string) o).

(** The keys of an object that are not array indices, in order. *)
Definition namedKeys {V} (o : list (string * V)) : list string :=
  List.filter isNamedKey (map fst o).

(** One step of the [reduce] of [depWithClauses]. *)
Definition mergeDependsOn (acc : list (string * View.Ref))
    (subquery : WithSubquerySQL) : list (string * View.Ref) :=
  match Sub.dependsOn subquery with
  | Some dependsOn => spread acc dependsOn
  | None => acc
  end.

(** * Vocabulary of the further properties *)

(** Every character of [s] is in [[a-zA-Z0-9_]]. *)
Fixpoint allIdentChars (s : string) : bool :=
  match s with
  | EmptyString => true
  | String c rest => (isIdentChar c && allIdentChars rest)%bool
  end.

(** [ASC] or [DESC] occurs in [s], letter case ignored. *)
Fixpoint hasDirection (s : string) : bool :=
  match s with
  | EmptyString => false
  | String _ rest =>
      (matchesIgnoreCase "ASC" s || matchesIgnoreCase "DESC" s
       || hasDirection rest)%bool
  end.

(** [word] stands at the start of [s], letter for letter. *)
Fixpoint startsWith (word s : string) : bool :=
  match word, s with
  | EmptyString, _ => true
  | String _ _, EmptyString => false
  | String a word', String b s' => ((b =? a)%char && startsWith word' s')%bool
  end.

(** [ASC] or [DESC] occurs in [s], in upper case. *)
Fixpoint hasUpperDirection (s : string) : bool :=
  match s with
  | EmptyString => false
  | String _ rest =>
      (startsWith "ASC" s || startsWith "DESC" s || hasUpperDirection rest)%bool
  end.

(** An order term of the type of [order_by]: an expression, a space and a
    direction. *)
Definition orderTerm (term : string * bool) : string :=
  fst term +:+ " " +:+ (if snd term then "DESC" else "ASC").

Definition flipTerm (term : string * bool) : string * bool :=
  (fst term, negb (snd term)).

(** No subquery declares a dependency. *)
Definition noDependsOn (subqueries : list WithSubquerySQL) : bool :=
  forallb (fun subquery =>
             match Sub.dependsOn subquery with
             | Some (_ :: _) => false
             | _ => true
             end) subqueries.

(** The WHERE clause as it stands in the assembled text. *)
Definition whereText (query : SQLQuery)
    (options : option BuildComplexSQLParams) : string :=
  if truthy (whereClause query options)
  then " " +:+ whereClause query options
  else "".

(** The request has no named-parameter object, or the text [src/sql.ts]
    assembles for it has no [$]. *)
Definition macroFree (query : SQLQuery)
    (options : option BuildComplexSQLParams) : bool :=
  match optField Opt.params options, SqlTs.assemble query options with
  | Some _, Ok text => freeOf "$" text
  | _, _ => true
  end.

(** [Reaches heap v w]: [w] is [v] or a view [v] depends on, directly or
    through other views. *)
Inductive Reaches (heap : Heap) : View.Ref -> View.Ref -> Prop :=
  | reaches_self v : Reaches heap v v
  | reaches_step v k d w :
      In (k, d) (dependencies heap v) ->
      Reaches heap d w -> Reaches heap v w.

(** [v] depends on itself, directly or through other views. *)
Definition OnCycle (heap : Heap) (v : View.Ref) : Prop :=
  exists k d, In (k, d) (dependencies heap v) /\ Reaches heap d v.

(** A result is a value or a [SQLBuildError]: what the [catch] block leaves
    as it is. *)
Definition buildErrorsOnly {A} (r : Result A) : Prop :=
  match r with
  | Ok _ | Throw (SQLBuildError _) => True
  | Throw _ => False
  end.

(** The message of the error that wraps the [RangeError] of a full call
    stack. *)
Definition stackOverflow : Exn :=
  SQLBuildError "Failed to build SQL query: Maximum call stack size exceeded".

(** * Example requests *)

Module Examples.

Definition users : SQLQuery :=
  Query.mk (Some "users") None "u" [("id", "u.id"); ("name", "u.name")]
    None None.

(** A query whose field ranks the rows by the reversed order. *)
Definition rankedUsers : SQLQuery :=
  Query.mk (Some "users") None "u"
    [("id", "u.id"); ("rank", "ROW_NUMBER() OVER (ORDER BY $rev_order_by)")]
    None None.

Definition noOptions : BuildComplexSQLParams :=
  Opt.mk None None None None None.

(** [{ order_by: ["created_at DESC"], params: {} }]. *)
Definition newestFirst : BuildComplexSQLParams :=
  Opt.mk None (Some ∅) None None (Some ["created_at DESC"]).

(** Two order terms, page 2 of size 10, and no [params]. *)
Definition pagedWithoutParams : BuildComplexSQLParams :=
  Opt.mk None None (Some (JSNumber.ofZ 2)) (Some (JSNumber.ofZ 10))
    (Some ["created_at DESC"; "id ASC"]).

(** The same with [params: { user_id: 1 }] and a filter that names it
    twice. *)
Definition pagedWithParams : BuildComplexSQLParams :=
  Opt.mk (Some "u.id = ?user_id OR u.parent = ?user_id")
    (Some (<["user_id" := VNumber (JSNumber.ofZ 1)]> ∅)) (Some (JSNumber.ofZ 2)) (Some (JSNumber.ofZ 10))
    (Some ["created_at DESC"; "id ASC"]).

(** [{ page_size: 10 }]. *)
Definition firstTen : BuildComplexSQLParams :=
  Opt.mk None None None (Some (JSNumber.ofZ 10)) None.

(** A filter with a macro, no order terms and no [params]. *)
Definition macroWithoutParams : BuildComplexSQLParams :=
  Opt.mk (Some "u.rank <= $order_by") None None None None.

(** A placeholder that is not in [params: {}], in a request whose filter
    also has the macro [$order_by] and no order terms. *)
Definition missingBoth : BuildComplexSQLParams :=
  Opt.mk (Some "u.id = ?user_id AND u.rank <= $order_by") (Some ∅)
    None None None.

(** [params: { user_id: 1 }] and a filter that also names [org]. *)
Definition missingOrg : BuildComplexSQLParams :=
  Opt.mk (Some "u.id = ?user_id AND u.org = ?org")
    (Some (<["user_id" := VNumber (JSNumber.ofZ 1)]> ∅)) None None None.

(** Two placeholders that are not in [params: {}]. *)
Definition missingTwo : BuildComplexSQLParams :=
  Opt.mk (Some "u.id = ?user_id AND u.org = ?org") (Some ∅) None None None.

(** A placeholder named like a member of [Object.prototype]. *)
Definition inheritedName : BuildComplexSQLParams :=
  Opt.mk (Some "u.id = ?constructor") (Some ∅) None None None.

(** An order term with a placeholder, in a paginated request: the macros
    carry the placeholder into the SELECT clause. *)
Definition pinnedFirst : BuildComplexSQLParams :=
  Opt.mk None (Some (<["pin" := VNumber (JSNumber.ofZ 5)]> ∅)) (Some (JSNumber.ofZ 0)) (Some (JSNumber.ofZ 10))
    (Some ["CASE WHEN u.id = ?pin THEN 0 ELSE 1 END ASC"; "id ASC"]).

(** A [$tenant] token next to a placeholder. *)
Definition otherToken : BuildComplexSQLParams :=
  Opt.mk (Some "u.org = $tenant AND u.id = ?id")
    (Some (<["id" := VNumber (JSNumber.ofZ 7)]> ∅)) None None None.

(** A filter made of one space. *)
Definition blankFilter : BuildComplexSQLParams :=
  Opt.mk (Some " ") None None None None.

(** A heap of two views: A, at reference 0, depends on B, which is every
    other object of the heap. *)
Definition viewB : SQLQueryView := View.mk "B" "SELECT 2" None.

Definition viewA : SQLQueryView :=
  View.mk "A" "SELECT 1 FROM B" (Some [("B", 1)]).

Definition views : Heap :=
  fun ref => match ref with 0 => viewA | _ => viewB end.

(** A component that depends on A, which depends on B. *)
Definition onA : WithSubquerySQL :=
  Sub.mk "c1" "x" "SELECT * FROM A" None "JOIN" "x.id = u.id"
    [("n", "x.n")] (Some [("A", 0)]).

(** A component that depends on B directly. *)
Definition onB : WithSubquerySQL :=
  Sub.mk "c2" "y" "SELECT * FROM B" None "LEFT JOIN" "y.id = u.id"
    [("m", "y.m")] (Some [("B", 1)]).

(** The query with the two components. *)
Definition usersWithViews : SQLQuery :=
  Query.mk (Some "users") None "u" [("id", "u.id")] None (Some [onA; onB]).

(** [{ page: 2, page_size: NaN }]. *)
Definition sizeNaN : BuildComplexSQLParams :=
  Opt.mk None None (Some (JSNumber.ofZ 2)) (Some JSNumber.NaN) None.

(** [{ page: NaN }]. *)
Definition pageNaN : BuildComplexSQLParams :=
  Opt.mk None None (Some JSNumber.NaN) None None.

Definition pagedRows : list (CteGraph.Row string) :=
  [ {| CteGraph.row := "Alice"; CteGraph._sql_util_remaining := Some (JSNumber.ofZ 2);
       CteGraph._sql_util_num := Some (JSNumber.ofZ 1) |};
    {| CteGraph.row := "Bob"; CteGraph._sql_util_remaining := Some (JSNumber.ofZ 1);
       CteGraph._sql_util_num := Some (JSNumber.ofZ 2) |} ].

End Examples.

(** * Further example requests *)

Module MoreExamples.

(** A subquery with no dependency. *)
Definition tags : WithSubquerySQL :=
  Sub.mk "user_tags" "ut" " SELECT user_id, name FROM tags " None "LEFT JOIN"
    "u.id = ut.user_id" [("tag_names", "ut.name")] None.

(** A query with a filter of its own and a subquery. *)
Definition activeUsers : SQLQuery :=
  Query.mk (Some "users") None "u" [("id", "u.id"); ("name", "u.name")]
    (Some "u.active = 1") (Some [tags]).

(** One order term, ten rows and a filter on [?user_id]. *)
Definition byId : BuildComplexSQLParams :=
  Opt.mk (Some "u.id = ?user_id") (Some (<["user_id" := VNumber (JSNumber.ofZ 1)]> ∅))
    None (Some (JSNumber.ofZ 10)) (Some ["created_at DESC"]).

(** A heap in which every object is one view that depends on itself:
    [const v = { name: "L", query: "SELECT 1 FROM L" }] and then
    [v.dependsOn = { L: v }]. *)
Definition loop : Heap :=
  fun _ => View.mk "L" "SELECT 1 FROM L" (Some [("L", 0)]).

(** A component that depends on that view. *)
Definition onLoop : WithSubquerySQL :=
  Sub.mk "c" "x" "SELECT * FROM L" None "JOIN" "x.id = u.id"
    [("n", "x.n")] (Some [("L", 0)]).

Definition usersWithLoop : SQLQuery :=
  Query.mk (Some "users") None "u" [("id", "u.id")] None (Some [onLoop]).

(** A page past the safe integers: [3 * 3002399751580331] is not a
    binary64 value. *)
Definition farPage : BuildComplexSQLParams :=
  Opt.mk None None (Some (JSNumber.ofZ 3))
    (Some (JSNumber.ofZ 3002399751580331)) None.

(** [{ page: 1, page_size: 0.5 }]. *)
Definition halfPage : BuildComplexSQLParams :=
  Opt.mk None None (Some (JSNumber.ofZ 1))
    (Some (S754_finite false 4503599627370496 (-53))) None.

(** A query without alias and without fields. *)
Definition noAlias : SQLQuery :=
  Query.mk (Some "users") None "" [] None None.

(** [{ page: -1, page_size: 0 }]. *)
Definition badPage : BuildComplexSQLParams :=
  Opt.mk None None (Some (JSNumber.ofZ (-1))) (Some (JSNumber.ofZ 0)) None.

(** Rows of which only the first has the window counts. *)
Definition raggedRows : list (CteGraph.Row string) :=
  [ {| CteGraph.row := "Alice"; CteGraph._sql_util_remaining := Some (JSNumber.ofZ 2);
       CteGraph._sql_util_num := Some (JSNumber.ofZ 1) |};
    {| CteGraph.row := "Bob"; CteGraph._sql_util_remaining := None;
       CteGraph._sql_util_num := None |} ].

End MoreExamples.

(** The output of a composer on a text [x S y] with a separator [S] is the
    output for [x], then [S], then the output for [y]. *)
Definition SplitsAtSeparators (pass : string -> Subst string) : Prop :=
  forall x S y st t st',
    isSeparator S = true ->
    pass (x +:+ S +:+ y) st = Ok (t, st') ->
    exists a b st1,
      pass x st = Ok (a, st1) /\ pass y st1 = Ok (b, st')
      /\ t = a +:+ S +:+ b.

(** When a pass succeeds on the two sides of a separator, one after the
    other, it succeeds on the whole text. *)
Definition JoinsAtSeparators (pass : string -> Subst string) : Prop :=
  forall x S y st a st1 b st2,
    isSeparator S = true ->
    pass x st = Ok (a, st1) -> pass y st1 = Ok (b, st2) ->
    pass (x +:+ S +:+ y) st = Ok (a +:+ S +:+ b, st2).

(** * Properties *)

(** ** The scanner *)

Lemma app_assoc_s (a b c : string) : (a +:+ b) +:+ c = a +:+ (b +:+ c).
Proof. induction a as [|x a IH]; simpl; [done | by rewrite IH]. Qed.

Lemma app_empty_r (a : string) : a +:+ "" = a.
Proof. induction a as [|x a IH]; simpl; [done | by rewrite IH]. Qed.

Lemma identStart_identChar c : isIdentStart c = true -> isIdentChar c = true.
Proof.
  unfold isIdentStart, isIdentChar.
  destruct (isLower c), (isUpper c), (isDigit c); simpl; auto.
Qed.

Lemma takeIdent_boundary y : atBoundary y = true -> takeIdent y = "".
Proof.
  destruct y as [|c y]; simpl; [done|].
  by destruct (isIdentChar c).
Qed.

Lemma takeIdent_app x y :
  atBoundary y = true -> takeIdent (x +:+ y) = takeIdent x.
Proof.
  intros Hy. induction x as [|c x IH]; simpl.
  - by apply takeIdent_boundary.
  - by rewrite IH.
Qed.

Lemma startsIdent_app x y :
  atBoundary y = true -> startsIdent (x +:+ y) = startsIdent x.
Proof.
  intros Hy. destruct x as [|c x]; simpl; [|done].
  destruct y as [|d y]; simpl in *; [done|].
  destruct (isIdentStart d) eqn:E; [|done].
  apply identStart_identChar in E. by rewrite E in Hy.
Qed.

Lemma length_takeIdent s : String.length (takeIdent s) <= String.length s.
Proof.
  induction s as [|c s IH]; simpl; [lia|].
  destruct (isIdentChar c); simpl; lia.
Qed.

(** Cutting a text where no match can straddle the cut. *)
Lemma scanTokens_app sigil x y k :
  atBoundary y = true -> k <= String.length x ->
  scanTokens sigil k (x +:+ y) = scanTokens sigil k x ++ scanTokens sigil 0 y.
Proof.
  intros Hy. revert k. induction x as [|c x IH]; intros k Hk; simpl in *.
  - by replace k with 0 by lia.
  - destruct k as [|k].
    + rewrite startsIdent_app, takeIdent_app by done.
      destruct ((c =? sigil)%char && startsIdent x)%bool; simpl.
      * f_equal. apply IH, length_takeIdent.
      * f_equal. apply IH. lia.
    + apply IH. lia.
Qed.

Lemma scanTokens_skip sigil x y :
  scanTokens sigil (String.length x) (x +:+ y) = scanTokens sigil 0 y.
Proof.
  induction x as [|c x IH]; simpl; [|done].
  by destruct y.
Qed.

Lemma takeIdent_identifier name post :
  isIdentifier name = true -> atBoundary post = true ->
  takeIdent (name +:+ post) = name /\ startsIdent (name +:+ post) = true.
Proof.
  unfold isIdentifier. intros [Hs Ht]%andb_prop Hp.
  apply String.eqb_eq in Ht.
  rewrite takeIdent_app, startsIdent_app by done. by split.
Qed.

(** A token followed by a boundary is one match. *)
Lemma scanTokens_token sigil name post :
  isIdentifier name = true -> atBoundary post = true ->
  scanTokens sigil 0 (String sigil (name +:+ post))
  = Tok name :: scanTokens sigil 0 post.
Proof.
  intros Hn Hp. simpl.
  destruct (takeIdent_identifier name post Hn Hp) as [-> ->].
  rewrite Ascii.eqb_refl. simpl. f_equal. apply scanTokens_skip.
Qed.

(** A text without the sigil has no match. *)
Lemma scanTokens_free sigil s y :
  freeOf sigil s = true ->
  scanTokens sigil 0 (s +:+ y) = literal s ++ scanTokens sigil 0 y.
Proof.
  induction s as [|c s IH]; simpl; [done|].
  intros [Hc Hs]%andb_prop.
  apply negb_true_iff in Hc. rewrite Hc. simpl. f_equal. by apply IH.
Qed.

(** ** The callbacks *)

Lemma replacePieces_app cb p1 p2 st :
  replacePieces cb (p1 ++ p2) st =
  match replacePieces cb p1 st with
  | Ok (a, st1) =>
      match replacePieces cb p2 st1 with
      | Ok (b, st2) => Ok (a +:+ b, st2)
      | Throw e => Throw e
      end
  | Throw e => Throw e
  end.
Proof.
  revert st. induction p1 as [|[c|name] p1 IH]; intros st; simpl.
  - unfold ret. by destruct (replacePieces cb p2 st) as [[b st2]|e].
  - unfold bind, ret. rewrite IH.
    destruct (replacePieces cb p1 st) as [[a st1]|e]; [|done].
    by destruct (replacePieces cb p2 st1) as [[b st2]|e].
  - unfold bind, ret. destruct (cb name st) as [[r st0]|e]; [|done].
    rewrite IH.
    destruct (replacePieces cb p1 st0) as [[a st1]|e]; [|done].
    destruct (replacePieces cb p2 st1) as [[b st2]|e]; [|done].
    by rewrite app_assoc_s.
Qed.

Lemma replacePieces_literal cb s st :
  replacePieces cb (literal s) st = Ok (s, st).
Proof.
  induction s as [|c s IH]; simpl; [done|].
  unfold bind, ret. by rewrite IH.
Qed.

(** The [$name] callback leaves the state alone. *)
Lemma macroCallback_state ob name st r st' :
  macroCallback ob name st = Ok (r, st') -> st' = st.
Proof.
  unfold macroCallback, ret, throw.
  repeat case_match; congruence.
Qed.

Lemma macroCallback_indep ob name st st' :
  macroCallback ob name st' =
  match macroCallback ob name st with
  | Ok (r, _) => Ok (r, st')
  | Throw e => Throw e
  end.
Proof.
  unfold macroCallback, ret, throw.
  repeat case_match; congruence.
Qed.

Lemma macroPieces_indep ob ps st st' :
  replacePieces (macroCallback ob) ps st' =
  match replacePieces (macroCallback ob) ps st with
  | Ok (r, _) => Ok (r, st')
  | Throw e => Throw e
  end.
Proof.
  induction ps as [|[c|name] ps IH]; simpl; [done|..]; unfold bind, ret.
  - rewrite IH. by destruct (replacePieces _ ps st) as [[??]|?].
  - rewrite (macroCallback_indep ob name st st').
    destruct (macroCallback ob name st) as [[r st0]|e] eqn:E; [|done].
    apply macroCallback_state in E as ->.
    rewrite IH. by destruct (replacePieces _ ps st) as [[??]|?].
Qed.

Lemma macroPass_indep ob text st st' :
  macroPass ob text st' =
  match macroPass ob text st with
  | Ok (r, _) => Ok (r, st')
  | Throw e => Throw e
  end.
Proof. apply macroPieces_indep. Qed.

Lemma macroPass_state ob text st r st' :
  macroPass ob text st = Ok (r, st') -> st' = st.
Proof.
  intros H. pose proof (macroPass_indep ob text st st) as E.
  rewrite H in E. congruence.
Qed.

Lemma macroCallback_total ob name :
  truthy ob = true ->
  exists r, forall st, macroCallback (Some ob) name st = Ok (r, st).
Proof.
  intros Hob. unfold macroCallback. rewrite Hob.
  destruct (name =? "order_by")%string;
    [|destruct (name =? "rev_order_by")%string]; by eexists.
Qed.

(** With order terms the [$name] pass cannot throw. *)
Lemma macroPieces_total ob ps st :
  truthy ob = true ->
  exists r, replacePieces (macroCallback (Some ob)) ps st = Ok (r, st).
Proof.
  intros Hob. induction ps as [|[c|name] ps [r IH]]; simpl.
  - by eexists.
  - unfold bind, ret. rewrite IH. by eexists.
  - destruct (macroCallback_total ob name Hob) as [v Hv].
    unfold bind, ret. rewrite Hv, IH. by eexists.
Qed.

Lemma macroPass_macroText ob text st :
  truthy ob = true ->
  macroPass (Some ob) text st = Ok (macroText ob text, st).
Proof.
  intros Hob. unfold macroText.
  destruct (macroPieces_total ob (scanTokens "$" 0 text) initialState Hob)
    as [r Hr].
  unfold macroPass, replaceTokens in *. rewrite Hr.
  rewrite (macroPieces_indep _ _ initialState st). by rewrite Hr.
Qed.

(** The [$name] pass works through a text part by part, wherever the cut
    is at a boundary. *)
Lemma macroPass_app ob x y st :
  atBoundary y = true ->
  macroPass ob (x +:+ y) st =
  (let* a := macroPass ob x in
   let* b := macroPass ob y in
   ret (a +:+ b)) st.
Proof.
  intros Hy. unfold macroPass, replaceTokens, bind, ret.
  rewrite scanTokens_app by (done || lia).
  rewrite replacePieces_app.
  destruct (replacePieces _ (scanTokens "$" 0 x) st) as [[a st1]|e]; [|done].
  by destruct (replacePieces _ (scanTokens "$" 0 y) st1) as [[b st2]|e].
Qed.

Lemma macroPass_token ob name post st :
  isIdentifier name = true -> atBoundary post = true ->
  macroPass ob (String "$" (name +:+ post)) st =
  (let* r := macroCallback ob name in
   let* out := macroPass ob post in
   ret (r +:+ out)) st.
Proof.
  intros Hn Hp. unfold macroPass, replaceTokens.
  by rewrite scanTokens_token.
Qed.

Lemma macroText_app ob x y :
  truthy ob = true -> atBoundary y = true ->
  macroText ob (x +:+ y) = macroText ob x +:+ macroText ob y.
Proof.
  intros Hob Hy.
  pose proof (macroPass_macroText ob (x +:+ y) initialState Hob) as H.
  rewrite macroPass_app in H by done. unfold bind, ret in H.
  rewrite !macroPass_macroText in H by done. congruence.
Qed.

Lemma macroText_token ob name post r :
  truthy ob = true ->
  isIdentifier name = true -> atBoundary post = true ->
  (forall st, macroCallback (Some ob) name st = Ok (r, st)) ->
  macroText ob (String "$" (name +:+ post)) = r +:+ macroText ob post.
Proof.
  intros Hob Hn Hp Hr.
  pose proof (macroPass_macroText ob (String "$" (name +:+ post))
                initialState Hob) as H.
  rewrite macroPass_token in H by done. unfold bind, ret in H.
  rewrite Hr, macroPass_macroText in H by done. congruence.
Qed.

(** Without order terms the [$name] pass either leaves the state alone or
    throws its one error. *)
Lemma macroPieces_falsy ob ps st :
  truthyOpt ob = false ->
  (exists r, replacePieces (macroCallback ob) ps st = Ok (r, st))
  \/ replacePieces (macroCallback ob) ps st
     = Throw (SQLBuildError "Missing order_by").
Proof.
  intros Hob. induction ps as [|[c|name] ps IH]; simpl.
  - left. by eexists.
  - unfold bind, ret. destruct IH as [[r ->]| ->]; [left; by eexists | by right].
  - unfold bind.
    destruct (macroCallback ob name st) as [[v st0]|e] eqn:E.
    + apply macroCallback_state in E as ->.
      unfold ret. destruct IH as [[r ->]| ->]; [left; by eexists | by right].
    + right. revert E. unfold macroCallback, ret, throw.
      destruct ob as [ob|]; simpl in Hob; [rewrite Hob|];
        repeat case_match; congruence.
Qed.

Lemma macroCallback_missing ob name st :
  truthyOpt ob = false -> isMacro name = true ->
  macroCallback ob name st = Throw (SQLBuildError "Missing order_by").
Proof.
  intros Hob Hn. unfold macroCallback, isMacro, throw in *.
  destruct ob as [ob|]; simpl in Hob; [rewrite Hob|];
    destruct (name =? "order_by")%string; [done| |done|];
    simpl in Hn; by rewrite Hn.
Qed.

Lemma macroPass_missing ob pre name post st :
  truthyOpt ob = false -> isMacro name = true ->
  isIdentifier name = true -> atBoundary post = true ->
  macroPass ob (pre +:+ String "$" (name +:+ post)) st
  = Throw (SQLBuildError "Missing order_by").
Proof.
  intros Hob Hm Hn Hp.
  rewrite macroPass_app by done. unfold bind.
  destruct (macroPieces_falsy ob (scanTokens "$" 0 pre) st Hob)
    as [[r Hr]|Hr]; unfold macroPass, replaceTokens in *; rewrite Hr; [|done].
  fold (replaceTokens "$" (macroCallback ob) (String "$" (name +:+ post))).
  fold (macroPass ob (String "$" (name +:+ post))).
  rewrite macroPass_token by done. unfold bind.
  by rewrite macroCallback_missing.
Qed.

(** ** The [?name] pass *)

Lemma placeholderCallback_present params name st :
  hasProperty name params = true ->
  exists seen,
    placeholderCallback params name st
    = Ok ("?", {| paramsOut := paramsOut st ++ [getProperty name params];
                  seenParams := seen |}).
Proof.
  intros H. unfold placeholderCallback. rewrite H. simpl.
  unfold bind, wasSeen, markSeen, push, ret. simpl.
  destruct (bool_decide (name ∈ seenParams st)); simpl; by eexists.
Qed.

Lemma placeholderCallback_missing params name st :
  hasProperty name params = false ->
  placeholderCallback params name st
  = Throw (SQLBuildError ("Missing parameter: " +:+ name)).
Proof. intros H. unfold placeholderCallback. by rewrite H. Qed.

(** When every placeholder is found, each occurrence turns into [?] and
    appends its value to [paramsOut]. *)
Lemma placeholders_present params ps st :
  Forall (fun name => hasProperty name params = true) (tokenNames ps) ->
  exists seen,
    replacePieces (placeholderCallback params) ps st
    = Ok (positionalPieces ps,
          {| paramsOut :=
               paramsOut st
                 ++ map (fun name => getProperty name params) (tokenNames ps);
             seenParams := seen |}).
Proof.
  revert st. induction ps as [|[c|name] ps IH]; intros st Hall; simpl in *.
  - exists (seenParams st). unfold ret. rewrite app_nil_r. by destruct st.
  - destruct (IH st Hall) as [seen Hs]. exists seen.
    unfold bind, ret. by rewrite Hs.
  - inversion Hall as [|? ? Hn Hrest]; subst.
    destruct (placeholderCallback_present params name st Hn) as [seen0 H0].
    unfold bind, ret. rewrite H0.
    destruct (IH {| paramsOut := paramsOut st ++ [getProperty name params];
                    seenParams := seen0 |} Hrest) as [seen Hs].
    exists seen. rewrite Hs. simpl. by rewrite <- app_assoc.
Qed.


(** ** The validator *)

Lemma validateSubqueries_first subqueries :
  validateSubqueries subqueries
  = firstViolation (flat_map subqueryViolations subqueries).
Proof.
  induction subqueries as [|s rest IH]; simpl; [done|].
  unfold subqueryViolations, subqueryComplete, joinKindAllowed.
  destruct (truthy (Sub.name s)), (truthy (Sub.alias s)),
    (truthy (Sub.query s)), (truthy (Sub.joinType s)),
    (truthy (Sub.joinOn s)); simpl; try done.
  destruct (Sub.joinType s =? "JOIN")%string; simpl; [done|].
  destruct (Sub.joinType s =? "LEFT JOIN")%string; simpl; done.
Qed.

(** On numbers other than NaN, the two tests of the validator are the
    negations of [page >= 0] and [page_size > 0]. *)
Lemma ltb_zero x :
  JSNumber.isNaN x = false ->
  JSNumber.ltb x (JSNumber.ofZ 0) = negb (JSNumber.leb (JSNumber.ofZ 0) x).
Proof. by destruct x as [[]|[]| |[] m e]. Qed.

Lemma leb_zero x :
  JSNumber.isNaN x = false ->
  JSNumber.leb x (JSNumber.ofZ 0) = negb (JSNumber.ltb (JSNumber.ofZ 0) x).
Proof. by destruct x as [[]|[]| |[] m e]. Qed.

Lemma validateRest_first query options :
  noNaN (optField Opt.page options) = true ->
  noNaN (optField Opt.page_size options) = true ->
  validateRest query options = firstViolation (laterViolations query options).
Proof.
  unfold validateRest, laterViolations, truthy, noNaN. simpl.
  intros Hpage Hsize.
  destruct (isEmpty (Query.alias query)); simpl; [done|].
  destruct (Query.fields query) as [|f fs]; simpl; [done|].
  assert (Hsub : match Query.withSubqueries query with
                 | Some subqueries => validateSubqueries subqueries
                 | None => Ok tt
                 end
                 = firstViolation
                     (flat_map subqueryViolations
                        (default [] (Query.withSubqueries query)))).
  { destruct (Query.withSubqueries query); simpl; [|done].
    apply validateSubqueries_first. }
  destruct (optField Opt.page options) as [page|]; simpl.
  - rewrite ltb_zero by (by destruct (JSNumber.isNaN page)).
    destruct (JSNumber.leb (JSNumber.ofZ 0) page); simpl; [|done].
    destruct (optField Opt.page_size options) as [size|]; simpl; [|done].
    rewrite leb_zero by (by destruct (JSNumber.isNaN size)).
    by destruct (JSNumber.ltb (JSNumber.ofZ 0) size).
  - destruct (optField Opt.page_size options) as [size|]; simpl; [|done].
    rewrite leb_zero by (by destruct (JSNumber.isNaN size)).
    by destruct (JSNumber.ltb (JSNumber.ofZ 0) size).
Qed.

(** X14. When [page] and [page_size], if given, are not NaN, both
    validators throw the [SQLBuildError] of the first violated precondition
    in the order (a) source presence, (b) alias presence, (c) at least one
    field, (d) page >= 0, (e) page_size > 0, (f) each subquery complete and
    its join kind allowed; they report nothing else, and return when no
    precondition is violated.  The two differ only in the message of
    (a). *)
Theorem validation_reports_first_violation query options :
  noNaN (optField Opt.page options) = true ->
  noNaN (optField Opt.page_size options) = true ->
  CteGraph.validateInputs query options
  = firstViolation
      (violations "sourceTable is required and must be a string" query options)
  /\ SqlTs.validateInputs query options
     = firstViolation
         (violations "sourceQuery is required and must be a string"
            query options).
Proof.
  intros Hpage Hsize.
  unfold CteGraph.validateInputs, SqlTs.validateInputs.
  rewrite validateRest_first by done.
  unfold violations, sourcePresent. simpl.
  destruct (truthyOpt (Query.sourceTable query)),
    (truthyOpt (Query.sourceQuery query)); simpl; done.
Qed.

(** ** The SELECT clause *)

Lemma wantsPagination_spec options :
  CteGraph.wantsPagination options = true <-> suppliesPagination options.
Proof.
  unfold CteGraph.wantsPagination, suppliesPagination, optField. split.
  - destruct options as [o|]; [|done].
    destruct (Opt.order_by o) as [terms|] eqn:Ho; [|done].
    destruct (Opt.page_size o) as [size|] eqn:Hs;
      [|by rewrite andb_false_r].
    destruct (Opt.page o) as [page|] eqn:Hp; [|by rewrite andb_false_r].
    rewrite !andb_true_r. intros H%Nat.ltb_lt.
    by exists o, terms, page, size.
  - intros (o & terms & page & size & -> & -> & Hlen & -> & ->).
    rewrite !andb_true_r. by apply Nat.ltb_lt.
Qed.

(** C5. The SELECT clause lists the main-query fields, then the subquery
    fields, and after them the two window-count columns
    ([_sql_util_remaining], counted over [$rev_order_by], then
    [_sql_util_num], counted over [$order_by]) exactly when the invocation
    supplies more than one ordering term and both [page] and [page_size]. *)
Theorem C5_window_columns_iff_paginated query options :
  CteGraph.buildSelectClause query options
  = "SELECT " +:+ join ", " (CteGraph.selectFields query options)
  /\ (suppliesPagination options ->
      CteGraph.selectFields query options
      = map fieldColumn (Query.fields query)
        ++ flat_map (fun subquery => map fieldColumn (Sub.fields subquery))
             (default [] (Query.withSubqueries query))
        ++ [ "COUNT(" +:+ Query.alias query
             +:+ ".id) OVER (ORDER BY $rev_order_by) - 1 AS _sql_util_remaining";
             "COUNT(" +:+ Query.alias query
             +:+ ".id) OVER (ORDER BY $order_by) AS _sql_util_num" ])
  /\ (~ suppliesPagination options ->
      CteGraph.selectFields query options
      = map fieldColumn (Query.fields query)
        ++ flat_map (fun subquery => map fieldColumn (Sub.fields subquery))
             (default [] (Query.withSubqueries query))).
Proof.
  split; [done|]. unfold CteGraph.selectFields. split; intros H.
  - apply wantsPagination_spec in H. rewrite H.
    unfold CteGraph.projectedFields, CteGraph.paginationColumns,
      CteGraph.subqueriesOf.
    by rewrite <- app_assoc.
  - destruct (CteGraph.wantsPagination options) eqn:E; [|done].
    by apply wantsPagination_spec in E.
Qed.

(** ** [paginateData] *)

(** C6. On a non-empty row list whose rows carry the two window-count
    fields, [paginateData] returns the rows with [total] the first row's
    remaining plus its num and [has_more] whether the last row's remaining
    is positive; when the first row lacks one of the fields (so also when
    no row has them) it throws. *)
Theorem C6_paginate_total_and_has_more {T} (first : CteGraph.Row T)
    (others : list (CteGraph.Row T)) (page limit : option JSNumber.t) :
  (Forall (fun r => is_Some (CteGraph._sql_util_remaining r)
                    /\ is_Some (CteGraph._sql_util_num r)) (first :: others) ->
   exists remaining num lastRemaining,
     CteGraph._sql_util_remaining first = Some remaining
     /\ CteGraph._sql_util_num first = Some num
     /\ CteGraph._sql_util_remaining (List.last (first :: others) first)
        = Some lastRemaining
     /\ CteGraph.paginateData (first :: others) page limit
        = Ok {| CteGraph.data := first :: others;
                CteGraph.pagination :=
                  {| CteGraph.page := default (JSNumber.ofZ 0) page;
                     CteGraph.limit := default (JSNumber.ofZ 10) limit;
                     CteGraph.total := JSNumber.add remaining num;
                     CteGraph.has_more :=
                       JSNumber.ltb (JSNumber.ofZ 0) lastRemaining |} |})
  /\ (CteGraph._sql_util_remaining first = None
      \/ CteGraph._sql_util_num first = None ->
      CteGraph.paginateData (first :: others) page limit
      = Throw (Error
                 "order_by, page, and page_size are required for pagination")).
Proof.
  split.
  - intros Hall.
    assert (Hlast : is_Some (CteGraph._sql_util_remaining
                               (List.last (first :: others) first))).
    { assert (Hin : In (List.last (first :: others) first) (first :: others)).
      { destruct (exists_last (l := first :: others)) as (l' & a & E);
          [done|].
        rewrite E, last_last. apply in_or_app. right. by left. }
      rewrite Forall_forall in Hall.
      apply list_elem_of_In in Hin. by destruct (Hall _ Hin). }
    inversion Hall as [|? ? [[remaining Hr] [num Hn]] _]; subst.
    destruct Hlast as [lastRemaining Hl].
    exists remaining, num, lastRemaining. repeat split; try done.
    unfold CteGraph.paginateData. by rewrite Hr, Hn, Hl.
  - unfold CteGraph.paginateData.
    intros [H|H]; rewrite H; [done|].
    by destruct (CteGraph._sql_util_remaining first).
Qed.

(** ** What a pass can throw *)

Lemma macroCallback_throw ob name st e :
  macroCallback ob name st = Throw e ->
  e = SQLBuildError "Missing order_by" /\ truthyOpt ob = false.
Proof.
  unfold macroCallback, ret, throw.
  destruct ob as [ob|]; simpl;
    repeat (match goal with
            | |- context [if ?c then _ else _] => destruct c eqn:?
            end);
    try done; by intros [= <-].
Qed.

Lemma macroPieces_throw ob ps st e :
  replacePieces (macroCallback ob) ps st = Throw e ->
  e = SQLBuildError "Missing order_by" /\ truthyOpt ob = false.
Proof.
  revert st. induction ps as [|[c|name] ps IH]; intros st; simpl; [done|..];
    unfold bind, ret.
  - destruct (replacePieces _ ps st) as [[out st1]|e'] eqn:E; [done|].
    intros [= <-]. by apply (IH st).
  - destruct (macroCallback ob name st) as [[r st0]|e'] eqn:E0.
    + destruct (replacePieces _ ps st0) as [[out st1]|e''] eqn:E; [done|].
      intros [= <-]. by apply (IH st0).
    + intros [= <-]. by apply (macroCallback_throw ob name st).
Qed.

Lemma placeholders_throw params ps st e :
  replacePieces (placeholderCallback params) ps st = Throw e ->
  exists name,
    In name (tokenNames ps) /\ hasProperty name params = false
    /\ e = SQLBuildError ("Missing parameter: " +:+ name).
Proof.
  revert st. induction ps as [|[c|name] ps IH]; intros st; simpl; [done|..];
    unfold bind, ret.
  - destruct (replacePieces _ ps st) as [[out st1]|e'] eqn:E; [done|].
    intros [= <-]. by apply (IH st).
  - destruct (hasProperty name params) eqn:Hn.
    + destruct (placeholderCallback_present params name st Hn) as [seen ->].
      destruct (replacePieces _ ps _) as [[out st1]|e'] eqn:E; [done|].
      intros [= <-]. destruct (IH _ E) as (n & Hin & Hm & He).
      exists n. auto.
    + rewrite placeholderCallback_missing by done. intros [= <-].
      exists name. auto.
Qed.

(** ** The [catch] block *)

Lemma catchBlock_id {A} (r : Result A) : buildErrorsOnly r -> catchBlock r = r.
Proof. by destruct r as [a|[m|m|m]]. Qed.

Lemma finish_errors run :
  (forall e, run initialState = Throw e -> exists m, e = SQLBuildError m) ->
  buildErrorsOnly (finish run).
Proof.
  intros H. unfold finish.
  destruct (run initialState) as [[t st]|e]; [done|].
  by destruct (H e eq_refl) as [m ->].
Qed.

Lemma placeholderPass_errors params text :
  buildErrorsOnly (finish (placeholderPass params text)).
Proof.
  apply finish_errors. intros e H.
  destruct (placeholders_throw _ _ _ _ H) as (name & _ & _ & ->). by eexists.
Qed.

Lemma substitute_errors options params text :
  buildErrorsOnly (finish (CteGraph.substitute options params text)).
Proof.
  apply finish_errors. intros e. unfold CteGraph.substitute, bind.
  destruct (macroPass _ text initialState) as [[t st]|e'] eqn:Em.
  - intros H. destruct (placeholders_throw _ _ _ _ H) as (name & _ & _ & ->).
    by eexists.
  - intros [= <-]. destruct (macroPieces_throw _ _ _ _ Em) as [-> _].
    by eexists.
Qed.

Lemma validateSubqueries_errors subqueries :
  buildErrorsOnly (validateSubqueries subqueries).
Proof.
  induction subqueries as [|s rest IH]; simpl; [done|].
  by repeat case_match.
Qed.

Lemma validateRest_errors query options :
  buildErrorsOnly (validateRest query options).
Proof.
  unfold validateRest. repeat case_match; try done;
    apply validateSubqueries_errors.
Qed.

Lemma graph_validate_errors query options :
  buildErrorsOnly (CteGraph.validateInputs query options).
Proof.
  unfold CteGraph.validateInputs. repeat case_match; try done;
    apply validateRest_errors.
Qed.

Lemma sqlts_validate_errors query options :
  buildErrorsOnly (SqlTs.validateInputs query options).
Proof.
  unfold SqlTs.validateInputs. repeat case_match; try done;
    apply validateRest_errors.
Qed.

Lemma fromClause_errors query : buildErrorsOnly (fromClause query).
Proof. unfold fromClause. by repeat case_match. Qed.

(** ** The call stack *)

Lemma flatMapResult_throw {A B} (f : A -> Result (list B)) xs e :
  flatMapResult f xs = Throw e -> exists x, In x xs /\ f x = Throw e.
Proof.
  induction xs as [|x xs IH]; simpl; [done|].
  destruct (f x) as [ys|e'] eqn:E.
  - destruct (flatMapResult f xs) as [zs|e'']; [done|].
    intros [= <-]. destruct (IH eq_refl) as (x' & Hin & Hx). eauto.
  - intros [= <-]. eauto.
Qed.

Lemma flatMapResult_ok {A B} (f : A -> Result (list B)) (g : A -> list B) xs :
  (forall x, In x xs -> f x = Ok (g x)) ->
  flatMapResult f xs = Ok (flat_map g xs).
Proof.
  induction xs as [|x xs IH]; simpl; [done|].
  intros H. rewrite (H x) by auto. rewrite IH by auto. done.
Qed.

(** The one error of [expandQueryView] is the full call stack. *)
Lemma expandQueryView_throw heap stack v e :
  CteGraph.expandQueryView heap stack v = Throw e ->
  e = RangeError "Maximum call stack size exceeded".
Proof.
  revert v. induction stack as [|below IH]; intros v; simpl.
  - by intros [= <-].
  - destruct (flatMapResult _ _) as [result|e'] eqn:E; [done|].
    intros [= <-]. apply flatMapResult_throw in E as (x & _ & Hx).
    by apply (IH (snd x)).
Qed.

Lemma withClause_throw heap stack query e :
  CteGraph.withClause heap stack query = Throw e ->
  e = RangeError "Maximum call stack size exceeded".
Proof.
  unfold CteGraph.withClause, CteGraph.buildWithClause, CteGraph.withEntries.
  destruct (Query.withSubqueries query) as [[|s subqueries]|]; try done.
  destruct (flatMapResult _ _) as [entries|e'] eqn:E; [done|].
  intros [= <-]. apply flatMapResult_throw in E as (x & _ & Hx).
  by apply expandQueryView_throw in Hx.
Qed.

(** ** The composers, step by step *)

(** The CTE-graph composer: validation, the WITH clause, the FROM clause
    and then the passes on the assembled text.  A WITH clause that does not
    fit the call stack ends in the wrapped error. *)
Lemma graph_build_pass heap stack query options :
  CteGraph.buildComplexSQL heap stack query options
  = match CteGraph.validateInputs query options with
    | Throw e => Throw e
    | Ok _ =>
        match CteGraph.withClause heap stack query with
        | Throw _ => Throw stackOverflow
        | Ok withC =>
            match fromClause query with
            | Throw e => Throw e
            | Ok fromC =>
                finish (graphPass options
                          (joinClauses
                             (CteGraph.clauses withC query options fromC)))
            end
        end
    end.
Proof.
  unfold CteGraph.buildComplexSQL, CteGraph.tryBlock, CteGraph.assemble,
    graphPass.
  pose proof (graph_validate_errors query options) as Hv.
  destruct (CteGraph.validateInputs query options) as [[]|e];
    [|by apply catchBlock_id].
  destruct (CteGraph.withClause heap stack query) as [withC|e] eqn:Ew.
  - pose proof (fromClause_errors query) as Hf.
    destruct (fromClause query) as [fromC|e]; [|by apply catchBlock_id].
    destruct (optField Opt.params options) as [params|]; [|done].
    apply catchBlock_id, substitute_errors.
  - by apply withClause_throw in Ew as ->.
Qed.

Lemma sqlts_build_pass query options :
  SqlTs.buildComplexSQL query options
  = match SqlTs.validateInputs query options with
    | Throw e => Throw e
    | Ok _ =>
        match fromClause query with
        | Throw e => Throw e
        | Ok fromC =>
            finish (sqltsPass options
                      (joinClauses (SqlTs.clauses query options fromC)))
        end
    end.
Proof.
  unfold SqlTs.buildComplexSQL, SqlTs.tryBlock, SqlTs.assemble, sqltsPass.
  pose proof (sqlts_validate_errors query options) as Hv.
  destruct (SqlTs.validateInputs query options) as [[]|e];
    [|by apply catchBlock_id].
  pose proof (fromClause_errors query) as Hf.
  destruct (fromClause query) as [fromC|e]; [|by apply catchBlock_id].
  destruct (optField Opt.params options) as [params|]; [|done].
  apply catchBlock_id, placeholderPass_errors.
Qed.

(** The text the passes run on, when it is assembled. *)
Lemma graph_build_assembled heap stack query options finalQuery :
  CteGraph.validateInputs query options = Ok tt ->
  CteGraph.assemble heap stack query options = Ok finalQuery ->
  CteGraph.buildComplexSQL heap stack query options
  = finish (graphPass options finalQuery).
Proof.
  intros Hv Ha. rewrite graph_build_pass, Hv.
  unfold CteGraph.assemble in Ha.
  destruct (CteGraph.withClause heap stack query) as [withC|e]; [|done].
  destruct (fromClause query) as [fromC|e]; [|done]. congruence.
Qed.

Lemma sqlts_build_assembled query options finalQuery :
  SqlTs.validateInputs query options = Ok tt ->
  SqlTs.assemble query options = Ok finalQuery ->
  SqlTs.buildComplexSQL query options = finish (sqltsPass options finalQuery).
Proof.
  intros Hv Ha. rewrite sqlts_build_pass, Hv.
  unfold SqlTs.assemble in Ha.
  destruct (fromClause query) as [fromC|e]; [|done]. congruence.
Qed.

(** ** The composers and the [?name] pass *)

Lemma finish_present params text :
  Forall (fun name => hasProperty name params = true) (placeholderNames text) ->
  finish (placeholderPass params text)
  = Ok (Built.mk (positional text)
          (map (fun name => getProperty name params) (placeholderNames text))).
Proof.
  intros H. unfold finish, placeholderPass, replaceTokens.
  destruct (placeholders_present params _ initialState H) as [seen ->].
  done.
Qed.


(** With a parameter object, the CTE-graph composer runs the [?name] pass
    on the text the [$name] pass made. *)
Lemma graph_build_with_params heap stack query o params text :
  CteGraph.validateInputs query (Some o) = Ok tt ->
  Opt.params o = Some params ->
  expandedQuery heap stack query (Some o) = Ok text ->
  CteGraph.buildComplexSQL heap stack query (Some o)
  = finish (placeholderPass params text).
Proof.
  intros Hv Hp He. unfold expandedQuery in He.
  destruct (CteGraph.assemble heap stack query (Some o)) as [f|e] eqn:Ha;
    [|done].
  rewrite (graph_build_assembled _ _ _ _ f Hv Ha).
  unfold graphPass. simpl. rewrite Hp.
  destruct (macroPass _ f initialState) as [[t st]|e] eqn:Em; [|done].
  injection He as ->. pose proof (macroPass_state _ _ _ _ _ Em) as ->.
  unfold finish, CteGraph.substitute, bind. by rewrite Em.
Qed.

(** A text without [$] goes through the [$name] pass unchanged: the
    [?name] pass then scans the assembled text itself. *)
Lemma macroPass_without_dollar ob text st :
  freeOf "$" text = true -> macroPass ob text st = Ok (text, st).
Proof.
  intros H. unfold macroPass, replaceTokens.
  rewrite <- (app_empty_r text) at 1.
  rewrite scanTokens_free by done. simpl. rewrite app_nil_r.
  apply replacePieces_literal.
Qed.

Lemma sqlts_build_with_params query o params text :
  SqlTs.validateInputs query (Some o) = Ok tt ->
  Opt.params o = Some params ->
  SqlTs.assemble query (Some o) = Ok text ->
  SqlTs.buildComplexSQL query (Some o) = finish (placeholderPass params text).
Proof.
  intros Hv Hp He. rewrite (sqlts_build_assembled _ _ text Hv He).
  unfold sqltsPass. simpl. by rewrite Hp.
Qed.

Lemma entriesFor_map name (f : string -> JSValue) names :
  entriesFor name names (map f names) = repeat (f name) (occurrences name names).
Proof.
  unfold entriesFor, occurrences.
  induction names as [|n names IH]; simpl; [done|].
  destruct (String.eqb_spec name n) as [->|Hne]; simpl; by rewrite IH.
Qed.


(** C4 (as amended). With a parameter object supplied and validation
    passed, let [text] be the text the [?name] pass scans (in the CTE-graph
    composer the text after the [$name] pass, in [src/sql.ts] the assembled
    text).  If every placeholder of [text] is
    found in the object, composition returns [text] with each placeholder
    turned into [?], and a parameter list with one entry per placeholder
    occurrence, in the order of the occurrences from left to right: a
    placeholder that occurs k times contributes, at the positions of its
    occurrences, exactly k entries equal to its value. *)
Theorem C4_one_entry_per_occurrence_in_order heap stack query o params :
  Opt.params o = Some params ->
  (forall text,
      CteGraph.validateInputs query (Some o) = Ok tt ->
      expandedQuery heap stack query (Some o) = Ok text ->
      Forall (fun n => hasProperty n params = true) (placeholderNames text) ->
      exists built,
        CteGraph.buildComplexSQL heap stack query (Some o) = Ok built
        /\ Built.query built = positional text
        /\ Built.params built
           = map (fun n => getProperty n params) (placeholderNames text)
        /\ forall name,
             entriesFor name (placeholderNames text) (Built.params built)
             = repeat (getProperty name params)
                 (occurrences name (placeholderNames text)))
  /\ (forall text,
         SqlTs.validateInputs query (Some o) = Ok tt ->
         SqlTs.assemble query (Some o) = Ok text ->
         Forall (fun n => hasProperty n params = true) (placeholderNames text) ->
         exists built,
           SqlTs.buildComplexSQL query (Some o) = Ok built
           /\ Built.query built = positional text
           /\ Built.params built
              = map (fun n => getProperty n params) (placeholderNames text)
           /\ forall name,
                entriesFor name (placeholderNames text) (Built.params built)
                = repeat (getProperty name params)
                    (occurrences name (placeholderNames text))).
Proof.
  intros Hp. split; intros text Hv Ht Hall; eexists; split.
  - rewrite (graph_build_with_params heap stack query o params text) by done.
    by apply finish_present.
  - simpl. repeat split. intros name.
    apply (entriesFor_map name (fun n => getProperty n params)).
  - rewrite (sqlts_build_with_params query o params text) by done.
    by apply finish_present.
  - simpl. repeat split. intros name.
    apply (entriesFor_map name (fun n => getProperty n params)).
Qed.

(** ** Reversing the order terms *)

Lemma matches_prefix pat a x :
  matchesIgnoreCase pat a = true ->
  prefix (String.length pat) (a +:+ x) = prefix (String.length pat) a
  /\ String.length pat <= String.length a.
Proof.
  unfold prefix. revert a. induction pat as [|p pat IH]; intros a H.
  - split; [|simpl; lia]. by destruct a, x.
  - destruct a as [|c a]; simpl in H; [done|].
    apply andb_prop in H as [_ H]. destruct (IH a H) as [E L].
    simpl. rewrite E. split; [done | lia].
Qed.

Ltac crush_match a :=
  destruct a as [|? [|? [|? [|? ?]]]]; simpl;
  rewrite ?andb_false_r, ?andb_true_r; try done.

(** A match of [ASC] or [DESC] that starts before an occurrence of [ASC] or
    [DESC] ends before it. *)
Lemma matches_before_ASC pat a b :
  pat = "ASC" \/ pat = "DESC" -> a <> "" ->
  matchesIgnoreCase pat (a +:+ "ASC" +:+ b) = matchesIgnoreCase pat a.
Proof. intros [-> | ->] Ha; crush_match a. Qed.

Lemma matches_before_DESC pat a b :
  pat = "ASC" \/ pat = "DESC" -> a <> "" ->
  matchesIgnoreCase pat (a +:+ "DESC" +:+ b) = matchesIgnoreCase pat a.
Proof. intros [-> | ->] Ha; crush_match a. Qed.

Lemma flipScan_app k a word b :
  (forall pat a', pat = "ASC" \/ pat = "DESC" -> a' <> "" ->
     matchesIgnoreCase pat (a' +:+ word +:+ b) = matchesIgnoreCase pat a') ->
  k <= String.length a ->
  flipScan k (a +:+ word +:+ b) = flipScan k a +:+ flipScan 0 (word +:+ b).
Proof.
  intros Hm. revert k. induction a as [|c a IH]; intros k Hk.
  - simpl in Hk. by replace k with 0 by lia.
  - destruct k as [|k]; [|simpl in *; apply IH; lia].
    change (String c a +:+ word +:+ b) with (String c (a +:+ word +:+ b)).
    cbn [flipScan].
    change (String c (a +:+ word +:+ b)) with (String c a +:+ word +:+ b).
    rewrite !Hm by (auto; done).
    destruct (matchesIgnoreCase "ASC" (String c a)) eqn:E1.
    { destruct (matches_prefix "ASC" (String c a) (word +:+ b) E1) as [E L].
      cbn [String.length] in E. rewrite E.
      simpl in L. rewrite IH by lia. by rewrite app_assoc_s. }
    destruct (matchesIgnoreCase "DESC" (String c a)) eqn:E2.
    { destruct (matches_prefix "DESC" (String c a) (word +:+ b) E2) as [E L].
      cbn [String.length] in E. rewrite E.
      simpl in L. rewrite IH by lia. by rewrite app_assoc_s. }
    simpl. by rewrite IH by lia.
Qed.

Lemma reverseOrder_ASC a b :
  reverseOrder (a +:+ "ASC" +:+ b)
  = reverseOrder a +:+ "DESC" +:+ reverseOrder b.
Proof.
  unfold reverseOrder. rewrite flipScan_app; [|intros; by apply matches_before_ASC|lia].
  f_equal. by destruct b.
Qed.

Lemma reverseOrder_DESC a b :
  reverseOrder (a +:+ "DESC" +:+ b)
  = reverseOrder a +:+ "ASC" +:+ reverseOrder b.
Proof.
  unfold reverseOrder. rewrite flipScan_app; [|intros; by apply matches_before_DESC|lia].
  f_equal. by destruct b.
Qed.

(** ** The composer and the [$name] pass *)

Lemma join_truthy sep terms :
  terms <> [] -> Forall (fun t => truthy t = true) terms ->
  truthy (join sep terms) = true.
Proof.
  destruct terms as [|t ts]; [done|]. intros _ H.
  inversion H as [|? ? Ht _]; subst.
  unfold join. simpl. destruct ts; [done|]. by destruct t.
Qed.

Lemma macroPass_other ob pre name post st :
  isIdentifier name = true -> isMacro name = false ->
  atBoundary post = true ->
  macroPass ob (pre +:+ String "$" (name +:+ post)) st =
  (let* a := macroPass ob pre in
   let* b := macroPass ob post in
   ret (a +:+ b)) st.
Proof.
  intros Hn Hm Hp. rewrite macroPass_app by done. unfold bind, ret.
  destruct (macroPass ob pre st) as [[a st1]|e]; [|done].
  rewrite macroPass_token by done. unfold bind, ret, macroCallback.
  destruct (orb_false_elim _ _ Hm) as [E1 E2]. rewrite E1, E2.
  unfold ret. simpl.
  by destruct (macroPass ob post st1) as [[b st2]|e].
Qed.

(** C9. With a named-parameter object supplied, every token [$identifier]
    other than [$order_by] and [$rev_order_by] is replaced by the empty
    string: composition gives what the two passes give on the text before
    the token followed by the text after it, so the token adds nothing to
    the parameter list.  With no named-parameter object, the output is the
    assembled text itself, [$identifier] and [?identifier] tokens included,
    and the parameter list is empty. *)
Theorem C9_other_dollar_tokens_deleted heap stack query options finalQuery :
  CteGraph.validateInputs query options = Ok tt ->
  CteGraph.assemble heap stack query options = Ok finalQuery ->
  (forall params pre name post,
      optField Opt.params options = Some params ->
      finalQuery = pre +:+ "$" +:+ name +:+ post ->
      isIdentifier name = true -> isMacro name = false ->
      atBoundary post = true ->
      CteGraph.buildComplexSQL heap stack query options
      = finish (let* a := macroPass (orderByCondition options) pre in
                let* b := macroPass (orderByCondition options) post in
                placeholderPass params (a +:+ b)))
  /\ (optField Opt.params options = None ->
      CteGraph.buildComplexSQL heap stack query options
      = Ok (Built.mk finalQuery [])).
Proof.
  intros Hv Ha. rewrite (graph_build_assembled _ _ _ _ _ Hv Ha).
  unfold graphPass. split.
  - intros params pre name post -> -> Hn Hm Hpost.
    unfold finish, CteGraph.substitute. unfold bind at 1.
    rewrite (macroPass_other _ pre name post) by done.
    unfold bind, ret.
    destruct (macroPass _ pre initialState) as [[a st1]|e]; [|done].
    by destruct (macroPass _ post st1) as [[b st2]|e].
  - by intros ->.
Qed.

(** ** Clauses that the passes leave alone *)

Lemma join_app sep l1 l2 :
  l1 <> [] -> l2 <> [] ->
  join sep (l1 ++ l2) = join sep l1 +:+ sep +:+ join sep l2.
Proof.
  unfold join. intros H1 H2. induction l1 as [|x l1 IH]; [done|].
  destruct l1 as [|y l1].
  - simpl. by destruct l2.
  - change (String.concat sep ((x :: y :: l1) ++ l2))
      with (x +:+ sep +:+ String.concat sep ((y :: l1) ++ l2)).
    rewrite IH by done.
    change (String.concat sep (x :: y :: l1))
      with (x +:+ sep +:+ String.concat sep (y :: l1)).
    by rewrite !app_assoc_s.
Qed.

Lemma joinClauses_app l1 l2 :
  List.filter truthy l1 <> [] ->
  joinClauses (l1 ++ l2)
  = joinClauses l1
    +:+ match List.filter truthy l2 with
        | [] => ""
        | trailing => " " +:+ join " " trailing
        end.
Proof.
  intros H1. unfold joinClauses. rewrite List.filter_app.
  destruct (List.filter truthy l2) as [|z l2'] eqn:E.
  - by rewrite app_nil_r, app_empty_r.
  - by rewrite join_app.
Qed.

Lemma freeOf_app sigil a b :
  freeOf sigil (a +:+ b) = (freeOf sigil a && freeOf sigil b)%bool.
Proof.
  induction a as [|c a IH]; simpl; [done|].
  rewrite IH. by rewrite andb_assoc.
Qed.

Lemma digit_not_sigil sigil c :
  isDigit sigil = false -> isDigit c = true -> negb (c =? sigil)%char = true.
Proof.
  intros Hs Hc. destruct (Ascii.eqb_spec c sigil) as [->|]; [congruence|done].
Qed.

Lemma freeOf_uint sigil d :
  isDigit sigil = false ->
  freeOf sigil (NilEmpty.string_of_uint d) = true.
Proof.
  intros Hs.
  induction d; cbn [NilEmpty.string_of_uint freeOf]; [done|..];
    by rewrite IHd, digit_not_sigil.
Qed.

Lemma freeOf_nat_uint sigil d :
  isDigit sigil = false ->
  freeOf sigil (NilZero.string_of_uint d) = true.
Proof.
  intros Hs. unfold NilZero.string_of_uint.
  destruct d; try apply (freeOf_uint sigil _ Hs).
  cbn [freeOf]. by rewrite digit_not_sigil.
Qed.

Lemma freeOf_zeros sigil n :
  isDigit sigil = false -> freeOf sigil (JSNumber.zeros n) = true.
Proof.
  intros Hs. induction n as [|n IH]; cbn [JSNumber.zeros freeOf]; [done|].
  by rewrite IH, digit_not_sigil.
Qed.

Lemma freeOf_substring sigil s from n :
  freeOf sigil s = true -> freeOf sigil (String.substring from n s) = true.
Proof.
  revert from n. induction s as [|c s IH]; intros from n H.
  - by destruct from, n.
  - simpl in H. apply andb_prop in H as [Hc Hs].
    destruct from as [|from]; cbn [String.substring]; [|by apply IH].
    destruct n as [|n]; cbn [freeOf]; [done|]. by rewrite Hc, IH.
Qed.

Lemma freeOf_digits sigil z :
  isDigit sigil = false -> freeOf sigil (JSNumber.digits z) = true.
Proof. intros Hs. by apply freeOf_nat_uint. Qed.

(** The text of a number has neither [$] nor [?]. *)
Lemma freeOf_number sigil x :
  sigil = "$"%char \/ sigil = "?"%char ->
  freeOf sigil (JSNumber.toString x) = true.
Proof.
  intros Hs.
  assert (Hd : isDigit sigil = false) by (by destruct Hs as [-> | ->]).
  assert (Hpos : forall m e,
             freeOf sigil (JSNumber.positiveToString m e) = true).
  { intros m e. unfold JSNumber.positiveToString.
    destruct (JSNumber.shortest m e) as [s p].
    pose proof (freeOf_digits sigil s Hd) as Hds.
    pose proof (fun from n => freeOf_substring sigil _ from n Hds) as Hsub.
    pose proof (fun n => freeOf_zeros sigil n Hd) as Hz.
    pose proof (fun z => freeOf_digits sigil z Hd) as Hdz.
    repeat case_match;
      repeat first [rewrite freeOf_app | progress cbn [freeOf]];
      rewrite ?Hsub, ?Hz, ?Hdz;
      by destruct Hs as [-> | ->]. }
  unfold JSNumber.toString.
  destruct x as [s|s| |s m e]; try destruct s; cbn [freeOf];
    rewrite ?Hpos; by destruct Hs as [-> | ->].
Qed.

(** A [replace] pass copies a separator and works on the two sides of it
    one after the other. *)
Lemma replaceTokens_separator sigil cb x S y st :
  negb (isEmpty S) = true -> atBoundary S = true -> freeOf sigil S = true ->
  replaceTokens sigil cb (x +:+ S +:+ y) st =
  (let* a := replaceTokens sigil cb x in
   let* b := replaceTokens sigil cb y in
   ret (a +:+ S +:+ b)) st.
Proof.
  intros Hne Hb Hf. unfold replaceTokens, bind, ret.
  rewrite scanTokens_app; [|by destruct S|lia].
  rewrite scanTokens_free by done.
  rewrite replacePieces_app.
  destruct (replacePieces cb (scanTokens sigil 0 x) st) as [[a st1]|e];
    [|done].
  rewrite replacePieces_app, replacePieces_literal.
  by destruct (replacePieces cb (scanTokens sigil 0 y) st1) as [[b st2]|e].
Qed.

Lemma replaceTokens_empty sigil cb st :
  replaceTokens sigil cb "" st = Ok ("", st).
Proof. done. Qed.

Lemma isSeparator_parts S :
  isSeparator S = true ->
  negb (isEmpty S) = true /\ atBoundary S = true
  /\ freeOf "$" S = true /\ freeOf "?" S = true.
Proof.
  unfold isSeparator. intros H.
  apply andb_prop in H as [H H4]. apply andb_prop in H as [H H3].
  by apply andb_prop in H as [H1 H2].
Qed.

Lemma placeholderPass_splits params : SplitsAtSeparators (placeholderPass params).
Proof.
  intros x S y st t st' (Hne & Hb & _ & Hq)%isSeparator_parts H.
  unfold placeholderPass in *.
  rewrite replaceTokens_separator in H by done. unfold bind, ret in H.
  destruct (replaceTokens _ _ x st) as [[a st1]|e] eqn:Ex; [|done].
  destruct (replaceTokens _ _ y st1) as [[b st2]|e] eqn:Ey; [|done].
  inversion H; subst. by exists a, b, st1.
Qed.

Lemma substitute_splits options params :
  SplitsAtSeparators (CteGraph.substitute options params).
Proof.
  intros x S y st t st' HS H.
  pose proof HS as (Hne & Hb & Hd & Hq)%isSeparator_parts.
  unfold CteGraph.substitute, bind in *.
  destruct (macroPass _ (x +:+ S +:+ y) st) as [[m st0]|e] eqn:Em; [|done].
  pose proof (macroPass_state _ _ _ _ _ Em) as ->.
  unfold macroPass in Em.
  rewrite replaceTokens_separator in Em by done. unfold bind, ret in Em.
  fold (macroPass (orderByCondition options) x) in Em.
  fold (macroPass (orderByCondition options) y) in Em.
  destruct (macroPass _ x st) as [[mx sx]|e] eqn:Ex; [|done].
  pose proof (macroPass_state _ _ _ _ _ Ex) as ->.
  destruct (macroPass _ y st) as [[my sy]|e] eqn:Ey; [|done].
  inversion Em; subst.
  destruct (placeholderPass_splits params mx S my st t st' HS H)
    as (a & b & st1 & Ha & Hb' & ->).
  exists a, b, st1. repeat split; [done|].
  rewrite (macroPass_indep _ y st st1), Ey. done.
Qed.

Lemma ret_splits : SplitsAtSeparators ret.
Proof.
  intros x S y st t st' _ H. unfold ret in *. inversion H; subst.
  by exists x, y, st'.
Qed.

Lemma graphPass_splits options : SplitsAtSeparators (graphPass options).
Proof.
  unfold graphPass. destruct (optField Opt.params options).
  - apply substitute_splits.
  - apply ret_splits.
Qed.

Lemma sqltsPass_splits options : SplitsAtSeparators (sqltsPass options).
Proof.
  unfold sqltsPass. destruct (optField Opt.params options).
  - apply placeholderPass_splits.
  - apply ret_splits.
Qed.

Lemma finish_inv run built :
  finish run = Ok built ->
  exists t st, run initialState = Ok (t, st) /\ built = Built.mk t (paramsOut st).
Proof.
  unfold finish. destruct (run initialState) as [[t st]|e]; [|done].
  intros H. inversion H. by exists t, st.
Qed.


(** A pass copies a separator at the end of the text. *)
Lemma replaceTokens_suffix sigil cb x S st :
  negb (isEmpty S) = true -> atBoundary S = true -> freeOf sigil S = true ->
  replaceTokens sigil cb (x +:+ S) st =
  (let* a := replaceTokens sigil cb x in ret (a +:+ S)) st.
Proof.
  intros Hne Hb Hf.
  rewrite <- (app_empty_r S) at 1.
  rewrite replaceTokens_separator by done. unfold bind, ret.
  destruct (replaceTokens sigil cb x st) as [[a st1]|e]; [|done].
  rewrite replaceTokens_empty. by rewrite app_empty_r.
Qed.

Lemma substitute_suffix options params x S st :
  isSeparator S = true ->
  CteGraph.substitute options params (x +:+ S) st =
  (let* a := CteGraph.substitute options params x in ret (a +:+ S)) st.
Proof.
  intros (Hne & Hb & Hd & Hq)%isSeparator_parts.
  unfold CteGraph.substitute, macroPass, placeholderPass, bind.
  rewrite replaceTokens_suffix by done. unfold bind, ret.
  destruct (replaceTokens "$" _ x st) as [[mx st1]|e]; [|done].
  rewrite replaceTokens_suffix by done. unfold bind, ret.
  by destruct (replaceTokens "?" _ mx st1) as [[a st2]|e].
Qed.

Lemma graphPass_suffix options x S st :
  isSeparator S = true ->
  graphPass options (x +:+ S) st =
  (let* a := graphPass options x in ret (a +:+ S)) st.
Proof.
  intros HS. unfold graphPass.
  destruct (optField Opt.params options) as [params|].
  - by apply substitute_suffix.
  - done.
Qed.

Lemma sqltsPass_suffix options x S st :
  isSeparator S = true ->
  sqltsPass options (x +:+ S) st =
  (let* a := sqltsPass options x in ret (a +:+ S)) st.
Proof.
  intros (Hne & Hb & Hd & Hq)%isSeparator_parts. unfold sqltsPass.
  destruct (optField Opt.params options) as [params|].
  - by apply replaceTokens_suffix.
  - done.
Qed.

Lemma placeholderPass_joins params : JoinsAtSeparators (placeholderPass params).
Proof.
  intros x S y st a st1 b st2 (Hne & Hb & _ & Hq)%isSeparator_parts Hx Hy.
  unfold placeholderPass in *.
  rewrite replaceTokens_separator by done. unfold bind, ret.
  by rewrite Hx, Hy.
Qed.

Lemma substitute_joins options params :
  JoinsAtSeparators (CteGraph.substitute options params).
Proof.
  intros x S y st a st1 b st2 HS Hx Hy.
  pose proof HS as (Hne & Hb & Hd & Hq)%isSeparator_parts.
  unfold CteGraph.substitute, bind in *.
  destruct (macroPass _ x st) as [[mx sx]|e] eqn:Ex; [|done].
  pose proof (macroPass_state _ _ _ _ _ Ex) as ->.
  destruct (macroPass _ y st1) as [[my sy]|e] eqn:Ey; [|done].
  pose proof (macroPass_state _ _ _ _ _ Ey) as ->.
  unfold macroPass. rewrite replaceTokens_separator by done.
  unfold bind, ret.
  fold (macroPass (orderByCondition options) x).
  fold (macroPass (orderByCondition options) y).
  rewrite Ex. rewrite (macroPass_indep _ y st1 st), Ey.
  by apply (placeholderPass_joins params mx S my st a st1 b st2).
Qed.

Lemma ret_joins : JoinsAtSeparators ret.
Proof.
  intros x S y st a st1 b st2 _ Hx Hy. unfold ret in *. congruence.
Qed.

Lemma graphPass_joins options : JoinsAtSeparators (graphPass options).
Proof.
  unfold graphPass. destruct (optField Opt.params options).
  - apply substitute_joins.
  - apply ret_joins.
Qed.

Lemma sqltsPass_joins options : JoinsAtSeparators (sqltsPass options).
Proof.
  unfold sqltsPass. destruct (optField Opt.params options).
  - apply placeholderPass_joins.
  - apply ret_joins.
Qed.

(** ** What validation guarantees *)

Lemma validate_source_present query options :
  CteGraph.validateInputs query options = Ok tt -> sourcePresent query = true.
Proof.
  unfold CteGraph.validateInputs, sourcePresent.
  destruct (truthyOpt (Query.sourceTable query)),
    (truthyOpt (Query.sourceQuery query)); simpl; done.
Qed.

Lemma validators_agree_with_source query options :
  sourcePresent query = true ->
  CteGraph.validateInputs query options = validateRest query options
  /\ SqlTs.validateInputs query options = validateRest query options.
Proof.
  unfold CteGraph.validateInputs, SqlTs.validateInputs, sourcePresent.
  destruct (truthyOpt (Query.sourceTable query)),
    (truthyOpt (Query.sourceQuery query)); simpl; done.
Qed.

Lemma validators_accept_the_same query options :
  CteGraph.validateInputs query options = Ok tt
  <-> SqlTs.validateInputs query options = Ok tt.
Proof.
  split; intros H.
  - pose proof (validate_source_present _ _ H) as Hs.
    destruct (validators_agree_with_source query options Hs) as [E1 E2].
    congruence.
  - assert (Hs : sourcePresent query = true).
    { revert H. unfold SqlTs.validateInputs, sourcePresent.
      destruct (truthyOpt (Query.sourceTable query)),
        (truthyOpt (Query.sourceQuery query)); simpl; done. }
    destruct (validators_agree_with_source query options Hs) as [E1 E2].
    congruence.
Qed.

Lemma fromClause_with_source query :
  sourcePresent query = true -> exists fromC, fromClause query = Ok fromC.
Proof.
  unfold sourcePresent, fromClause.
  destruct (truthyOpt (Query.sourceTable query)); simpl; [by eexists|].
  intros ->. by eexists.
Qed.

Lemma graph_validate_rest query options :
  CteGraph.validateInputs query options = Ok tt ->
  validateRest query options = Ok tt.
Proof. unfold CteGraph.validateInputs. by repeat case_match. Qed.

(** An accepted page size that is not NaN is positive, and so truthy. *)
Lemma validateRest_page_size query o n :
  validateRest query (Some o) = Ok tt -> Opt.page_size o = Some n ->
  JSNumber.isNaN n = false ->
  JSNumber.ltb (JSNumber.ofZ 0) n = true /\ JSNumber.truthy n = true.
Proof.
  unfold validateRest. simpl. intros H Hn Hnan. rewrite Hn in H.
  repeat (match type of H with
          | (if ?c then _ else _) = _ => destruct c eqn:?; [done|]
          end).
  simpl in *. rewrite leb_zero in * by done.
  destruct (JSNumber.ltb (JSNumber.ofZ 0) n) eqn:E; [|done].
  split; [done|]. by destruct n as [[]|[]| |[] m e].
Qed.

(** ** LIMIT and OFFSET *)

Lemma limitOffset_separator o n :
  isSeparator (limitOffsetText o n) = true.
Proof.
  unfold isSeparator, limitOffsetText.
  destruct (Opt.page o) as [page|]; cbn [isEmpty atBoundary negb andb];
    rewrite ?freeOf_app; cbn [freeOf]; rewrite ?freeOf_app;
    cbn [freeOf]; by rewrite ?freeOf_number by auto.
Qed.

(** The clauses after the sixth, as they stand in the assembled text. *)
Lemma limit_at_end front o n :
  List.filter truthy front <> [] ->
  Opt.page_size o = Some n -> JSNumber.truthy n = true ->
  joinClauses (front ++ [limitClause (Some o); offsetClause (Some o)])
  = joinClauses front +:+ limitOffsetText o n.
Proof.
  intros Hfront Hn Ht. rewrite joinClauses_app by done. f_equal.
  unfold limitClause, offsetClause, limitOffsetText. simpl.
  rewrite Hn, Ht. destruct (Opt.page o) as [page|]; simpl; [|done].
  unfold join. simpl. by rewrite ?app_assoc_s.
Qed.

Lemma graph_front_truthy withC query options fromC n :
  1 < n ->
  List.filter truthy (firstn n (CteGraph.clauses withC query options fromC))
  <> [].
Proof.
  intros Hn. destruct n as [|[|n]]; try lia. simpl.
  by destruct (truthy _).
Qed.

Lemma sqlts_front_truthy query options fromC n :
  1 < n ->
  List.filter truthy (firstn n (SqlTs.clauses query options fromC)) <> [].
Proof.
  intros Hn. destruct n as [|[|n]]; try lia. simpl.
  by destruct (truthy _).
Qed.

(** ** The WHERE clause *)

Lemma trim_onlyWhiteSpace w : onlyWhiteSpace w = true -> trim w = "".
Proof.
  unfold trim. induction w as [|c w IH]; simpl; [done|].
  intros [Hc Hw]%andb_prop. rewrite Hc. by apply IH.
Qed.

Lemma whereClause_blank query o w :
  truthyOpt (Query.where_ query) = false ->
  Opt.where_ o = Some w -> truthy w = true -> onlyWhiteSpace w = true ->
  whereClause query (Some o) = "WHERE ".
Proof.
  intros Hq Hw Ht Hs. unfold whereClause. simpl. rewrite Hq, Hw. simpl.
  rewrite Ht, (trim_onlyWhiteSpace w Hs). simpl.
  destruct (Query.where_ query) as [qw|]; [|done].
  simpl in Hq. by rewrite Hq.
Qed.

(** The clauses after the fourth, as they stand in the assembled text. *)
Lemma joinClauses_where front W options :
  List.filter truthy front <> [] ->
  joinClauses (front ++ [W; orderByClause options; limitClause options;
                         offsetClause options])
  = joinClauses front
    +:+ (if truthy W then " " +:+ W else "") +:+ trailingText options.
Proof.
  intros H. rewrite joinClauses_app by done. f_equal.
  unfold trailingText.
  change (List.filter truthy (W :: ?l))
    with (if truthy W then W :: List.filter truthy l
          else List.filter truthy l).
  generalize (List.filter truthy
                [orderByClause options; limitClause options;
                 offsetClause options]).
  intros l. destruct (truthy W); [|done].
  destruct l; simpl; [by rewrite app_empty_r | done].
Qed.

Lemma finish_iff run built :
  finish run = Ok built
  <-> exists t st,
        run initialState = Ok (t, st) /\ built = Built.mk t (paramsOut st).
Proof.
  split; [apply finish_inv|].
  intros (t & st & Hr & ->). unfold finish. by rewrite Hr.
Qed.

(** A composition on a text [x S y] succeeds exactly when the pass
    succeeds on [x] and then on [y]. *)
Lemma finish_around_separator pass x S y built :
  SplitsAtSeparators pass -> JoinsAtSeparators pass ->
  isSeparator S = true ->
  finish (pass (x +:+ S +:+ y)) = Ok built
  <-> exists a b st1 st2,
        pass x initialState = Ok (a, st1) /\ pass y st1 = Ok (b, st2)
        /\ built = Built.mk (a +:+ S +:+ b) (paramsOut st2).
Proof.
  intros Hsplit Hjoin HS. rewrite finish_iff. split.
  - intros (t & st & Ht & ->).
    destruct (Hsplit x S y initialState t st HS Ht)
      as (a & b & st1 & Ha & Hb & ->).
    by exists a, b, st1, st.
  - intros (a & b & st1 & st2 & Ha & Hb & ->).
    exists (a +:+ S +:+ b), st2. split; [|done].
    by apply (Hjoin x S y initialState a st1 b st2).
Qed.

(** C10. For a valid query with no filter of its own and an options filter
    that is not empty and made of white space only, the WHERE clause is the
    keyword with an empty condition list.  In both composers the assembled
    text is the clauses before it, then [WHERE], then the clauses after
    it, and the composition succeeds exactly when the passes succeed on the
    two sides; its output is then the output for the clauses before, the
    keyword followed by no condition, and the output for the clauses
    after. *)
Theorem C10_blank_filter_leaves_bare_where heap stack query o w :
  truthyOpt (Query.where_ query) = false ->
  Opt.where_ o = Some w -> truthy w = true -> onlyWhiteSpace w = true ->
  CteGraph.validateInputs query (Some o) = Ok tt ->
  whereClause query (Some o) = "WHERE " +:+ join " AND " []
  /\ exists fromC,
       fromClause query = Ok fromC
       /\ (forall withC,
             CteGraph.withClause heap stack query = Ok withC ->
             CteGraph.assemble heap stack query (Some o)
             = Ok (joinClauses
                     (firstn 4 (CteGraph.clauses withC query (Some o) fromC))
                   +:+ " WHERE " +:+ trailingText (Some o))
             /\ forall built,
                  CteGraph.buildComplexSQL heap stack query (Some o) = Ok built
                  <-> exists a b st1 st2,
                        graphPass (Some o)
                          (joinClauses
                             (firstn 4
                                (CteGraph.clauses withC query (Some o) fromC)))
                          initialState = Ok (a, st1)
                        /\ graphPass (Some o) (trailingText (Some o)) st1
                           = Ok (b, st2)
                        /\ built
                           = Built.mk (a +:+ " WHERE " +:+ b) (paramsOut st2))
       /\ SqlTs.assemble query (Some o)
          = Ok (joinClauses (firstn 4 (SqlTs.clauses query (Some o) fromC))
                +:+ " WHERE " +:+ trailingText (Some o))
       /\ forall built,
            SqlTs.buildComplexSQL query (Some o) = Ok built
            <-> exists a b st1 st2,
                  sqltsPass (Some o)
                    (joinClauses
                       (firstn 4 (SqlTs.clauses query (Some o) fromC)))
                    initialState = Ok (a, st1)
                  /\ sqltsPass (Some o) (trailingText (Some o)) st1
                     = Ok (b, st2)
                  /\ built = Built.mk (a +:+ " WHERE " +:+ b) (paramsOut st2).
Proof.
  intros Hq Hw Ht Hs Hv.
  pose proof (whereClause_blank query o w Hq Hw Ht Hs) as Hwhere.
  split; [done|].
  pose proof (validate_source_present _ _ Hv) as Hsrc.
  destruct (fromClause_with_source query Hsrc) as [fromC Hf].
  exists fromC. split; [done|]. split; [|split].
  - intros withC Hwith.
    assert (Ha : CteGraph.assemble heap stack query (Some o)
                 = Ok (joinClauses
                         (firstn 4
                            (CteGraph.clauses withC query (Some o) fromC))
                       +:+ " WHERE " +:+ trailingText (Some o))).
    { unfold CteGraph.assemble. rewrite Hwith, Hf. f_equal.
      rewrite <- (joinClauses_where _ "WHERE " _
                    (graph_front_truthy _ _ _ _ 4 ltac:(lia))).
      unfold CteGraph.clauses. by rewrite Hwhere. }
    split; [done|]. intros built.
    rewrite (graph_build_assembled _ _ _ _ _ Hv Ha).
    apply finish_around_separator;
      [apply graphPass_splits | apply graphPass_joins | done].
  - unfold SqlTs.assemble. rewrite Hf. f_equal.
    rewrite <- (joinClauses_where _ "WHERE " _
                  (sqlts_front_truthy _ _ _ 4 ltac:(lia))).
    unfold SqlTs.clauses. by rewrite Hwhere.
  - intros built.
    assert (Ha : SqlTs.assemble query (Some o)
                 = Ok (joinClauses
                         (firstn 4 (SqlTs.clauses query (Some o) fromC))
                       +:+ " WHERE " +:+ trailingText (Some o))).
    { unfold SqlTs.assemble. rewrite Hf. f_equal.
      rewrite <- (joinClauses_where _ "WHERE " _
                    (sqlts_front_truthy _ _ _ 4 ltac:(lia))).
      unfold SqlTs.clauses. by rewrite Hwhere. }
    rewrite (sqlts_build_assembled _ _ _
               (proj1 (validators_accept_the_same _ _) Hv) Ha).
    apply finish_around_separator;
      [apply sqltsPass_splits | apply sqltsPass_joins | done].
Qed.

(** ** Objects with ordered keys *)

Section Objects.
Context {V : Type}.
Implicit Types (o : list (string * V)) (k : string) (v : V).

Lemma hasKey_In k o : hasKey k o = true <-> In k (map fst o).
Proof.
  unfold hasKey. rewrite existsb_exists, in_map_iff. split.
  - intros (e & He & Hk%String.eqb_eq). by exists e.
  - intros (e & <- & He). exists e. by rewrite String.eqb_refl.
Qed.

Lemma hasKey_not_In k o : hasKey k o = false <-> ~ In k (map fst o).
Proof.
  rewrite <- hasKey_In. by destruct (hasKey k o).
Qed.

Lemma keys_replaceValue k v o : map fst (replaceValue k v o) = map fst o.
Proof.
  induction o as [|[k' v'] o IH]; simpl; [done|].
  destruct (k' =? k)%string; simpl; [done | by rewrite IH].
Qed.

Lemma keys_insertIndex n k v o :
  Permutation (map fst (insertIndex n k v o)) (k :: map fst o).
Proof.
  induction o as [|[k' v'] o IH]; simpl; [done|].
  destruct (arrayIndex k') as [n'|]; [|done].
  destruct (n' <? n)%N; [|done].
  simpl. rewrite IH. apply perm_swap.
Qed.

Lemma keys_setProperty_old o k v :
  hasKey k o = true -> map fst (setProperty o (k, v)) = map fst o.
Proof. intros H. unfold setProperty. rewrite H. apply keys_replaceValue. Qed.

Lemma keys_setProperty_new o k v :
  hasKey k o = false ->
  Permutation (map fst (setProperty o (k, v))) (k :: map fst o).
Proof.
  intros H. unfold setProperty. rewrite H.
  destruct (arrayIndex k) as [n|].
  - apply keys_insertIndex.
  - rewrite map_app. simpl. symmetry. apply Permutation_cons_append.
Qed.

Lemma NoDup_setProperty o e :
  NoDup (map fst o) -> NoDup (map fst (setProperty o e)).
Proof.
  destruct e as [k v]. intros H. destruct (hasKey k o) eqn:E.
  - by rewrite keys_setProperty_old.
  - rewrite (keys_setProperty_new o k v E).
    apply NoDup_cons_2; [|done].
    apply hasKey_not_In in E. by rewrite list_elem_of_In.
Qed.

Lemma In_keys_setProperty o e k :
  In k (map fst (setProperty o e)) <-> k = fst e \/ In k (map fst o).
Proof.
  destruct e as [k' v]. cbn [fst]. destruct (hasKey k' o) eqn:E.
  - rewrite keys_setProperty_old by done. apply hasKey_In in E.
    split; [auto|]. by intros [->|].
  - pose proof (keys_setProperty_new o k' v E) as P. split.
    + intros H. apply (Permutation_in _ P) in H. simpl in H.
      destruct H as [<-|]; auto.
    + intros H. apply (Permutation_in _ (Permutation_sym P)). simpl.
      destruct H as [->|]; auto.
Qed.

Lemma In_replaceValue k v o e :
  In e (replaceValue k v o) -> e = (k, v) \/ In e o.
Proof.
  induction o as [|[k' v'] o IH]; simpl; [auto|].
  destruct (String.eqb_spec k' k) as [->|]; simpl.
  - intros [<-|]; auto.
  - intros [<-|H]; auto. destruct (IH H); auto.
Qed.

Lemma In_insertIndex n k v o e :
  In e (insertIndex n k v o) -> e = (k, v) \/ In e o.
Proof.
  induction o as [|[k' v'] o IH]; simpl.
  - intros [<-|[]]; auto.
  - destruct (arrayIndex k') as [n'|]; [destruct (n' <? n)%N|]; simpl.
    + intros [<-|H]; auto. destruct (IH H); auto.
    + intros [<-|[<-|H]]; auto.
    + intros [<-|[<-|H]]; auto.
Qed.

Lemma In_setProperty o e e' :
  In e' (setProperty o e) -> e' = e \/ In e' o.
Proof.
  destruct e as [k v]. unfold setProperty.
  destruct (hasKey k o); [apply In_replaceValue|].
  destruct (arrayIndex k); [apply In_insertIndex|].
  rewrite in_app_iff. simpl. intros [|[<-|[]]]; auto.
Qed.

Lemma NoDup_fold_setProperty es o :
  NoDup (map fst o) -> NoDup (map fst (fold_left setProperty es o)).
Proof.
  revert o. induction es as [|e es IH]; intros o H; simpl; [done|].
  by apply IH, NoDup_setProperty.
Qed.

Lemma In_keys_fold_setProperty es o k :
  In k (map fst (fold_left setProperty es o))
  <-> In k (map fst es) \/ In k (map fst o).
Proof.
  revert o. induction es as [|e es IH]; intros o; simpl; [tauto|].
  rewrite IH, In_keys_setProperty. intuition congruence.
Qed.

Lemma In_fold_setProperty es o e :
  In e (fold_left setProperty es o) -> In e es \/ In e o.
Proof.
  revert o. induction es as [|e' es IH]; intros o; simpl; [tauto|].
  intros [H|H]%IH; [tauto|].
  apply In_setProperty in H as [->|]; tauto.
Qed.

Lemma NoDup_spread (a b : list (string * V)) : NoDup (map fst (spread a b)).
Proof. apply NoDup_fold_setProperty. constructor. Qed.

Lemma In_keys_spread (a b : list (string * V)) k :
  In k (map fst (spread a b)) <-> In k (map fst a) \/ In k (map fst b).
Proof.
  unfold spread. rewrite In_keys_fold_setProperty, map_app, in_app_iff.
  simpl. tauto.
Qed.

Lemma In_spread (a b : list (string * V)) e :
  In e (spread a b) -> In e a \/ In e b.
Proof.
  unfold spread. intros [H|[]]%In_fold_setProperty.
  by apply in_app_iff.
Qed.
End Objects.

Section KeyOrder.
Context {V : Type}.
Implicit Types (o : list (string * V)) (k : string) (v : V).

Lemma namedKeys_app o1 o2 : namedKeys (o1 ++ o2) = namedKeys o1 ++ namedKeys o2.
Proof. unfold namedKeys. by rewrite map_app, List.filter_app. Qed.

Lemma namedKeys_insertIndex n k v o :
  arrayIndex k = Some n -> namedKeys (insertIndex n k v o) = namedKeys o.
Proof.
  intros Hk.
  assert (Hnot : isNamedKey k = false) by (unfold isNamedKey; by rewrite Hk).
  unfold namedKeys.
  induction o as [|[k' v'] o IH]; simpl; [by rewrite Hnot|].
  destruct (arrayIndex k') as [n'|] eqn:E; [destruct (n' <? n)%N|]; simpl;
    rewrite ?Hnot; [|done|done].
  by rewrite IH.
Qed.

Lemma hasKey_namedKeys k o :
  isNamedKey k = true -> hasKey k o = existsb (String.eqb k) (namedKeys o).
Proof.
  intros Hk. unfold hasKey, namedKeys.
  induction o as [|[k' v'] o IH]; simpl; [done|].
  rewrite IH. destruct (isNamedKey k') eqn:E; simpl.
  - by rewrite (String.eqb_sym k' k).
  - destruct (String.eqb_spec k' k) as [->|]; [congruence|done].
Qed.

Lemma namedKeys_setProperty o k v :
  namedKeys (setProperty o (k, v))
  = if isNamedKey k then addFirstSeen (namedKeys o) k else namedKeys o.
Proof.
  unfold addFirstSeen.
  destruct (isNamedKey k) eqn:Hk.
  - rewrite <- (hasKey_namedKeys k o Hk). unfold setProperty.
    destruct (hasKey k o).
    + unfold namedKeys. by rewrite keys_replaceValue.
    + destruct (arrayIndex k) eqn:E;
        [unfold isNamedKey in Hk; by rewrite E in Hk|].
      rewrite namedKeys_app. unfold namedKeys at 2. simpl.
      by rewrite Hk.
  - unfold setProperty. destruct (hasKey k o).
    + unfold namedKeys. by rewrite keys_replaceValue.
    + unfold isNamedKey in Hk.
      destruct (arrayIndex k) as [n|] eqn:E; [|done].
      by apply namedKeys_insertIndex.
Qed.

Lemma namedKeys_fold_setProperty es o :
  namedKeys (fold_left setProperty es o)
  = fold_left addFirstSeen (namedKeys es) (namedKeys o).
Proof.
  revert o. induction es as [|[k v] es IH]; intros o; cbn [fold_left];
    [done|].
  rewrite IH, namedKeys_setProperty.
  change (namedKeys ((k, v) :: es))
    with (if isNamedKey k then k :: namedKeys es else namedKeys es).
  by destruct (isNamedKey k).
Qed.

Lemma lookupKey_In k v o :
  NoDup (map fst o) -> lookupKey k o = Some v <-> In (k, v) o.
Proof.
  unfold lookupKey. induction o as [|[k' v'] o IH]; simpl; intros Hnd.
  - split; [done|tauto].
  - apply NoDup_cons in Hnd as [Hk' Hnd].
    destruct (String.eqb_spec k' k) as [->|Hne]; simpl.
    + split; [intros [= ->]; by left|].
      intros [[= ->]|Hin]; [done|].
      exfalso. apply Hk'. apply list_elem_of_In, in_map_iff.
      by exists (k, v).
    + rewrite (IH Hnd). split; [tauto|].
      intros [[= -> _]|]; [done|tauto].
Qed.

Lemma lookupKey_rev k o :
  NoDup (map fst o) -> lookupKey k (rev o) = lookupKey k o.
Proof.
  intros Hnd.
  assert (Hrev : NoDup (map fst (rev o))).
  { rewrite map_rev. by rewrite <- Permutation_rev. }
  destruct (lookupKey k o) as [v|] eqn:E.
  - apply lookupKey_In; [done|]. apply in_rev. rewrite rev_involutive.
    by apply lookupKey_In.
  - destruct (lookupKey k (rev o)) as [v|] eqn:E'; [|done].
    apply lookupKey_In in E'; [|done]. apply in_rev in E'.
    apply (lookupKey_In k v o Hnd) in E'. congruence.
Qed.

Lemma lookupKey_app k o1 o2 :
  lookupKey k (o1 ++ o2)
  = match lookupKey k o1 with
    | Some v => Some v
    | None => lookupKey k o2
    end.
Proof.
  unfold lookupKey. induction o1 as [|[k' v'] o1 IH]; simpl; [done|].
  by destruct (k' =? k)%string.
Qed.

Lemma lookupKey_None k o : hasKey k o = false -> lookupKey k o = None.
Proof.
  unfold hasKey, lookupKey. induction o as [|[k' v'] o IH]; simpl; [done|].
  destruct (k' =? k)%string; simpl; [done|]. apply IH.
Qed.

Lemma lookupKey_replaceValue k k' v' o :
  hasKey k' o = true ->
  lookupKey k (replaceValue k' v' o)
  = if (k' =? k)%string then Some v' else lookupKey k o.
Proof.
  unfold hasKey, lookupKey.
  induction o as [|[k1 v1] o IH]; simpl; [done|].
  destruct (String.eqb_spec k1 k') as [->|Hne]; simpl.
  - intros _. by destruct (k' =? k)%string.
  - intros H. destruct (String.eqb_spec k1 k) as [->|Hne']; simpl.
    + destruct (String.eqb_spec k' k) as [->|]; done.
    + by apply IH.
Qed.

Lemma lookupKey_insertIndex k n k' v' o :
  hasKey k' o = false ->
  lookupKey k (insertIndex n k' v' o)
  = if (k' =? k)%string then Some v' else lookupKey k o.
Proof.
  unfold hasKey, lookupKey.
  induction o as [|[k1 v1] o IH]; simpl;
    [by destruct (k' =? k)%string|].
  destruct (String.eqb_spec k1 k') as [->|Hne]; simpl; [done|].
  intros H.
  destruct (arrayIndex k1) as [n1|]; [destruct (n1 <? n)%N|]; simpl;
    try (by destruct (k' =? k)%string).
  destruct (String.eqb_spec k1 k) as [->|Hne']; simpl.
  - destruct (String.eqb_spec k' k) as [->|]; done.
  - by apply IH.
Qed.

Lemma lookupKey_setProperty k k' v' o :
  lookupKey k (setProperty o (k', v'))
  = if (k' =? k)%string then Some v' else lookupKey k o.
Proof.
  unfold setProperty. destruct (hasKey k' o) eqn:E.
  - by apply lookupKey_replaceValue.
  - destruct (arrayIndex k'); [by apply lookupKey_insertIndex|].
    rewrite lookupKey_app. unfold lookupKey at 2. simpl.
    destruct (String.eqb_spec k' k) as [->|]; simpl.
    + by rewrite lookupKey_None.
    + by destruct (lookupKey k o).
Qed.

(** The last value set under a key is the one the object holds. *)
Lemma lookupKey_fold_setProperty k es o :
  lookupKey k (fold_left setProperty es o)
  = match lookupKey k (rev es) with
    | Some v => Some v
    | None => lookupKey k o
    end.
Proof.
  revert o. induction es as [|[k' v'] es IH]; intros o;
    cbn [fold_left rev]; [done|].
  rewrite IH, lookupKey_app, lookupKey_setProperty.
  destruct (lookupKey k (rev es)); [done|].
  unfold lookupKey at 2. simpl. by destruct (k' =? k)%string.
Qed.
End KeyOrder.

Lemma firstSeen_fresh acc keys :
  NoDup (acc ++ keys) -> fold_left addFirstSeen keys acc = acc ++ keys.
Proof.
  revert acc. induction keys as [|k keys IH]; intros acc H; simpl.
  - by rewrite app_nil_r.
  - assert (Hk : existsb (String.eqb k) acc = false).
    { destruct (existsb (String.eqb k) acc) eqn:E; [|done].
      apply existsb_exists in E as (x & Hx & ->%String.eqb_eq).
      apply NoDup_app in H as (_ & Hdis & _).
      exfalso. apply (Hdis x); [by apply list_elem_of_In | by left]. }
    unfold addFirstSeen at 2. rewrite Hk.
    rewrite IH; rewrite <- app_assoc; done.
Qed.

(** ** The WITH clause *)

Lemma flat_map_map {A B C} (f : B -> C) (g : A -> list B) xs :
  map f (flat_map g xs) = flat_map (fun x => map f (g x)) xs.
Proof.
  induction xs as [|x xs IH]; simpl; [done|]. by rewrite map_app, IH.
Qed.

Lemma flat_map_agree {A B} (f g : A -> list B) xs :
  (forall x, In x xs -> f x = g x) -> flat_map f xs = flat_map g xs.
Proof.
  induction xs as [|x xs IH]; simpl; [done|].
  intros H. rewrite (H x) by auto. by rewrite IH by auto.
Qed.

(** An expansion that fits gives the CTEs of the views [expandViews]
    lists. *)
Lemma expandQueryView_fits heap stack v :
  fits heap stack v = true ->
  CteGraph.expandQueryView heap stack v
  = Ok (map (fun w => CteGraph.viewCTE (heap w)) (expandViews heap stack v)).
Proof.
  revert v. induction stack as [|below IH]; intros v; [done|].
  cbn [fits CteGraph.expandQueryView expandViews]. unfold dependencies.
  intros Hall. rewrite forallb_forall in Hall.
  rewrite (flatMapResult_ok _
             (fun entry => map (fun w => CteGraph.viewCTE (heap w))
                             (expandViews heap below (snd entry)))).
  - by rewrite map_app, flat_map_map.
  - intros entry Hin. by apply IH, Hall.
Qed.

(** An expansion that does not fit ends in the [RangeError]. *)
Lemma expandQueryView_overflow heap stack v :
  fits heap stack v = false ->
  CteGraph.expandQueryView heap stack v
  = Throw (RangeError "Maximum call stack size exceeded").
Proof.
  intros H.
  destruct (CteGraph.expandQueryView heap stack v) as [result|e] eqn:E.
  - exfalso. revert v result H E.
    induction stack as [|below IH]; intros v result H E; [done|].
    cbn [fits CteGraph.expandQueryView] in *. unfold dependencies in H.
    induction (default [] (View.dependsOn (heap v))) as [|entry entries IHe]
      in result, H, E |- *; [done|].
    cbn [forallb flatMapResult] in *.
    destruct (CteGraph.expandQueryView heap below (snd entry))
      as [ys|e] eqn:Ey; [|done].
    destruct (fits heap below (snd entry)) eqn:Ef; [|by eapply IH].
    simpl in H.
    destruct (flatMapResult _ entries) as [zs|e] eqn:Ez; [|done].
    by apply (IHe (zs ++ [CteGraph.viewCTE (heap v)])).
  - by apply expandQueryView_throw in E as ->.
Qed.

Lemma withEntries_views heap stack subqueries :
  allFit heap stack subqueries = true ->
  CteGraph.withEntries heap stack subqueries
  = Ok (map (fun w => CteGraph.viewCTE (heap w))
          (emittedViews heap stack subqueries)
        ++ map subqueryCTE subqueries).
Proof.
  unfold allFit, CteGraph.withEntries, emittedViews. intros Hall.
  rewrite forallb_forall in Hall.
  rewrite (flatMapResult_ok _
             (fun entry => map (fun w => CteGraph.viewCTE (heap w))
                             (expandViews heap stack (snd entry)))).
  - by rewrite flat_map_map.
  - intros entry Hin. by apply expandQueryView_fits, Hall.
Qed.

Lemma withEntries_overflow heap stack subqueries :
  allFit heap stack subqueries = false ->
  CteGraph.withEntries heap stack subqueries
  = Throw (RangeError "Maximum call stack size exceeded").
Proof.
  unfold allFit, CteGraph.withEntries.
  induction (CteGraph.depWithClauses subqueries) as [|entry entries IH];
    [done|].
  cbn [forallb flatMapResult].
  destruct (fits heap stack (snd entry)) eqn:Ef.
  - rewrite expandQueryView_fits by done. simpl. intros H.
    specialize (IH H).
    by destruct (flatMapResult _ entries) as [zs|e]; [|injection IH as ->].
  - by rewrite expandQueryView_overflow.
Qed.

(** The views of an expansion that fits are the views reached. *)
Lemma expandViews_reaches heap stack v w :
  fits heap stack v = true ->
  In w (expandViews heap stack v) <-> Reaches heap v w.
Proof.
  intros Hfit. split.
  - revert v Hfit. induction stack as [|below IH]; intros v Hfit; [done|].
    cbn [fits expandViews] in *. rewrite forallb_forall in Hfit.
    rewrite in_app_iff, in_flat_map.
    intros [((k & d) & Hin & Hw)|[<-|[]]]; [|constructor].
    apply (reaches_step _ _ k d); [done|].
    apply IH; [by apply (Hfit (k, d))|done].
  - intros Hr. revert stack Hfit.
    induction Hr as [v|v k d w Hin _ IH]; intros stack Hfit;
      (destruct stack as [|below]; [done|]);
      cbn [fits expandViews] in *; rewrite in_app_iff.
    + right. by left.
    + left. rewrite in_flat_map. exists (k, d). split; [done|].
      apply IH. rewrite forallb_forall in Hfit. by apply (Hfit (k, d)).
Qed.

(** More room changes nothing. *)
Lemma fits_more heap stack v :
  fits heap stack v = true ->
  fits heap (S stack) v = true
  /\ expandViews heap (S stack) v = expandViews heap stack v.
Proof.
  revert v. induction stack as [|below IH]; intros v; [done|].
  intros Hfit.
  change (fits heap (S below) v)
    with (forallb (fun entry => fits heap below (snd entry))
            (dependencies heap v)) in Hfit.
  rewrite forallb_forall in Hfit.
  change (fits heap (S (S below)) v)
    with (forallb (fun entry => fits heap (S below) (snd entry))
            (dependencies heap v)).
  change (expandViews heap (S (S below)) v)
    with (flat_map (fun entry => expandViews heap (S below) (snd entry))
            (dependencies heap v) ++ [v]).
  change (expandViews heap (S below) v)
    with (flat_map (fun entry => expandViews heap below (snd entry))
            (dependencies heap v) ++ [v]).
  split.
  - apply forallb_forall. intros entry Hin. by apply IH, Hfit.
  - f_equal. apply flat_map_agree. intros entry Hin. by apply IH, Hfit.
Qed.

(** A view that reaches a view on a cycle fits in no stack. *)
Lemma cycle_never_fits heap stack v c :
  Reaches heap v c -> OnCycle heap c -> fits heap stack v = false.
Proof.
  intros Hr Hc. revert v Hr.
  induction stack as [|below IH]; intros v Hr; [done|].
  assert (Hdep : exists k d, In (k, d) (dependencies heap v)
                             /\ Reaches heap d c).
  { destruct Hr as [v|v k d w Hin Hr]; [exact Hc|]. by exists k, d. }
  destruct Hdep as (k & d & Hin & Hd).
  cbn [fits].
  destruct (forallb _ (dependencies heap v)) eqn:E; [|done].
  rewrite forallb_forall in E. specialize (E (k, d) Hin). simpl in E.
  by rewrite (IH d Hd) in E.
Qed.

Lemma depWithClauses_fold subqueries :
  CteGraph.depWithClauses subqueries = fold_left mergeDependsOn subqueries [].
Proof. done. Qed.

Lemma declaredEntries_cons subquery subqueries :
  declaredEntries (subquery :: subqueries)
  = default [] (Sub.dependsOn subquery) ++ declaredEntries subqueries.
Proof. done. Qed.

Lemma merge_NoDup subqueries acc :
  NoDup (map fst acc) ->
  NoDup (map fst (fold_left mergeDependsOn subqueries acc)).
Proof.
  revert acc. induction subqueries as [|s subqueries IH]; intros acc H;
    cbn [fold_left]; [done|].
  apply IH. unfold mergeDependsOn.
  destruct (Sub.dependsOn s); [apply NoDup_spread | done].
Qed.

Lemma merge_keys subqueries acc k :
  In k (map fst (fold_left mergeDependsOn subqueries acc))
  <-> In k (map fst (declaredEntries subqueries)) \/ In k (map fst acc).
Proof.
  revert acc. induction subqueries as [|s subqueries IH]; intros acc;
    cbn [fold_left]; [simpl; tauto|].
  rewrite IH, declaredEntries_cons, map_app, in_app_iff.
  unfold mergeDependsOn. destruct (Sub.dependsOn s) as [d|]; simpl.
  - rewrite In_keys_spread. tauto.
  - tauto.
Qed.

Lemma NoDup_namedKeys {V} (o : list (string * V)) :
  NoDup (map fst o) -> NoDup (namedKeys o).
Proof.
  unfold namedKeys. induction (map fst o) as [|k ks IH]; simpl; [done|].
  intros [Hk Hks]%NoDup_cons. destruct (isNamedKey k); [|by apply IH].
  apply NoDup_cons. split; [|by apply IH].
  rewrite list_elem_of_In, filter_In. rewrite list_elem_of_In in Hk. tauto.
Qed.

Lemma spread_namedKeys (acc d : list (string * View.Ref)) :
  NoDup (map fst acc) ->
  namedKeys (spread acc d)
  = fold_left addFirstSeen (namedKeys d) (namedKeys acc).
Proof.
  intros H. unfold spread.
  rewrite namedKeys_fold_setProperty, namedKeys_app, fold_left_app.
  f_equal. apply (firstSeen_fresh [] (namedKeys acc)).
  by apply NoDup_namedKeys.
Qed.

Lemma merge_namedKeys subqueries acc :
  NoDup (map fst acc) ->
  namedKeys (fold_left mergeDependsOn subqueries acc)
  = fold_left addFirstSeen (namedKeys (declaredEntries subqueries))
      (namedKeys acc).
Proof.
  revert acc. induction subqueries as [|s subqueries IH]; intros acc H;
    cbn [fold_left]; [done|].
  rewrite declaredEntries_cons, namedKeys_app, fold_left_app.
  unfold mergeDependsOn at 2. destruct (Sub.dependsOn s) as [d|]; simpl.
  - rewrite IH by apply NoDup_spread. by rewrite spread_namedKeys.
  - by rewrite IH.
Qed.

Lemma spread_lookupKey (acc d : list (string * View.Ref)) k :
  NoDup (map fst acc) ->
  lookupKey k (spread acc d)
  = match lookupKey k (rev d) with
    | Some v => Some v
    | None => lookupKey k acc
    end.
Proof.
  intros H. unfold spread.
  rewrite lookupKey_fold_setProperty, rev_app_distr, lookupKey_app.
  rewrite (lookupKey_rev k acc H).
  destruct (lookupKey k (rev d)); [done|]. by destruct (lookupKey k acc).
Qed.

Lemma merge_lookupKey subqueries acc k :
  NoDup (map fst acc) ->
  lookupKey k (fold_left mergeDependsOn subqueries acc)
  = match lookupKey k (rev (declaredEntries subqueries)) with
    | Some v => Some v
    | None => lookupKey k acc
    end.
Proof.
  revert acc. induction subqueries as [|s subqueries IH]; intros acc H;
    cbn [fold_left]; [done|].
  rewrite declaredEntries_cons, rev_app_distr, lookupKey_app.
  unfold mergeDependsOn at 2. destruct (Sub.dependsOn s) as [d|]; simpl.
  - rewrite IH by apply NoDup_spread. rewrite spread_lookupKey by done.
    by destruct (lookupKey k (rev (declaredEntries subqueries))).
  - rewrite IH by done.
    by destruct (lookupKey k (rev (declaredEntries subqueries))).
Qed.

(** * The claims on the example requests *)

Import Examples.

(** C1, the failing input.  Component [c1] depends on view A, which depends
    on view B, and component [c2] depends on B.  Whatever room the call
    stack has beyond the two nested calls, the WITH clause lists B twice:
    once before A, on the way to A, and once more for [c2]. *)
Theorem C1_shared_view_listed_twice stack :
  CteGraph.buildWithClause views (2 + stack) [onA; onB]
  = Ok "WITH B AS (SELECT 2), A AS (SELECT 1 FROM B), B AS (SELECT 2), c1 AS (SELECT * FROM A), c2 AS (SELECT * FROM B)"
  /\ map (fun w => emittedName (views w))
       (emittedViews views (2 + stack) [onA; onB])
     = ["B"; "A"; "B"]
  /\ ~ NoDup (map (fun w => emittedName (views w))
                (emittedViews views (2 + stack) [onA; onB]))
  /\ CteGraph.buildComplexSQL views (2 + stack) usersWithViews None
     = Ok (Built.mk
             ("WITH B AS (SELECT 2), A AS (SELECT 1 FROM B), B AS (SELECT 2), c1 AS (SELECT * FROM A), c2 AS (SELECT * FROM B) SELECT u.id AS id, x.n AS n, y.m AS m FROM users AS u JOIN c1 AS x ON x.id = u.id"
              +:+ String "010" "LEFT JOIN c2 AS y ON y.id = u.id")
             []).
Proof.
  split; [reflexivity|]. split; [reflexivity|]. split; [|reflexivity].
  change (map (fun w => emittedName (views w))
            (emittedViews views (2 + stack) [onA; onB]))
    with ["B"; "A"; "B"].
  intros [Hin _]%NoDup_cons. apply Hin. set_solver.
Qed.

(** C2, the failing input.  Two order terms, a page and a page size, and
    no [params]: the SELECT clause of the composer itself carries the two
    macros, and they stay in the output.  A macro in a filter stays too,
    and without order terms nothing fails. *)
Theorem C2_macros_kept_without_params heap stack :
  CteGraph.buildComplexSQL heap stack users (Some pagedWithoutParams)
  = Ok (Built.mk
          "SELECT u.id AS id, u.name AS name, COUNT(u.id) OVER (ORDER BY $rev_order_by) - 1 AS _sql_util_remaining, COUNT(u.id) OVER (ORDER BY $order_by) AS _sql_util_num FROM users AS u ORDER BY created_at DESC, id ASC LIMIT 10 OFFSET 20"
          [])
  /\ CteGraph.buildComplexSQL heap stack users (Some macroWithoutParams)
     = Ok (Built.mk
             "SELECT u.id AS id, u.name AS name FROM users AS u WHERE (u.rank <= $order_by)"
             []).
Proof. split; reflexivity. Qed.


(** Of two placeholders that are not in [params], the first is the one
    reported. *)
Example first_missing_parameter_wins :
  CteGraph.buildComplexSQL views 10 users (Some missingTwo)
  = Throw (SQLBuildError "Missing parameter: user_id")
  /\ SqlTs.buildComplexSQL users (Some missingTwo)
     = Throw (SQLBuildError "Missing parameter: user_id").
Proof. split; reflexivity. Qed.

(** A name that [params] inherits from [Object.prototype] is found by
    [in]: no error, and the inherited member is the bound value. *)
Example inherited_name_is_found :
  CteGraph.buildComplexSQL views 10 users (Some inheritedName)
  = Ok (Built.mk
          "SELECT u.id AS id, u.name AS name FROM users AS u WHERE (u.id = ?)"
          [VInherited "constructor"]).
Proof. reflexivity. Qed.


Lemma C4_witness :
  exists built,
    CteGraph.buildComplexSQL views 10 users (Some pagedWithParams) = Ok built
    /\ Built.params built
       = [VNumber (JSNumber.ofZ 1); VNumber (JSNumber.ofZ 1)]
    /\ entriesFor "user_id" ["user_id"; "user_id"] (Built.params built)
       = [VNumber (JSNumber.ofZ 1); VNumber (JSNumber.ofZ 1)].
Proof.
  destruct (proj1 (C4_one_entry_per_occurrence_in_order views 10 users
                     pagedWithParams
                     (<["user_id" := VNumber (JSNumber.ofZ 1)]> ∅) eq_refl)
              "SELECT u.id AS id, u.name AS name, COUNT(u.id) OVER (ORDER BY created_at ASC, id DESC) - 1 AS _sql_util_remaining, COUNT(u.id) OVER (ORDER BY created_at DESC, id ASC) AS _sql_util_num FROM users AS u WHERE (u.id = ?user_id OR u.parent = ?user_id) ORDER BY created_at DESC, id ASC LIMIT 10 OFFSET 20"
              ltac:(vm_compute; reflexivity) ltac:(vm_compute; reflexivity)
              ltac:(vm_compute; repeat constructor))
    as (built & Hbuilt & _ & Hparams & _).
  exists built. split; [exact Hbuilt|].
  rewrite Hparams. split; vm_compute; reflexivity.
Defined.

(** C4, counterexample.  The assembled text has the placeholder [?pin]
    once, in the ORDER BY clause, and [pin] is in [params]; the two macros
    of the SELECT clause copy the order terms, so the text the [?name] pass
    scans has it three times and the parameter list has three entries. *)
Lemma C4_macros_multiply_placeholders :
  CteGraph.assemble views 10 users (Some pinnedFirst)
  = Ok "SELECT u.id AS id, u.name AS name, COUNT(u.id) OVER (ORDER BY $rev_order_by) - 1 AS _sql_util_remaining, COUNT(u.id) OVER (ORDER BY $order_by) AS _sql_util_num FROM users AS u ORDER BY CASE WHEN u.id = ?pin THEN 0 ELSE 1 END ASC, id ASC LIMIT 10 OFFSET 0"
  /\ occurrences "pin"
       (placeholderNames
          "SELECT u.id AS id, u.name AS name, COUNT(u.id) OVER (ORDER BY $rev_order_by) - 1 AS _sql_util_remaining, COUNT(u.id) OVER (ORDER BY $order_by) AS _sql_util_num FROM users AS u ORDER BY CASE WHEN u.id = ?pin THEN 0 ELSE 1 END ASC, id ASC LIMIT 10 OFFSET 0")
     = 1
  /\ hasProperty "pin" (<["pin" := VNumber (JSNumber.ofZ 5)]> ∅) = true
  /\ CteGraph.buildComplexSQL views 10 users (Some pinnedFirst)
     = Ok (Built.mk
             "SELECT u.id AS id, u.name AS name, COUNT(u.id) OVER (ORDER BY CASE WHEN u.id = ? THEN 0 ELSE 1 END DESC, id DESC) - 1 AS _sql_util_remaining, COUNT(u.id) OVER (ORDER BY CASE WHEN u.id = ? THEN 0 ELSE 1 END ASC, id ASC) AS _sql_util_num FROM users AS u ORDER BY CASE WHEN u.id = ? THEN 0 ELSE 1 END ASC, id ASC LIMIT 10 OFFSET 0"
             [VNumber (JSNumber.ofZ 5); VNumber (JSNumber.ofZ 5);
              VNumber (JSNumber.ofZ 5)]).
Proof. repeat split; vm_compute; reflexivity. Qed.

Lemma C5_witness :
  CteGraph.selectFields users (Some pagedWithParams)
  = [ "u.id AS id"; "u.name AS name";
      "COUNT(u.id) OVER (ORDER BY $rev_order_by) - 1 AS _sql_util_remaining";
      "COUNT(u.id) OVER (ORDER BY $order_by) AS _sql_util_num" ]
  /\ CteGraph.selectFields users (Some newestFirst)
     = ["u.id AS id"; "u.name AS name"].
Proof.
  destruct (C5_window_columns_iff_paginated users (Some pagedWithParams))
    as (_ & Hyes & _).
  destruct (C5_window_columns_iff_paginated users (Some newestFirst))
    as (_ & _ & Hno).
  split.
  - apply Hyes.
    exists pagedWithParams, ["created_at DESC"; "id ASC"],
      (JSNumber.ofZ 2), (JSNumber.ofZ 10).
    repeat split. simpl. lia.
  - apply Hno.
    intros (o & terms & page & size & Ho & Hterms & Hlen & Hpage & _).
    injection Ho as <-. discriminate Hpage.
Defined.

Lemma C6_witness :
  CteGraph.paginateData pagedRows None None
  = Ok {| CteGraph.data := pagedRows;
          CteGraph.pagination :=
            {| CteGraph.page := JSNumber.ofZ 0;
               CteGraph.limit := JSNumber.ofZ 10;
               CteGraph.total := JSNumber.ofZ 3;
               CteGraph.has_more := true |} |}
  /\ CteGraph.paginateData
       [ {| CteGraph.row := "Carol"; CteGraph._sql_util_remaining := None;
            CteGraph._sql_util_num := None |} ] (Some (JSNumber.ofZ 1)) None
     = Throw (Error
                "order_by, page, and page_size are required for pagination").
Proof.
  split.
  - destruct (proj1 (C6_paginate_total_and_has_more
                       {| CteGraph.row := "Alice";
                          CteGraph._sql_util_remaining :=
                            Some (JSNumber.ofZ 2);
                          CteGraph._sql_util_num := Some (JSNumber.ofZ 1) |}
                       [ {| CteGraph.row := "Bob";
                            CteGraph._sql_util_remaining :=
                              Some (JSNumber.ofZ 1);
                            CteGraph._sql_util_num :=
                              Some (JSNumber.ofZ 2) |} ]
                       None None))
      as (remaining & num & lastRemaining & H1 & H2 & H3 & H4).
    + repeat constructor; simpl; eauto.
    + simpl in H1, H2, H3.
      injection H1 as <-. injection H2 as <-. injection H3 as <-.
      exact H4.
  - apply (proj2 (C6_paginate_total_and_has_more
                    {| CteGraph.row := "Carol";
                       CteGraph._sql_util_remaining := None;
                       CteGraph._sql_util_num := None |} []
                    (Some (JSNumber.ofZ 1)) None)).
    left. reflexivity.
Defined.

(** C7, the failing input.  [page_size: NaN] is a number and is not
    [<= 0]: both validators return, although [NaN > 0] is false and the
    first violated precondition is (e).  The same holds of [page: NaN] and
    (d). *)
Theorem C7_not_a_number_is_accepted :
  CteGraph.validateInputs users (Some sizeNaN) = Ok tt
  /\ SqlTs.validateInputs users (Some sizeNaN) = Ok tt
  /\ JSNumber.ltb (JSNumber.ofZ 0) JSNumber.NaN = false
  /\ firstViolation
       (violations "sourceTable is required and must be a string" users
          (Some sizeNaN))
     = Throw (SQLBuildError "page_size must be a positive number")
  /\ CteGraph.validateInputs users (Some pageNaN) = Ok tt
  /\ SqlTs.validateInputs users (Some pageNaN) = Ok tt
  /\ JSNumber.leb (JSNumber.ofZ 0) JSNumber.NaN = false
  /\ firstViolation
       (violations "sourceTable is required and must be a string" users
          (Some pageNaN))
     = Throw (SQLBuildError "page must be a positive number").
Proof. repeat split; reflexivity. Qed.

(** C8, the failing input.  [{ page: 2, page_size: NaN }] passes
    validation; NaN is falsy, so there is no LIMIT clause, and the OFFSET
    clause is [OFFSET NaN]. *)
Theorem C8_no_limit_for_not_a_number heap stack :
  Opt.page_size sizeNaN = Some JSNumber.NaN
  /\ CteGraph.buildComplexSQL heap stack users (Some sizeNaN)
     = Ok (Built.mk
             "SELECT u.id AS id, u.name AS name FROM users AS u OFFSET NaN" [])
  /\ SqlTs.buildComplexSQL users (Some sizeNaN)
     = Ok (Built.mk
             "SELECT u.id AS id, u.name AS name FROM users AS u OFFSET NaN"
             []).
Proof. repeat split; reflexivity. Qed.

Lemma C9_witness :
  CteGraph.buildComplexSQL views 10 users (Some otherToken)
  = Ok (Built.mk
          "SELECT u.id AS id, u.name AS name FROM users AS u WHERE (u.org =  AND u.id = ?)"
          [VNumber (JSNumber.ofZ 7)])
  /\ CteGraph.buildComplexSQL views 10 users (Some macroWithoutParams)
     = Ok (Built.mk
             "SELECT u.id AS id, u.name AS name FROM users AS u WHERE (u.rank <= $order_by)"
             []).
Proof.
  split.
  - etransitivity.
    + apply (proj1 (C9_other_dollar_tokens_deleted views 10 users
                      (Some otherToken)
                      "SELECT u.id AS id, u.name AS name FROM users AS u WHERE (u.org = $tenant AND u.id = ?id)"
                      eq_refl eq_refl)
               (<["id" := VNumber (JSNumber.ofZ 7)]> ∅)
               "SELECT u.id AS id, u.name AS name FROM users AS u WHERE (u.org = "
               "tenant" " AND u.id = ?id)"
               eq_refl eq_refl eq_refl eq_refl eq_refl).
    + vm_compute. reflexivity.
  - apply (proj2 (C9_other_dollar_tokens_deleted views 10 users
                    (Some macroWithoutParams)
                    "SELECT u.id AS id, u.name AS name FROM users AS u WHERE (u.rank <= $order_by)"
                    eq_refl eq_refl)).
    reflexivity.
Defined.

Lemma C10_witness :
  CteGraph.buildComplexSQL views 10 users (Some blankFilter)
  = Ok (Built.mk "SELECT u.id AS id, u.name AS name FROM users AS u WHERE "
          [])
  /\ SqlTs.buildComplexSQL users (Some blankFilter)
     = Ok (Built.mk "SELECT u.id AS id, u.name AS name FROM users AS u WHERE "
             []).
Proof.
  destruct (C10_blank_filter_leaves_bare_where views 10 users blankFilter " "
              eq_refl eq_refl eq_refl eq_refl eq_refl)
    as (_ & fromC & Hf & Hgraph & _ & Hsqlts).
  vm_compute in Hf. injection Hf as <-.
  split.
  - apply (proj2 (Hgraph "" eq_refl)).
    exists "SELECT u.id AS id, u.name AS name FROM users AS u", "",
      initialState, initialState.
    repeat split.
  - apply Hsqlts.
    exists "SELECT u.id AS id, u.name AS name FROM users AS u", "",
      initialState, initialState.
    repeat split.
Defined.

(** * Further properties of the code *)

(** ** [sanitizeIdentifier] *)

Lemma allIdentChars_keep s : allIdentChars (keepIdentChars s) = true.
Proof.
  induction s as [|c s IH]; simpl; [done|].
  destruct (isIdentChar c) eqn:E; simpl; [by rewrite E|done].
Qed.

Lemma keepIdentChars_clean s : allIdentChars s = true -> keepIdentChars s = s.
Proof.
  induction s as [|c s IH]; simpl; [done|].
  intros [Hc Hs]%andb_prop. rewrite Hc. by rewrite IH.
Qed.

Lemma allIdentChars_freeOf sigil s :
  isIdentChar sigil = false -> allIdentChars s = true ->
  freeOf sigil s = true.
Proof.
  intros Hs. induction s as [|c s IH]; simpl; [done|].
  intros [Hc Ht]%andb_prop. rewrite IH by done.
  destruct (Ascii.eqb_spec c sigil) as [->|]; [congruence|done].
Qed.

Lemma length_keepIdentChars s :
  String.length (keepIdentChars s) <= String.length s.
Proof.
  induction s as [|c s IH]; simpl; [lia|].
  destruct (isIdentChar c); simpl; lia.
Qed.

(** X1. A sanitized identifier has only characters of [[a-zA-Z0-9_]], so it
    has neither [$] nor [?] and cannot bring a macro or a placeholder into
    the text; sanitizing removes characters and never adds one, it leaves
    a string alone exactly when the string is clean already, and doing it
    twice is doing it once. *)
Theorem sanitizeIdentifier_clean_and_idempotent identifier :
  allIdentChars (sanitizeIdentifier identifier) = true
  /\ freeOf "$" (sanitizeIdentifier identifier) = true
  /\ freeOf "?" (sanitizeIdentifier identifier) = true
  /\ String.length (sanitizeIdentifier identifier) <= String.length identifier
  /\ (sanitizeIdentifier identifier = identifier
      <-> allIdentChars identifier = true)
  /\ sanitizeIdentifier (sanitizeIdentifier identifier)
     = sanitizeIdentifier identifier.
Proof.
  unfold sanitizeIdentifier.
  pose proof (allIdentChars_keep identifier) as H.
  repeat split.
  - done.
  - by apply allIdentChars_freeOf.
  - by apply allIdentChars_freeOf.
  - apply length_keepIdentChars.
  - intros E. by rewrite <- E.
  - apply keepIdentChars_clean.
  - by apply keepIdentChars_clean.
Qed.

(** ** What validation guarantees *)

(** X2. The two validators accept the same requests, and a request they
    accept always has a FROM clause: the error "Either sourceTable or
    sourceQuery must be provided" of [buildComplexSQL] cannot be thrown.
    The composer of [src/sql.ts] assembles every accepted request; the
    CTE-graph composer assembles it when the WITH clause is built, and
    otherwise throws the wrapped error of the full call stack.  Without a
    named-parameter object an assembled text is the output, with no
    parameter. *)
Theorem accepted_request_assembles heap stack query options :
  (CteGraph.validateInputs query options = Ok tt
   <-> SqlTs.validateInputs query options = Ok tt)
  /\ (CteGraph.validateInputs query options = Ok tt ->
      exists fromC,
        fromClause query = Ok fromC
        /\ SqlTs.assemble query options
           = Ok (joinClauses (SqlTs.clauses query options fromC))
        /\ (optField Opt.params options = None ->
            SqlTs.buildComplexSQL query options
            = Ok (Built.mk
                    (joinClauses (SqlTs.clauses query options fromC)) []))
        /\ (forall withC,
              CteGraph.withClause heap stack query = Ok withC ->
              CteGraph.assemble heap stack query options
              = Ok (joinClauses (CteGraph.clauses withC query options fromC))
              /\ (optField Opt.params options = None ->
                  CteGraph.buildComplexSQL heap stack query options
                  = Ok (Built.mk
                          (joinClauses
                             (CteGraph.clauses withC query options fromC))
                          [])))
        /\ (forall e,
              CteGraph.withClause heap stack query = Throw e ->
              CteGraph.buildComplexSQL heap stack query options
              = Throw stackOverflow)).
Proof.
  split; [apply validators_accept_the_same|].
  intros H. pose proof (validate_source_present _ _ H) as Hs.
  destruct (fromClause_with_source query Hs) as [fromC Hf].
  pose proof (proj1 (validators_accept_the_same _ _) H) as H'.
  exists fromC. split; [done|].
  assert (Ha : SqlTs.assemble query options
               = Ok (joinClauses (SqlTs.clauses query options fromC))).
  { unfold SqlTs.assemble. by rewrite Hf. }
  split; [done|]. split; [|split].
  - intros Hp. rewrite (sqlts_build_assembled _ _ _ H' Ha).
    unfold sqltsPass. by rewrite Hp.
  - intros withC Hw.
    assert (Hg : CteGraph.assemble heap stack query options
                 = Ok (joinClauses
                         (CteGraph.clauses withC query options fromC))).
    { unfold CteGraph.assemble. by rewrite Hw, Hf. }
    split; [done|]. intros Hp.
    rewrite (graph_build_assembled _ _ _ _ _ H Hg).
    unfold graphPass. by rewrite Hp.
  - intros e Hw. by rewrite graph_build_pass, H, Hw.
Qed.

(** ** A query without subqueries and options *)

(** X3. A request that validation accepts, with no subqueries, no filter
    and no options, composes to the SELECT clause and the FROM clause
    alone, with no parameter; the FROM clause names the sanitized table
    when [sourceTable] is set (also when [sourceQuery] is set too) and
    wraps the source query, verbatim, otherwise. *)
Theorem plain_query_is_select_from heap stack query :
  Query.withSubqueries query = None \/ Query.withSubqueries query = Some [] ->
  truthyOpt (Query.where_ query) = false ->
  CteGraph.validateInputs query None = Ok tt ->
  CteGraph.buildComplexSQL heap stack query None
  = Ok (Built.mk
          ("SELECT " +:+ join ", " (map fieldColumn (Query.fields query))
           +:+ " FROM "
           +:+ (if truthyOpt (Query.sourceTable query)
                then sanitizeIdentifier (default "" (Query.sourceTable query))
                else "(" +:+ default "" (Query.sourceQuery query) +:+ ")")
           +:+ " AS " +:+ sanitizeIdentifier (Query.alias query))
          [])
  /\ SqlTs.buildComplexSQL query None
     = CteGraph.buildComplexSQL heap stack query None.
Proof.
  intros Hsub Hw Hv.
  pose proof (validate_source_present _ _ Hv) as Hs.
  pose proof (proj1 (validators_accept_the_same _ _) Hv) as Hv'.
  rewrite graph_build_pass, sqlts_build_pass, Hv, Hv'.
  unfold CteGraph.withClause, CteGraph.buildWithClause,
    CteGraph.clauses, SqlTs.clauses, SqlTs.buildWithClause,
    CteGraph.buildSelectClause,
    SqlTs.buildSelectClause, CteGraph.selectFields, CteGraph.projectedFields,
    CteGraph.subqueriesOf, fromClause, whereClause, sourcePresent in *.
  rewrite Hw.
  destruct (truthyOpt (Query.sourceTable query)) eqn:Et; simpl in Hs;
    [|rewrite Hs]; destruct Hsub as [-> | ->]; simpl; rewrite app_nil_r;
    unfold finish, joinClauses; simpl; rewrite ?app_assoc_s; done.
Qed.

(** ** What a successful substitution leaves *)

Lemma placeholders_found params ps st t st' :
  replacePieces (placeholderCallback params) ps st = Ok (t, st') ->
  Forall (fun name => hasProperty name params = true) (tokenNames ps).
Proof.
  revert st t st'. induction ps as [|[c|name] ps IH]; intros st t st' H;
    simpl in *.
  - constructor.
  - unfold bind in H.
    destruct (replacePieces _ ps st) as [[out st1]|e] eqn:E; [|done].
    by apply (IH st out st1).
  - unfold bind in H.
    destruct (hasProperty name params) eqn:Hn.
    + destruct (placeholderCallback_present params name st Hn) as [seen H0].
      rewrite H0 in H.
      destruct (replacePieces _ ps _) as [[out st1]|e] eqn:E; [|done].
      constructor; [done|]. by apply (IH _ out st1 E).
    + by rewrite placeholderCallback_missing in H.
Qed.

(** In the text a successful [?name] pass gives, what follows a [?] is not
    the start of a name. *)
Lemma positional_scan s k :
  (k = 0 ->
   scanTokens "?" 0 (positionalPieces (scanTokens "?" 0 s))
   = literal (positionalPieces (scanTokens "?" 0 s))
   /\ startsIdent (positionalPieces (scanTokens "?" 0 s)) = startsIdent s)
  /\ (k = String.length (takeIdent s) ->
      scanTokens "?" 0 (positionalPieces (scanTokens "?" k s))
      = literal (positionalPieces (scanTokens "?" k s))
      /\ startsIdent (positionalPieces (scanTokens "?" k s)) = false).
Proof.
  revert k. induction s as [|c rest IH]; intros k.
  - split; intros ->; done.
  - assert (H0 :
      scanTokens "?" 0 (positionalPieces (scanTokens "?" 0 (String c rest)))
      = literal (positionalPieces (scanTokens "?" 0 (String c rest)))
      /\ startsIdent (positionalPieces (scanTokens "?" 0 (String c rest)))
         = startsIdent (String c rest)).
    { cbn [scanTokens].
      destruct ((c =? "?")%char && startsIdent rest)%bool eqn:E.
      - apply andb_prop in E as [->%Ascii.eqb_eq Hr].
        destruct (proj2 (IH (String.length (takeIdent rest))) eq_refl)
          as [Hscan Hstart].
        cbn [positionalPieces scanTokens literal].
        rewrite Hstart, Hscan. done.
      - destruct (proj1 (IH 0) eq_refl) as [Hscan Hstart].
        cbn [positionalPieces scanTokens literal startsIdent].
        rewrite Hstart, Hscan.
        destruct (Ascii.eqb_spec c "?") as [->|]; [|done].
        simpl in E. by rewrite E. }
    split; [done|].
    cbn [takeIdent]. destruct (isIdentChar c) eqn:Ec; cbn [String.length].
    + intros ->. cbn [scanTokens].
      apply (proj2 (IH (String.length (takeIdent rest))) eq_refl).
    + intros ->. destruct H0 as [Hscan Hstart]. split; [done|].
      rewrite Hstart. cbn [startsIdent].
      destruct (isIdentStart c) eqn:Es; [|done].
      apply identStart_identChar in Es. congruence.
Qed.

Lemma tokenNames_literal s : tokenNames (literal s) = [].
Proof. induction s as [|c s IH]; simpl; done. Qed.

Lemma positional_has_no_placeholder text :
  placeholderNames (positional text) = [].
Proof.
  unfold placeholderNames, positional.
  destruct (proj1 (positional_scan text 0) eq_refl) as [-> _].
  apply tokenNames_literal.
Qed.

Lemma finish_placeholders_inv params text built :
  finish (placeholderPass params text) = Ok built ->
  Forall (fun name => hasProperty name params = true) (placeholderNames text)
  /\ built = Built.mk (positional text)
               (map (fun name => getProperty name params)
                  (placeholderNames text)).
Proof.
  intros H.
  assert (Hall : Forall (fun name => hasProperty name params = true)
                   (placeholderNames text)).
  { apply finish_inv in H as (t & st & Ht & _).
    by apply (placeholders_found params _ initialState t st). }
  split; [done|]. rewrite finish_present in H by done. congruence.
Qed.

(** X4. When a composition with a named-parameter object succeeds, every
    placeholder of the scanned text was found in the object, the output
    text has no [?name] placeholder left, and the parameter list has one
    entry for each placeholder of the scanned text. *)
Theorem success_leaves_no_named_placeholder heap stack query o params built :
  Opt.params o = Some params ->
  (CteGraph.buildComplexSQL heap stack query (Some o) = Ok built ->
   exists text,
     expandedQuery heap stack query (Some o) = Ok text
     /\ Forall (fun name => hasProperty name params = true)
          (placeholderNames text)
     /\ placeholderNames (Built.query built) = []
     /\ length (Built.params built) = length (placeholderNames text))
  /\ (SqlTs.buildComplexSQL query (Some o) = Ok built ->
      exists text,
        SqlTs.assemble query (Some o) = Ok text
        /\ Forall (fun name => hasProperty name params = true)
             (placeholderNames text)
        /\ placeholderNames (Built.query built) = []
        /\ length (Built.params built) = length (placeholderNames text)).
Proof.
  intros Hp. split; intros H.
  - rewrite graph_build_pass in H.
    destruct (CteGraph.validateInputs query (Some o)) as [[]|e] eqn:Hv;
      [|done].
    destruct (CteGraph.withClause heap stack query) as [withC|e] eqn:Hw;
      [|done].
    destruct (fromClause query) as [fromC|e] eqn:Hf; [|done].
    assert (Ha : CteGraph.assemble heap stack query (Some o)
                 = Ok (joinClauses
                         (CteGraph.clauses withC query (Some o) fromC))).
    { unfold CteGraph.assemble. by rewrite Hw, Hf. }
    unfold graphPass in H. simpl in H. rewrite Hp in H.
    destruct (macroPass (orderByCondition (Some o))
                (joinClauses (CteGraph.clauses withC query (Some o) fromC))
                initialState)
      as [[text st]|e] eqn:Em.
    + assert (He : expandedQuery heap stack query (Some o) = Ok text).
      { unfold expandedQuery. by rewrite Ha, Em. }
      pose proof (macroPass_state _ _ _ _ _ Em) as ->.
      assert (H' : finish (placeholderPass params text) = Ok built).
      { rewrite <- H. unfold finish, CteGraph.substitute, bind.
        by rewrite Em. }
      apply finish_placeholders_inv in H' as [Hall ->].
      exists text. simpl. repeat split; try done.
      * apply positional_has_no_placeholder.
      * by rewrite length_map.
    + unfold finish, CteGraph.substitute, bind in H. by rewrite Em in H.
  - rewrite sqlts_build_pass in H.
    destruct (SqlTs.validateInputs query (Some o)) as [[]|e]; [|done].
    destruct (fromClause query) as [fromC|e] eqn:Hf; [|done].
    unfold sqltsPass in H. simpl in H. rewrite Hp in H.
    apply finish_placeholders_inv in H as [Hall ->].
    exists (joinClauses (SqlTs.clauses query (Some o) fromC)).
    unfold SqlTs.assemble. rewrite Hf. simpl. repeat split; try done.
    + apply positional_has_no_placeholder.
    + by rewrite length_map.
Qed.

(** ** The two composers side by side *)

Lemma replaceTokens_free sigil cb text st :
  freeOf sigil text = true -> replaceTokens sigil cb text st = Ok (text, st).
Proof.
  intros H. unfold replaceTokens.
  rewrite <- (app_empty_r text) at 1.
  rewrite scanTokens_free by done. simpl. rewrite app_nil_r.
  apply replacePieces_literal.
Qed.

Lemma merge_without_dependsOn subqueries :
  noDependsOn subqueries = true ->
  fold_left mergeDependsOn subqueries [] = [].
Proof.
  induction subqueries as [|s subqueries IH]; simpl; [done|].
  intros [Hs Hrest]%andb_prop. unfold mergeDependsOn at 2.
  destruct (Sub.dependsOn s) as [[|e es]|]; try done; by apply IH.
Qed.

(** Without dependencies the WITH clause needs no room on the stack. *)
Lemma withClause_without_dependsOn heap stack subqueries :
  noDependsOn subqueries = true ->
  CteGraph.buildWithClause heap stack subqueries
  = Ok (SqlTs.buildWithClause subqueries).
Proof.
  intros H. unfold CteGraph.buildWithClause, SqlTs.buildWithClause,
    CteGraph.withEntries.
  rewrite depWithClauses_fold, merge_without_dependsOn by done.
  by destruct subqueries.
Qed.

(** X5. On a request of the interface of [src/sql.ts] the two composers
    give the same result, whatever the heap and the room on the call
    stack: when a source is present, no subquery declares a dependency, the
    pagination columns are not asked for, and the assembled text has no
    [$] (or there is no named-parameter object). *)
Theorem composers_agree_on_old_requests heap stack query options :
  sourcePresent query = true ->
  noDependsOn (default [] (Query.withSubqueries query)) = true ->
  CteGraph.wantsPagination options = false ->
  macroFree query options = true ->
  CteGraph.buildComplexSQL heap stack query options
  = SqlTs.buildComplexSQL query options.
Proof.
  intros Hs Hd Hw Hm.
  destruct (validators_agree_with_source query options Hs) as [E1 E2].
  rewrite graph_build_pass, sqlts_build_pass, E1, E2.
  destruct (validateRest query options) as [[]|e]; [|done].
  assert (Hwith : CteGraph.withClause heap stack query
                  = Ok match Query.withSubqueries query with
                       | Some subqueries => SqlTs.buildWithClause subqueries
                       | None => ""
                       end).
  { unfold CteGraph.withClause.
    destruct (Query.withSubqueries query) as [subs|]; [|done].
    by apply withClause_without_dependsOn. }
  rewrite Hwith.
  unfold macroFree, SqlTs.assemble in Hm.
  destruct (fromClause query) as [fromC|e]; [|done].
  assert (Hc : CteGraph.clauses
                 match Query.withSubqueries query with
                 | Some subqueries => SqlTs.buildWithClause subqueries
                 | None => ""
                 end query options fromC
               = SqlTs.clauses query options fromC).
  { unfold CteGraph.clauses, SqlTs.clauses, CteGraph.buildSelectClause,
      SqlTs.buildSelectClause, CteGraph.selectFields. by rewrite Hw. }
  rewrite Hc. unfold graphPass, sqltsPass.
  destruct (optField Opt.params options) as [params|]; [|done].
  unfold finish, CteGraph.substitute, bind.
  by rewrite macroPass_without_dollar.
Qed.

(** X6. A text with neither [$] nor [?] is never changed: whatever the
    named-parameter object, an accepted request whose assembled text has
    neither character composes to that text with no parameter. *)
Theorem text_without_sigils_is_output_unchanged heap stack query options text :
  CteGraph.validateInputs query options = Ok tt ->
  CteGraph.assemble heap stack query options = Ok text ->
  freeOf "$" text = true -> freeOf "?" text = true ->
  CteGraph.buildComplexSQL heap stack query options = Ok (Built.mk text []).
Proof.
  intros Hv Ha Hd Hq. rewrite (graph_build_assembled _ _ _ _ _ Hv Ha).
  unfold graphPass.
  destruct (optField Opt.params options) as [params|]; [|done].
  unfold finish, CteGraph.substitute, bind.
  rewrite macroPass_without_dollar by done.
  unfold placeholderPass. by rewrite replaceTokens_free.
Qed.

(** ** [paginateData] on any rows *)

(** X7. [paginateData] throws only on a non-empty list whose first row
    lacks one of the two window-count fields, and then the plain [Error]
    about order_by, page and page_size.  When it returns, the rows are the
    input rows, [page] and [limit] are the given ones or the defaults 0 and
    10, an empty list gives a total of 0 and no more pages, and a last row
    without the remaining count gives no more pages: only the first row is
    checked. *)
Theorem paginateData_outcomes {T} (d : list (CteGraph.Row T))
    (page limit : option JSNumber.t) :
  (forall e,
      CteGraph.paginateData d page limit = Throw e ->
      e = Error "order_by, page, and page_size are required for pagination"
      /\ exists first others,
           d = first :: others
           /\ (CteGraph._sql_util_remaining first = None
               \/ CteGraph._sql_util_num first = None))
  /\ (forall r,
        CteGraph.paginateData d page limit = Ok r ->
        CteGraph.data r = d
        /\ CteGraph.page (CteGraph.pagination r)
           = default (JSNumber.ofZ 0) page
        /\ CteGraph.limit (CteGraph.pagination r)
           = default (JSNumber.ofZ 10) limit
        /\ (d = [] ->
            CteGraph.total (CteGraph.pagination r) = JSNumber.ofZ 0
            /\ CteGraph.has_more (CteGraph.pagination r) = false)
        /\ (forall first others,
              d = first :: others ->
              CteGraph._sql_util_remaining (List.last d first) = None ->
              CteGraph.has_more (CteGraph.pagination r) = false)).
Proof.
  unfold CteGraph.paginateData. split.
  - intros e H. destruct d as [|first others]; [done|].
    destruct (CteGraph._sql_util_remaining first) as [remaining|] eqn:Hr.
    + destruct (CteGraph._sql_util_num first) as [num|] eqn:Hn; [done|].
      inversion H. split; [done|]. exists first, others. auto.
    + inversion H. split; [done|]. exists first, others. auto.
  - intros r H. destruct d as [|first others].
    + inversion H. simpl. repeat split; done.
    + destruct (CteGraph._sql_util_remaining first) as [remaining|];
        [|done].
      destruct (CteGraph._sql_util_num first) as [num|]; [|done].
      inversion H. simpl. repeat split; try done.
      intros first' others' [= <- <-] Hlast. simpl in Hlast.
      by rewrite Hlast.
Qed.

(** ** Reversing well-formed order terms *)

Lemma matches_space pat a :
  pat = "ASC" \/ pat = "DESC" ->
  matchesIgnoreCase pat (a +:+ " ") = matchesIgnoreCase pat a.
Proof.
  intros [-> | ->];
    destruct a as [|? [|? [|? [|? ?]]]]; simpl;
    rewrite ?andb_false_r, ?andb_true_r; done.
Qed.

Lemma hasDirection_space e :
  hasDirection e = false -> hasDirection (e +:+ " ") = false.
Proof.
  induction e as [|c e IH]; [done|].
  change (String c e +:+ " ") with (String c (e +:+ " ")).
  cbn [hasDirection].
  change (String c (e +:+ " ")) with (String c e +:+ " ").
  rewrite !matches_space by auto.
  intros [[-> ->]%orb_false_elim H]%orb_false_elim. by rewrite IH.
Qed.

Lemma flipScan_without_direction s :
  hasDirection s = false -> flipScan 0 s = s.
Proof.
  induction s as [|c s IH]; [done|]. cbn [hasDirection flipScan].
  intros [[-> ->]%orb_false_elim H]%orb_false_elim. by rewrite IH.
Qed.

Lemma reverseOrder_term term rest :
  hasDirection (fst term) = false ->
  reverseOrder (orderTerm term +:+ rest)
  = orderTerm (flipTerm term) +:+ reverseOrder rest.
Proof.
  destruct term as [e d]. unfold orderTerm, flipTerm. cbn [fst snd].
  intros H%hasDirection_space.
  destruct d; cbn [negb].
  - replace ((e +:+ " " +:+ "DESC") +:+ rest)
      with ((e +:+ " ") +:+ "DESC" +:+ rest) by (by rewrite !app_assoc_s).
    rewrite reverseOrder_DESC. unfold reverseOrder at 1.
    rewrite flipScan_without_direction by done. by rewrite !app_assoc_s.
  - replace ((e +:+ " " +:+ "ASC") +:+ rest)
      with ((e +:+ " ") +:+ "ASC" +:+ rest) by (by rewrite !app_assoc_s).
    rewrite reverseOrder_ASC. unfold reverseOrder at 1.
    rewrite flipScan_without_direction by done. by rewrite !app_assoc_s.
Qed.

Lemma reverseOrder_terms terms :
  Forall (fun term => hasDirection (fst term) = false) terms ->
  reverseOrder (join ", " (map orderTerm terms))
  = join ", " (map orderTerm (map flipTerm terms)).
Proof.
  induction terms as [|term terms IH]; [done|].
  intros Hall. inversion Hall as [|? ? Hterm Hrest]; subst.
  destruct terms as [|next terms].
  - unfold join. simpl.
    rewrite <- (app_empty_r (orderTerm term)) at 1.
    rewrite reverseOrder_term by done. apply app_empty_r.
  - change (join ", " (map orderTerm (term :: next :: terms)))
      with (orderTerm term +:+ ", "
              +:+ join ", " (map orderTerm (next :: terms))).
    rewrite reverseOrder_term by done.
    change (reverseOrder (", " +:+ ?x)) with (", " +:+ reverseOrder x).
    by rewrite IH.
Qed.

(** X8. For order terms of the form [<expression> ASC] or
    [<expression> DESC] whose expressions contain neither word in any
    letter case, the text [$rev_order_by] stands for is the same
    comma-joined list with the direction of every term turned round, and
    reversing twice gives the list back. *)
Theorem reverseOrder_flips_every_term terms :
  Forall (fun term => hasDirection (fst term) = false) terms ->
  reverseOrder (join ", " (map orderTerm terms))
  = join ", " (map orderTerm (map flipTerm terms))
  /\ reverseOrder (reverseOrder (join ", " (map orderTerm terms)))
     = join ", " (map orderTerm terms).
Proof.
  intros H. split; [by apply reverseOrder_terms|].
  rewrite reverseOrder_terms by done.
  rewrite reverseOrder_terms.
  - f_equal. rewrite !map_map. apply map_ext. intros [e d]. simpl.
    unfold orderTerm, flipTerm. simpl. by rewrite negb_involutive.
  - rewrite Forall_map. by apply (Forall_impl _ _ _ H).
Qed.

(** ** The filters in the assembled text *)

Lemma trim_truthy w : truthy (trim w) = true -> truthy w = true.
Proof. by destruct w. Qed.

(** X9. The assembled text is the clauses before WHERE, then the WHERE
    clause if there is one, then ORDER BY, LIMIT and OFFSET.  There is no
    WHERE clause exactly when neither the query nor the options give a
    non-empty filter; when the query gives one and the options give one
    that is not blank, the clause is the two filters in parentheses, the
    query's first, joined by AND. *)
Theorem filters_are_joined_by_and heap stack query options fromC :
  fromClause query = Ok fromC ->
  (forall withC,
      CteGraph.withClause heap stack query = Ok withC ->
      CteGraph.assemble heap stack query options
      = Ok (joinClauses (firstn 4 (CteGraph.clauses withC query options fromC))
            +:+ whereText query options +:+ trailingText options))
  /\ SqlTs.assemble query options
     = Ok (joinClauses (firstn 4 (SqlTs.clauses query options fromC))
           +:+ whereText query options +:+ trailingText options)
  /\ (whereText query options = ""
      <-> truthyOpt (Query.where_ query) = false
          /\ truthyOpt (optField Opt.where_ options) = false)
  /\ (forall w1 w2,
        Query.where_ query = Some w1 -> truthy w1 = true ->
        optField Opt.where_ options = Some w2 -> truthy (trim w2) = true ->
        whereText query options
        = " WHERE (" +:+ w1 +:+ ") AND (" +:+ w2 +:+ ")").
Proof.
  intros Hf. unfold CteGraph.assemble, SqlTs.assemble. rewrite Hf.
  split; [|split; [|split]].
  - intros withC ->. f_equal. unfold whereText.
    rewrite <- (joinClauses_where _ _ _
                  (graph_front_truthy _ _ _ _ 4 ltac:(lia))).
    done.
  - f_equal. unfold whereText.
    rewrite <- (joinClauses_where _ _ _ (sqlts_front_truthy _ _ _ 4 ltac:(lia))).
    done.
  - unfold whereText, whereClause.
    destruct (truthyOpt (Query.where_ query)),
      (truthyOpt (optField Opt.where_ options)); simpl; split; try done;
      by intros [? ?].
  - intros w1 w2 H1 Ht1 H2 Ht2.
    pose proof (trim_truthy w2 Ht2) as Ht2'.
    unfold whereText, whereClause. rewrite H1, H2. simpl.
    rewrite Ht1, Ht2', Ht2. simpl. unfold join. simpl.
    by rewrite !app_assoc_s.
Qed.

(** ** The views a WITH clause lists *)

(** X10. When the expansions of the merged dependencies fit the call stack,
    the entries of the WITH clause are the CTEs of the views [emittedViews]
    lists, in that order and nothing else, followed by the CTEs of the
    subqueries; the views listed are exactly the views that the merged
    dependencies reach, directly or through other views; and more room on
    the stack changes nothing.  When one of them does not fit, the WITH
    clause ends in the [RangeError].  An expansion that fits is the
    expansions of the view's own dependencies, in the order of its keys,
    and then the view itself. *)
Theorem with_clause_lists_what_is_reached heap stack subqueries :
  (allFit heap stack subqueries = true ->
   CteGraph.withEntries heap stack subqueries
   = Ok (map (fun w => CteGraph.viewCTE (heap w))
           (emittedViews heap stack subqueries)
         ++ map subqueryCTE subqueries)
   /\ (forall w,
         In w (emittedViews heap stack subqueries)
         <-> exists k d,
               In (k, d) (CteGraph.depWithClauses subqueries)
               /\ Reaches heap d w)
   /\ emittedViews heap (S stack) subqueries
      = emittedViews heap stack subqueries)
  /\ (allFit heap stack subqueries = false ->
      CteGraph.withEntries heap stack subqueries
      = Throw (RangeError "Maximum call stack size exceeded"))
  /\ (forall below v,
        fits heap (S below) v = true ->
        CteGraph.expandQueryView heap (S below) v
        = Ok (map (fun w => CteGraph.viewCTE (heap w))
                (flat_map (fun entry => expandViews heap below (snd entry))
                   (dependencies heap v))
              ++ [CteGraph.viewCTE (heap v)])).
Proof.
  split; [|split].
  - intros Hall. split; [by apply withEntries_views|].
    unfold allFit in Hall. rewrite forallb_forall in Hall. split.
    + intros w. unfold emittedViews. rewrite in_flat_map. split.
      * intros ((k & d) & Hin & Hw). exists k, d. split; [done|].
        apply (expandViews_reaches heap stack d w); [|done].
        by apply (Hall (k, d)).
      * intros (k & d & Hin & Hr). exists (k, d). split; [done|].
        apply (expandViews_reaches heap stack d w); [|done].
        by apply (Hall (k, d)).
    + unfold emittedViews. apply flat_map_agree. intros entry Hin.
      by apply fits_more, Hall.
  - apply withEntries_overflow.
  - intros below v Hfit. rewrite expandQueryView_fits by done.
    cbn [expandViews]. by rewrite map_app.
Qed.

(** X12. The dependencies of the subqueries are merged by key before they
    are expanded: the merged object holds every key of every [dependsOn]
    once; the keys that are not array indices stand in first-seen order;
    and a key declared more than once holds the view declared last. *)
Theorem merged_dependencies_by_key subqueries :
  NoDup (map fst (CteGraph.depWithClauses subqueries))
  /\ (forall k,
        In k (map fst (CteGraph.depWithClauses subqueries))
        <-> In k (map fst (declaredEntries subqueries)))
  /\ namedKeys (CteGraph.depWithClauses subqueries)
     = firstSeen (namedKeys (declaredEntries subqueries))
  /\ (forall k,
        lookupKey k (CteGraph.depWithClauses subqueries)
        = lookupKey k (rev (declaredEntries subqueries))).
Proof.
  rewrite depWithClauses_fold. repeat split.
  - apply merge_NoDup. constructor.
  - intros H. apply merge_keys in H. simpl in H. tauto.
  - intros H. apply merge_keys. tauto.
  - by rewrite merge_namedKeys by constructor.
  - intros k. rewrite merge_lookupKey by constructor.
    by destruct (lookupKey k (rev (declaredEntries subqueries))).
Qed.

(** ** A dependency on a cycle *)

(** X16. When a merged dependency reaches a view that depends on itself,
    directly or through other views, the composition of an accepted
    request ends in the wrapped error of the full call stack, whatever the
    room on the stack. *)
Theorem cyclic_dependency_overflows heap stack query options subqueries k d c :
  CteGraph.validateInputs query options = Ok tt ->
  Query.withSubqueries query = Some subqueries ->
  In (k, d) (CteGraph.depWithClauses subqueries) ->
  Reaches heap d c -> OnCycle heap c ->
  CteGraph.withClause heap stack query
  = Throw (RangeError "Maximum call stack size exceeded")
  /\ CteGraph.buildComplexSQL heap stack query options
     = Throw (SQLBuildError
                "Failed to build SQL query: Maximum call stack size exceeded").
Proof.
  intros Hv Hsub Hin Hr Hc.
  assert (Hw : CteGraph.withClause heap stack query
               = Throw (RangeError "Maximum call stack size exceeded")).
  { unfold CteGraph.withClause, CteGraph.buildWithClause. rewrite Hsub.
    destruct subqueries as [|s subqueries]; [done|].
    rewrite withEntries_overflow; [done|].
    unfold allFit.
    destruct (forallb _ (CteGraph.depWithClauses (s :: subqueries))) eqn:E;
      [|done].
    rewrite forallb_forall in E. specialize (E (k, d) Hin). simpl in E.
    by rewrite (cycle_never_fits heap stack d c Hr Hc) in E. }
  split; [done|]. by rewrite graph_build_pass, Hv, Hw.
Qed.

(** ** The errors of a composition *)

(** X11. A composition fails with an [SQLBuildError] only, and in these
    ways only: validation rejects the request (and that error is the one
    thrown); or the expansion of a dependency of the CTE-graph composer
    does not fit the call stack (the wrapped [RangeError]); or, with a
    named-parameter object, the CTE-graph composer meets a macro while
    there are no order terms ("Missing order_by"); or a placeholder of the
    scanned text is not found in the object ("Missing parameter: " and its
    name).  The composer of [src/sql.ts] fails in the first and the last
    way only. *)
Theorem composition_fails_in_four_ways heap stack query options e :
  (CteGraph.buildComplexSQL heap stack query options = Throw e ->
   (exists message, e = SQLBuildError message)
   /\ (CteGraph.validateInputs query options = Throw e
       \/ (exists subqueries,
             Query.withSubqueries query = Some subqueries
             /\ allFit heap stack subqueries = false
             /\ e = SQLBuildError
                      "Failed to build SQL query: Maximum call stack size exceeded")
       \/ exists params,
            optField Opt.params options = Some params
            /\ ((e = SQLBuildError "Missing order_by"
                 /\ truthyOpt (orderByCondition options) = false)
                \/ exists name,
                     hasProperty name params = false
                     /\ e = SQLBuildError ("Missing parameter: " +:+ name))))
  /\ (SqlTs.buildComplexSQL query options = Throw e ->
      (exists message, e = SQLBuildError message)
      /\ (SqlTs.validateInputs query options = Throw e
          \/ exists params name,
               optField Opt.params options = Some params
               /\ hasProperty name params = false
               /\ e = SQLBuildError ("Missing parameter: " +:+ name))).
Proof.
  split; intros H.
  - rewrite graph_build_pass in H.
    pose proof (graph_validate_errors query options) as Hve.
    destruct (CteGraph.validateInputs query options) as [[]|e'] eqn:Hv.
    + pose proof (validate_source_present _ _ Hv) as Hs.
      destruct (fromClause_with_source query Hs) as [fromC Hf].
      rewrite Hf in H.
      destruct (CteGraph.withClause heap stack query) as [withC|e'] eqn:Hw.
      * unfold graphPass in H.
        destruct (optField Opt.params options) as [params|]; [|done].
        unfold finish, CteGraph.substitute, bind in H.
        destruct (macroPass _ _ initialState) as [[text st]|e'] eqn:Em.
        -- destruct (placeholderPass params text st) as [[t st']|e'] eqn:Ep;
             [done|].
           injection H as <-.
           destruct (placeholders_throw _ _ _ _ Ep) as (name & _ & Hm & ->).
           split; [by eexists|]. right. right. exists params.
           split; [done|]. right. by exists name.
        -- injection H as <-.
           destruct (macroPieces_throw _ _ _ _ Em) as [-> Hob].
           split; [by eexists|]. right. right. exists params.
           split; [done|]. by left.
      * injection H as <-. split; [by eexists|]. right. left.
        unfold CteGraph.withClause, CteGraph.buildWithClause in Hw.
        destruct (Query.withSubqueries query) as [subqueries|]; [|done].
        exists subqueries. split; [done|]. split; [|done].
        destruct subqueries as [|s subqueries]; [done|].
        destruct (allFit heap stack (s :: subqueries)) eqn:Ef; [|done].
        by rewrite withEntries_views in Hw.
    + injection H as <-. split; [|by left].
      destruct e' as [m|m|m]; try done. by eexists.
  - rewrite sqlts_build_pass in H.
    pose proof (sqlts_validate_errors query options) as Hve.
    destruct (SqlTs.validateInputs query options) as [[]|e'] eqn:Hv.
    + pose proof (proj2 (validators_accept_the_same _ _) Hv) as Hv'.
      pose proof (validate_source_present _ _ Hv') as Hs.
      destruct (fromClause_with_source query Hs) as [fromC Hf].
      rewrite Hf in H. unfold sqltsPass in H.
      destruct (optField Opt.params options) as [params|]; [|done].
      unfold finish in H.
      destruct (placeholderPass params _ initialState) as [[t st']|e'] eqn:Ep;
        [done|].
      injection H as <-.
      destruct (placeholders_throw _ _ _ _ Ep) as (name & _ & Hm & ->).
      split; [by eexists|]. right. by exists params, name.
    + injection H as <-. split; [|by left].
      destruct e' as [m|m|m]; try done. by eexists.
Qed.

(** ** The macros under a named-parameter object *)

Lemma macroText_free ob text :
  truthy ob = true -> freeOf "$" text = true -> macroText ob text = text.
Proof.
  intros Hob Hf. unfold macroText. by rewrite macroPass_without_dollar.
Qed.

Lemma macroText_other ob pre name post :
  truthy ob = true -> isIdentifier name = true -> isMacro name = false ->
  atBoundary post = true ->
  macroText ob (pre +:+ "$" +:+ name +:+ post)
  = macroText ob pre +:+ macroText ob post.
Proof.
  intros Hob Hn Hm Hpost. rewrite macroText_app by done. f_equal.
  rewrite (macroText_token _ name post "") by
    (try done; intros st; unfold macroCallback;
     destruct (orb_false_elim _ _ Hm) as [-> ->]; done).
  done.
Qed.

(** A [$] that no name follows is not a token. *)
Lemma macroText_dollar ob pre post :
  truthy ob = true -> startsIdent post = false ->
  macroText ob (pre +:+ "$" +:+ post)
  = macroText ob pre +:+ "$" +:+ macroText ob post.
Proof.
  intros Hob Hpost. rewrite macroText_app by done. f_equal.
  pose proof (macroPass_macroText ob ("$" +:+ post) initialState Hob) as H.
  unfold macroPass, replaceTokens in H.
  change ("$" +:+ post) with (String "$" post) in H.
  cbn [scanTokens] in H. rewrite Hpost in H. simpl in H.
  unfold bind, ret in H.
  fold (replaceTokens "$" (macroCallback (Some ob)) post) in H.
  fold (macroPass (Some ob) post) in H.
  rewrite macroPass_macroText in H by done. injection H as H. exact (eq_sym H).
Qed.

(** A text with neither word in upper case is left as it is: a match in
    another letter case is replaced by itself. *)
Lemma flipScan_without_words n s :
  String.length s <= n -> hasUpperDirection s = false -> flipScan 0 s = s.
Proof.
  revert s. induction n as [|n IH]; intros s Hlen.
  - destruct s; [done|]. simpl in Hlen. lia.
  - destruct s as [|c rest]; [done|]. cbn [hasUpperDirection].
    intros [[Hasc Hdesc]%orb_false_elim Hrest]%orb_false_elim.
    cbn [flipScan].
    destruct (matchesIgnoreCase "ASC" (String c rest)) eqn:E1.
    { destruct rest as [|c2 [|c3 rest3]];
        [simpl in E1; by rewrite ?andb_false_r in E1..|].
      cbn [hasUpperDirection] in Hrest.
      apply orb_false_elim in Hrest as [_ Hrest].
      apply orb_false_elim in Hrest as [_ Hrest].
      cbn [flipScan]. rewrite (IH rest3) by (simpl in Hlen; done || lia).
      unfold flipDirection, prefix. simpl in Hasc |- *.
      replace (substring 0 0 rest3) with "" by (by destruct rest3).
      destruct (c =? "A")%char, (c2 =? "S")%char, (c3 =? "C")%char;
        simpl in *; try done;
        by destruct (c =? "D")%char, (c2 =? "E")%char, (c3 =? "S")%char. }
    destruct (matchesIgnoreCase "DESC" (String c rest)) eqn:E2.
    { destruct rest as [|c2 [|c3 [|c4 rest4]]];
        [simpl in E2; by rewrite ?andb_false_r in E2..|].
      cbn [hasUpperDirection] in Hrest.
      apply orb_false_elim in Hrest as [_ Hrest].
      apply orb_false_elim in Hrest as [_ Hrest].
      apply orb_false_elim in Hrest as [_ Hrest].
      cbn [flipScan]. rewrite (IH rest4) by (simpl in Hlen; done || lia).
      unfold flipDirection, prefix. simpl in Hdesc |- *.
      replace (substring 0 0 rest4) with "" by (by destruct rest4).
      destruct (c =? "D")%char, (c2 =? "E")%char, (c3 =? "S")%char,
        (c4 =? "C")%char; simpl in *; try done;
        by destruct (c =? "A")%char, (c2 =? "S")%char, (c3 =? "C")%char. }
    rewrite (IH rest) by (simpl in Hlen; done || lia). done.
Qed.

Lemma reverseOrder_without_words s :
  hasUpperDirection s = false -> reverseOrder s = s.
Proof. apply (flipScan_without_words (String.length s)). lia. Qed.

(** X13. With a named-parameter object supplied and one or more
    (non-empty) order terms, the composition is the [?name] pass run on the
    text the [$name] pass makes.  That pass leaves a text without [$] as it
    is, keeps a [$] that no name follows, turns [$order_by] into the
    comma-joined order terms and [$rev_order_by] into their reversal, and
    deletes every other token.  The reversal turns each [ASC] into [DESC]
    and each [DESC] into [ASC] and leaves a text with neither word in upper
    case as it is.  With no order terms, a text that contains one of the
    two macros makes the composition throw
    [SQLBuildError("Missing order_by")]. *)
Theorem macros_expanded_under_params heap stack query o params finalQuery :
  Opt.params o = Some params ->
  CteGraph.validateInputs query (Some o) = Ok tt ->
  CteGraph.assemble heap stack query (Some o) = Ok finalQuery ->
  (forall terms,
      Opt.order_by o = Some terms -> terms <> [] ->
      Forall (fun t => truthy t = true) terms ->
      CteGraph.buildComplexSQL heap stack query (Some o)
      = finish (placeholderPass params (macroText (join ", " terms) finalQuery))
      /\ (forall text,
            freeOf "$" text = true -> macroText (join ", " terms) text = text)
      /\ (forall pre post,
            startsIdent post = false ->
            macroText (join ", " terms) (pre +:+ "$" +:+ post)
            = macroText (join ", " terms) pre +:+ "$"
                +:+ macroText (join ", " terms) post)
      /\ (forall pre post, atBoundary post = true ->
            macroText (join ", " terms) (pre +:+ "$order_by" +:+ post)
            = macroText (join ", " terms) pre +:+ join ", " terms
                +:+ macroText (join ", " terms) post)
      /\ (forall pre post, atBoundary post = true ->
            macroText (join ", " terms) (pre +:+ "$rev_order_by" +:+ post)
            = macroText (join ", " terms) pre
                +:+ reverseOrder (join ", " terms)
                +:+ macroText (join ", " terms) post)
      /\ (forall pre name post,
            isIdentifier name = true -> isMacro name = false ->
            atBoundary post = true ->
            macroText (join ", " terms) (pre +:+ "$" +:+ name +:+ post)
            = macroText (join ", " terms) pre
                +:+ macroText (join ", " terms) post)
      /\ (forall a b,
            reverseOrder (a +:+ "ASC" +:+ b)
            = reverseOrder a +:+ "DESC" +:+ reverseOrder b)
      /\ (forall a b,
            reverseOrder (a +:+ "DESC" +:+ b)
            = reverseOrder a +:+ "ASC" +:+ reverseOrder b)
      /\ (forall s, hasUpperDirection s = false -> reverseOrder s = s))
  /\ (Opt.order_by o = None \/ Opt.order_by o = Some [] ->
      forall pre name post,
        isMacro name = true -> atBoundary post = true ->
        finalQuery = pre +:+ "$" +:+ name +:+ post ->
        CteGraph.buildComplexSQL heap stack query (Some o)
        = Throw (SQLBuildError "Missing order_by")).
Proof.
  intros Hp Hv Ha. split.
  - intros terms Ho Hne Hall.
    pose proof (join_truthy ", " terms Hne Hall) as Hob.
    split; [|split; [|split; [|split; [|split; [|split; [|split; [|split]]]]]]].
    + apply graph_build_with_params; try done.
      unfold expandedQuery, orderByCondition. simpl. rewrite Ha, Ho.
      by rewrite macroPass_macroText.
    + intros text Hf. by apply macroText_free.
    + intros pre post Hpost. by apply macroText_dollar.
    + intros pre post Hpost. rewrite macroText_app by done. f_equal.
      apply (macroText_token _ "order_by" post); try done.
      intros st. unfold macroCallback. simpl. by rewrite Hob.
    + intros pre post Hpost. rewrite macroText_app by done. f_equal.
      apply (macroText_token _ "rev_order_by" post); try done.
      intros st. unfold macroCallback. simpl. by rewrite Hob.
    + intros pre name post Hn Hm Hpost. by apply macroText_other.
    + apply reverseOrder_ASC.
    + apply reverseOrder_DESC.
    + apply reverseOrder_without_words.
  - intros Hno pre name post Hm Hpost ->.
    assert (Hob : truthyOpt (orderByCondition (Some o)) = false).
    { unfold orderByCondition. simpl. by destruct Hno as [-> | ->]. }
    assert (Hn : isIdentifier name = true).
    { unfold isMacro in Hm. apply orb_prop in Hm as [E|E];
        apply String.eqb_eq in E; by subst. }
    rewrite (graph_build_assembled _ _ _ _ _ Hv Ha).
    unfold graphPass. simpl. rewrite Hp.
    unfold finish, CteGraph.substitute, bind.
    by rewrite (macroPass_missing _ pre name post).
Qed.

(** ** LIMIT and OFFSET at the end of the output *)

(** X15. For an accepted request with a [page_size] that is not NaN, the
    composition is the passes run on the clauses before LIMIT, followed by
    [LIMIT <page_size>] and, when [page] is given too,
    [OFFSET <page * page_size>], the product being the one of binary64
    numbers; without [page] nothing follows the LIMIT clause.  The
    composition fails only where the passes fail on the clauses before. *)
Theorem limit_then_offset heap stack query o page_size :
  Opt.page_size o = Some page_size -> JSNumber.isNaN page_size = false ->
  CteGraph.validateInputs query (Some o) = Ok tt ->
  exists fromC,
    fromClause query = Ok fromC
    /\ (forall withC,
          CteGraph.withClause heap stack query = Ok withC ->
          CteGraph.buildComplexSQL heap stack query (Some o)
          = finish
              (let* a := graphPass (Some o)
                           (joinClauses
                              (firstn 6
                                 (CteGraph.clauses withC query (Some o)
                                    fromC))) in
               ret (a +:+ limitOffsetText o page_size)))
    /\ SqlTs.buildComplexSQL query (Some o)
       = finish
           (let* a := sqltsPass (Some o)
                        (joinClauses
                           (firstn 6 (SqlTs.clauses query (Some o) fromC))) in
            ret (a +:+ limitOffsetText o page_size)).
Proof.
  intros Hn Hnan Hv.
  pose proof (validate_source_present _ _ Hv) as Hs.
  destruct (fromClause_with_source query Hs) as [fromC Hf].
  destruct (validateRest_page_size _ _ _ (graph_validate_rest _ _ Hv) Hn Hnan)
    as [_ Ht].
  exists fromC. split; [done|]. split.
  - intros withC Hw. rewrite graph_build_pass, Hv, Hw, Hf.
    change (CteGraph.clauses withC query (Some o) fromC)
      with (firstn 6 (CteGraph.clauses withC query (Some o) fromC)
            ++ [limitClause (Some o); offsetClause (Some o)]) at 1.
    rewrite (limit_at_end _ o page_size
               (graph_front_truthy _ _ _ _ 6 ltac:(lia)) Hn Ht).
    unfold finish.
    by rewrite (graphPass_suffix _ _ _ _ (limitOffset_separator o page_size)).
  - rewrite sqlts_build_pass.
    rewrite (proj1 (validators_accept_the_same _ _) Hv), Hf.
    change (SqlTs.clauses query (Some o) fromC)
      with (firstn 6 (SqlTs.clauses query (Some o) fromC)
            ++ [limitClause (Some o); offsetClause (Some o)]) at 1.
    rewrite (limit_at_end _ o page_size
               (sqlts_front_truthy _ _ _ 6 ltac:(lia)) Hn Ht).
    unfold finish.
    by rewrite (sqltsPass_suffix _ _ _ _ (limitOffset_separator o page_size)).
Qed.

(** * The further properties on the example requests *)

Import MoreExamples.

Lemma accepted_request_witness :
  CteGraph.buildComplexSQL views 10 users (Some firstTen)
  = Ok (Built.mk "SELECT u.id AS id, u.name AS name FROM users AS u LIMIT 10"
          [])
  /\ SqlTs.buildComplexSQL users (Some firstTen)
     = Ok (Built.mk
             "SELECT u.id AS id, u.name AS name FROM users AS u LIMIT 10" [])
  /\ CteGraph.buildComplexSQL loop 10 usersWithLoop (Some firstTen)
     = Throw (SQLBuildError
                "Failed to build SQL query: Maximum call stack size exceeded").
Proof.
  destruct (proj2 (accepted_request_assembles views 10 users (Some firstTen))
              ltac:(vm_compute; reflexivity))
    as (fromC & Hf & _ & Hsqlts & Hgraph & _).
  destruct (proj2 (accepted_request_assembles loop 10 usersWithLoop
                     (Some firstTen))
              ltac:(vm_compute; reflexivity))
    as (_ & _ & _ & _ & _ & Hloop).
  vm_compute in Hf. injection Hf as <-.
  split; [|split].
  - destruct (Hgraph "" eq_refl) as [_ ->]; [reflexivity|].
    vm_compute. reflexivity.
  - rewrite Hsqlts by reflexivity. vm_compute. reflexivity.
  - apply (Hloop (RangeError "Maximum call stack size exceeded")).
    vm_compute. reflexivity.
Defined.

Lemma plain_query_witness :
  CteGraph.buildComplexSQL views 10 users None
  = Ok (Built.mk "SELECT u.id AS id, u.name AS name FROM users AS u" []).
Proof.
  etransitivity.
  - apply (proj1 (plain_query_is_select_from views 10 users
                    (or_introl eq_refl) eq_refl
                    ltac:(vm_compute; reflexivity))).
  - vm_compute. reflexivity.
Defined.

Lemma no_named_placeholder_witness :
  CteGraph.buildComplexSQL views 10 activeUsers (Some byId)
  = Ok (Built.mk
          "WITH user_tags AS (SELECT user_id, name FROM tags) SELECT u.id AS id, u.name AS name, ut.name AS tag_names FROM users AS u LEFT JOIN user_tags AS ut ON u.id = ut.user_id WHERE (u.active = 1) AND (u.id = ?) ORDER BY created_at DESC LIMIT 10"
          [VNumber (JSNumber.ofZ 1)])
  /\ placeholderNames
       "WITH user_tags AS (SELECT user_id, name FROM tags) SELECT u.id AS id, u.name AS name, ut.name AS tag_names FROM users AS u LEFT JOIN user_tags AS ut ON u.id = ut.user_id WHERE (u.active = 1) AND (u.id = ?) ORDER BY created_at DESC LIMIT 10"
     = [].
Proof.
  assert (H : CteGraph.buildComplexSQL views 10 activeUsers (Some byId)
              = Ok (Built.mk
                      "WITH user_tags AS (SELECT user_id, name FROM tags) SELECT u.id AS id, u.name AS name, ut.name AS tag_names FROM users AS u LEFT JOIN user_tags AS ut ON u.id = ut.user_id WHERE (u.active = 1) AND (u.id = ?) ORDER BY created_at DESC LIMIT 10"
                      [VNumber (JSNumber.ofZ 1)]))
    by (vm_compute; reflexivity).
  split; [exact H|].
  destruct (proj1 (success_leaves_no_named_placeholder views 10 activeUsers
                     byId (<["user_id" := VNumber (JSNumber.ofZ 1)]> ∅) _
                     eq_refl) H)
    as (text & _ & _ & Hnone & _).
  exact Hnone.
Defined.

Lemma composers_agree_witness :
  CteGraph.buildComplexSQL views 10 activeUsers (Some byId)
  = SqlTs.buildComplexSQL activeUsers (Some byId).
Proof.
  apply composers_agree_on_old_requests; vm_compute; reflexivity.
Defined.

Lemma text_without_sigils_witness :
  CteGraph.buildComplexSQL views 10 users (Some newestFirst)
  = Ok (Built.mk
          "SELECT u.id AS id, u.name AS name FROM users AS u ORDER BY created_at DESC"
          []).
Proof.
  apply text_without_sigils_is_output_unchanged; vm_compute; reflexivity.
Defined.

Lemma paginateData_outcomes_witness :
  (exists r,
      CteGraph.paginateData raggedRows (Some (JSNumber.ofZ 3)) None = Ok r
      /\ CteGraph.data r = raggedRows
      /\ CteGraph.has_more (CteGraph.pagination r) = false)
  /\ forall e,
       CteGraph.paginateData
         [ {| CteGraph.row := "Bob"; CteGraph._sql_util_remaining := None;
              CteGraph._sql_util_num := None |} ] None None = Throw e ->
       e = Error "order_by, page, and page_size are required for pagination".
Proof.
  split.
  - eexists. split; [reflexivity|].
    destruct (proj2 (paginateData_outcomes raggedRows
                       (Some (JSNumber.ofZ 3)) None) _ eq_refl)
      as (Hdata & _ & _ & _ & Hlast).
    split; [exact Hdata|]. apply (Hlast _ _ eq_refl). reflexivity.
  - intros e H.
    apply (proj1 (paginateData_outcomes
                    [ {| CteGraph.row := "Bob";
                         CteGraph._sql_util_remaining := None;
                         CteGraph._sql_util_num := None |} ] None None) e H).
Defined.

Lemma reverseOrder_witness :
  reverseOrder "created_at DESC, id ASC" = "created_at ASC, id DESC"
  /\ reverseOrder (reverseOrder "created_at DESC, id ASC")
     = "created_at DESC, id ASC".
Proof.
  apply (reverseOrder_flips_every_term [("created_at", true); ("id", false)]).
  repeat constructor.
Defined.

Lemma filters_witness :
  CteGraph.assemble views 10 activeUsers (Some byId)
  = Ok "WITH user_tags AS (SELECT user_id, name FROM tags) SELECT u.id AS id, u.name AS name, ut.name AS tag_names FROM users AS u LEFT JOIN user_tags AS ut ON u.id = ut.user_id WHERE (u.active = 1) AND (u.id = ?user_id) ORDER BY created_at DESC LIMIT 10"
  /\ whereText activeUsers (Some byId)
     = " WHERE (u.active = 1) AND (u.id = ?user_id)".
Proof.
  destruct (filters_are_joined_by_and views 10 activeUsers (Some byId)
              "FROM users AS u" ltac:(vm_compute; reflexivity))
    as (Ha & _ & _ & Hboth).
  split.
  - rewrite (Ha "WITH user_tags AS (SELECT user_id, name FROM tags)")
      by (vm_compute; reflexivity).
    vm_compute. reflexivity.
  - apply (Hboth "u.active = 1" "u.id = ?user_id"); reflexivity.
Defined.

Lemma reached_views_witness :
  CteGraph.withEntries views 10 [onA; onB]
  = Ok [ "B AS (SELECT 2)"; "A AS (SELECT 1 FROM B)"; "B AS (SELECT 2)";
         "c1 AS (SELECT * FROM A)"; "c2 AS (SELECT * FROM B)" ]
  /\ CteGraph.withEntries loop 10 [onLoop]
     = Throw (RangeError "Maximum call stack size exceeded").
Proof.
  split.
  - destruct (proj1 (with_clause_lists_what_is_reached views 10 [onA; onB])
                ltac:(vm_compute; reflexivity))
      as (-> & _ & _).
    vm_compute. reflexivity.
  - apply (proj1 (proj2 (with_clause_lists_what_is_reached loop 10 [onLoop]))).
    vm_compute. reflexivity.
Defined.

Lemma composition_errors_witness :
  SqlTs.buildComplexSQL users (Some missingOrg)
  = Throw (SQLBuildError "Missing parameter: org")
  /\ (SqlTs.validateInputs users (Some missingOrg)
      = Throw (SQLBuildError "Missing parameter: org")
      \/ exists params name,
           Opt.params missingOrg = Some params
           /\ hasProperty name params = false
           /\ SQLBuildError "Missing parameter: org"
              = SQLBuildError ("Missing parameter: " +:+ name)).
Proof.
  assert (H : SqlTs.buildComplexSQL users (Some missingOrg)
              = Throw (SQLBuildError "Missing parameter: org"))
    by (vm_compute; reflexivity).
  split; [exact H|].
  apply (proj2 (composition_fails_in_four_ways views 10 users
                  (Some missingOrg)
                  (SQLBuildError "Missing parameter: org")) H).
Defined.

(** The round trip of the specification: with
    [order_by: ["created_at DESC"]], [$rev_order_by] becomes
    [created_at ASC]. *)
Lemma macros_witness :
  CteGraph.buildComplexSQL views 10 rankedUsers (Some newestFirst)
  = Ok (Built.mk
          "SELECT u.id AS id, ROW_NUMBER() OVER (ORDER BY created_at ASC) AS rank FROM users AS u ORDER BY created_at DESC"
          [])
  /\ CteGraph.buildComplexSQL views 10 users (Some missingBoth)
     = Throw (SQLBuildError "Missing order_by").
Proof.
  split.
  - etransitivity.
    + apply (proj1 (macros_expanded_under_params views 10 rankedUsers
                      newestFirst ∅
                      "SELECT u.id AS id, ROW_NUMBER() OVER (ORDER BY $rev_order_by) AS rank FROM users AS u ORDER BY created_at DESC"
                      eq_refl eq_refl eq_refl)
               ["created_at DESC"] eq_refl).
      * discriminate.
      * repeat constructor.
    + vm_compute. reflexivity.
  - apply (proj2 (macros_expanded_under_params views 10 users missingBoth ∅
                    "SELECT u.id AS id, u.name AS name FROM users AS u WHERE (u.id = ?user_id AND u.rank <= $order_by)"
                    eq_refl eq_refl eq_refl)
             (or_introl eq_refl)
             "SELECT u.id AS id, u.name AS name FROM users AS u WHERE (u.id = ?user_id AND u.rank <= "
             "order_by" ")" eq_refl eq_refl eq_refl).
Defined.

Lemma validation_witness :
  CteGraph.validateInputs noAlias (Some badPage)
  = Throw (SQLBuildError "alias is required and must be a string")
  /\ SqlTs.validateInputs users (Some badPage)
     = Throw (SQLBuildError "page must be a positive number").
Proof.
  split.
  - rewrite (proj1 (validation_reports_first_violation noAlias (Some badPage)
                      eq_refl eq_refl)).
    reflexivity.
  - rewrite (proj2 (validation_reports_first_violation users (Some badPage)
                      eq_refl eq_refl)).
    reflexivity.
Defined.

(** Page 2 of size 10 ends with [LIMIT 10 OFFSET 20]; a page size alone
    ends with the LIMIT clause; a product that is not a binary64 number is
    rounded to one; a fraction is printed as a fraction. *)
Lemma limit_then_offset_witness :
  CteGraph.buildComplexSQL views 10 users (Some pagedWithParams)
  = Ok (Built.mk
          "SELECT u.id AS id, u.name AS name, COUNT(u.id) OVER (ORDER BY created_at ASC, id DESC) - 1 AS _sql_util_remaining, COUNT(u.id) OVER (ORDER BY created_at DESC, id ASC) AS _sql_util_num FROM users AS u WHERE (u.id = ? OR u.parent = ?) ORDER BY created_at DESC, id ASC LIMIT 10 OFFSET 20"
          [VNumber (JSNumber.ofZ 1); VNumber (JSNumber.ofZ 1)])
  /\ SqlTs.buildComplexSQL users (Some firstTen)
     = Ok (Built.mk
             "SELECT u.id AS id, u.name AS name FROM users AS u LIMIT 10" [])
  /\ SqlTs.buildComplexSQL users (Some farPage)
     = Ok (Built.mk
             "SELECT u.id AS id, u.name AS name FROM users AS u LIMIT 3002399751580331 OFFSET 9007199254740992"
             [])
  /\ SqlTs.buildComplexSQL users (Some halfPage)
     = Ok (Built.mk
             "SELECT u.id AS id, u.name AS name FROM users AS u LIMIT 0.5 OFFSET 0.5"
             []).
Proof.
  split; [|split; [|split]].
  - destruct (limit_then_offset views 10 users pagedWithParams
                (JSNumber.ofZ 10) eq_refl eq_refl
                ltac:(vm_compute; reflexivity))
      as (fromC & Hf & Hgraph & _).
    vm_compute in Hf. injection Hf as <-.
    rewrite (Hgraph "" eq_refl). vm_compute. reflexivity.
  - destruct (limit_then_offset views 10 users firstTen
                (JSNumber.ofZ 10) eq_refl eq_refl
                ltac:(vm_compute; reflexivity))
      as (fromC & Hf & _ & H).
    vm_compute in Hf. injection Hf as <-.
    rewrite H. vm_compute. reflexivity.
  - destruct (limit_then_offset views 10 users farPage
                (JSNumber.ofZ 3002399751580331) eq_refl eq_refl
                ltac:(vm_compute; reflexivity))
      as (fromC & Hf & _ & H).
    vm_compute in Hf. injection Hf as <-.
    rewrite H. vm_compute. reflexivity.
  - destruct (limit_then_offset views 10 users halfPage
                (S754_finite false 4503599627370496 (-53)) eq_refl eq_refl
                ltac:(vm_compute; reflexivity))
      as (fromC & Hf & _ & H).
    vm_compute in Hf. injection Hf as <-.
    rewrite H. vm_compute. reflexivity.
Defined.

Lemma cyclic_dependency_witness :
  CteGraph.buildComplexSQL loop 1000 usersWithLoop None
  = Throw (SQLBuildError
             "Failed to build SQL query: Maximum call stack size exceeded").
Proof.
  apply (proj2 (cyclic_dependency_overflows loop 1000 usersWithLoop None
                  [onLoop] "L" 0 0 eq_refl eq_refl
                  ltac:(vm_compute; left; reflexivity)
                  (reaches_self loop 0)
                  (ex_intro _ "L"
                     (ex_intro _ 0
                        (conj (or_introl eq_refl) (reaches_self loop 0)))))).
Defined.
